(** * dependency-context: the vector store (chunking, indexing, search)

    A shallow embedding of [src/vectorstore] (splitIntoChunks,
    generateEmbedding, indexDocumentation, cosineSimilarity,
    searchVectorStore) and of [src/capabilities/search.ts]
    (searchDependencyDocs), with the properties the specification states
    about them.

    Conventions.
    - A JavaScript string is the list of its UTF-16 code units ([list N]);
      [.length] is [length].
    - A JavaScript number is a binary64 float ([PrimFloat.float]); sizes that
      the code only compares with lengths are integers ([Z]).
    - Asynchronous, effectful code runs in a state-and-exception monad over
      the [World]: the file system, the process-wide model cache and the log
      of observable effects. *)

From Stdlib Require Import ZArith NArith Lia Floats Ascii String Reals Lra Psatz Sorted.
From stdpp Require Import base option list gmap.

Set Default Proof Using "Type".
Local Open Scope Z_scope.

(** ** JavaScript strings *)

Abbreviation jschar := N (only parsing).
Abbreviation jsstring := (list N) (only parsing).

(** An ASCII literal as a JavaScript string. *)
Definition js (s : string) : jsstring :=
  List.map N_of_ascii (list_ascii_of_string s).

(** [s.length], as the integer the code compares with the size bounds. *)
Definition len (s : jsstring) : Z := Z.of_nat (length s).

(** ECMAScript LineTerminator: LF, CR, LS, PS. *)
Definition is_line_terminator (c : jschar) : bool :=
  ((c =? 10) || (c =? 13) || (c =? 8232) || (c =? 8233))%N.

(** ECMAScript WhiteSpace or LineTerminator: what [String.prototype.trim]
    strips and what the class [\s] matches. *)
Definition is_white_space (c : jschar) : bool :=
  ((c =? 9) || (c =? 11) || (c =? 12) || (c =? 32) || (c =? 160)
   || (c =? 5760) || ((8192 <=? c) && (c <=? 8202)) || (c =? 8239)
   || (c =? 8287) || (c =? 12288) || (c =? 65279))%N
  || is_line_terminator c.

Definition is_hash (c : jschar) : bool := (c =? 35)%N.
Definition is_newline (c : jschar) : bool := (c =? 10)%N.
Definition is_dot (c : jschar) : bool := negb (is_line_terminator c).

(** Length of the longest prefix of [s] whose code units satisfy [p]. *)
Fixpoint run_length (p : jschar → bool) (s : jsstring) : nat :=
  match s with
  | c :: s' => if p c then S (run_length p s') else O
  | [] => O
  end.

Fixpoint trimStart (s : jsstring) : jsstring :=
  match s with
  | c :: s' => if is_white_space c then trimStart s' else s
  | [] => []
  end.

Definition trimEnd (s : jsstring) : jsstring := rev (trimStart (rev s)).

(** [s.trim()] *)
Definition trim (s : jsstring) : jsstring := trimEnd (trimStart s).

(** The code units of [s] that are not white space, in order. *)
Definition nonws (s : jsstring) : jsstring :=
  List.filter (λ c, negb (is_white_space c)) s.

(** A string is truthy unless it is empty. *)
Definition truthy (s : jsstring) : bool :=
  match s with [] => false | _ => true end.

(** ** Regular expressions of the chunker

    A pattern is embedded as the function that, given the code unit before
    the current offset (if any) and the rest of the input from that offset,
    returns the length of the match the backtracking matcher finds there. *)

Definition pattern := option jschar → jsstring → option nat.

(** A greedy quantifier: try [n] repetitions, then [n-1], ... down to one,
    keeping the first count for which the rest of the pattern matches. *)
Fixpoint greedy {A} (n : nat) (rest : nat → option A) : option A :=
  match n with
  | O => None
  | S k => match rest n with
           | Some r => Some r
           | None => greedy k rest
           end
  end.

(** [^] under the [m] flag: at the start of the input or after a line
    terminator. *)
Definition at_line_start (prev : option jschar) : bool :=
  match prev with
  | None => true
  | Some c => is_line_terminator c
  end.

(** [$] under the [m] flag: at the end of the input or before a line
    terminator. *)
Definition at_line_end (s : jsstring) : bool :=
  match s with
  | [] => true
  | c :: _ => is_line_terminator c
  end.

(** [/^#{1,6}\s+.+$/m]: one to six [#], white space (which may run over line
    ends), then the rest of a non-empty line. *)
Definition header_pattern : pattern := λ prev s,
  if at_line_start prev then
    greedy (Nat.min 6 (run_length is_hash s)) (λ k,
      let s1 := drop k s in
      greedy (run_length is_white_space s1) (λ j,
        let s2 := drop j s1 in
        greedy (run_length is_dot s2) (λ d,
          if at_line_end (drop d s2) then Some (k + j + d)%nat else None)))
  else None.

(** [/\n{2,}/]: a maximal run of at least two line feeds. *)
Definition blank_pattern : pattern := λ _ s,
  let n := run_length is_newline s in
  if (2 <=? n)%nat then Some n else None.

(** [String.prototype.split] with a pattern separator. The scan keeps the
    piece read so far (reversed), the code unit before the current offset and
    the number of code units of a match still to be skipped. Each piece is
    returned with the separator that ended it (empty for the last piece). *)
Fixpoint split_scan (m : pattern) (skip : nat) (prev : option jschar)
    (piece : jsstring) (s : jsstring) : list (jsstring * jsstring) :=
  match s with
  | [] => [(rev piece, [])]
  | c :: s' =>
      match skip with
      | S k => split_scan m k (Some c) piece s'
      | O =>
          match m prev s with
          | Some (S n) => (rev piece, take (S n) s) :: split_scan m n (Some c) [] s'
          | Some O =>
              (* an empty match: it splits unless it sits where the piece starts *)
              match piece with
              | [] => split_scan m 0 (Some c) [c] s'
              | _ => (rev piece, []) :: split_scan m 0 (Some c) [c] s'
              end
          | None => split_scan m 0 (Some c) (c :: piece) s'
          end
      end
  end.

Definition split_with_separators (m : pattern) (s : jsstring) : list (jsstring * jsstring) :=
  match s with
  | [] => match m None [] with Some _ => [] | None => [([], [])] end
  | _ => split_scan m 0 None [] s
  end.

(** [s.split(m)] *)
Definition js_split (m : pattern) (s : jsstring) : list jsstring :=
  List.map fst (split_with_separators m s).

(** ** Documents and the chunker *)

Record Document := {
  content : jsstring;
  path : jsstring;
  filename : jsstring;
}.

Definition blank_line : jsstring := [10; 10]%N.

(** The state of the chunker: the [chunks] array and, as a ghost ledger that
    no branch reads, the buffers the paragraph loop discards. *)
Record chunker := {
  chunks : list jsstring;
  dropped : list jsstring;
}.

Definition push (st : chunker) (c : jsstring) : chunker :=
  {| chunks := chunks st ++ [c]; dropped := dropped st |}.

Definition discard (st : chunker) (c : jsstring) : chunker :=
  {| chunks := chunks st; dropped := dropped st ++ [c] |}.

(** [chunks[chunks.length - 1] = c] on a non-empty array. *)
Definition set_last (st : chunker) (c : jsstring) : chunker :=
  {| chunks := removelast (chunks st) ++ [c]; dropped := dropped st |}.

(** [if (currentChunk && currentChunk.length >= minSize) chunks.push(currentChunk.trim())] *)
Definition flush (minSize : Z) (st : chunker) (currentChunk : jsstring) : chunker :=
  if truthy currentChunk then
    if minSize <=? len currentChunk then push st (trim currentChunk)
    else discard st currentChunk
  else st.

(** One iteration of [for (const paragraph of paragraphs)]. *)
Definition paragraph_step (minSize maxSize : Z)
    (acc : chunker * jsstring) (paragraph : jsstring) : chunker * jsstring :=
  let '(st, currentChunk) := acc in
  if (length (trim paragraph) =? 0)%nat then acc
  else if len currentChunk + len paragraph <=? maxSize then
    (st, currentChunk ++ (if truthy currentChunk then blank_line else []) ++ paragraph)
  else (flush minSize st currentChunk, paragraph).

(** One iteration of [for (let split of headerSplits)]. *)
Definition split_step (minSize maxSize : Z) (st : chunker) (split : jsstring) : chunker :=
  if (length (trim split) =? 0)%nat then st
  else if len split <=? maxSize then
    if minSize <=? len split then push st (trim split)
    else
      match last (chunks st) with
      | Some lastChunk =>
          if truthy lastChunk && (len lastChunk + len split <=? maxSize)
          then set_last st (lastChunk ++ blank_line ++ trim split)
          else push st (trim split)
      | None => push st (trim split)
      end
  else
    let paragraphs := js_split blank_pattern split in
    let '(st', currentChunk) :=
      fold_left (paragraph_step minSize maxSize) paragraphs (st, []) in
    flush minSize st' currentChunk.

Definition headerSplits (document : Document) : list jsstring :=
  js_split header_pattern (content document).

Definition chunk_document (document : Document) (minSize maxSize : Z) : chunker :=
  fold_left (split_step minSize maxSize) (headerSplits document)
    {| chunks := []; dropped := [] |}.

(** [splitIntoChunks(document, minSize = 800, maxSize = 8000)] *)
Definition splitIntoChunks (document : Document) (minSize maxSize : Z) : list jsstring :=
  chunks (chunk_document document minSize maxSize).

(** The buffers [splitIntoChunks] discards, in order. *)
Definition droppedBuffers (document : Document) (minSize maxSize : Z) : list jsstring :=
  dropped (chunk_document document minSize maxSize).

Definition defaultMinSize : Z := 800.
Definition defaultMaxSize : Z := 8000.

(** ** Numbers

    [cosineSimilarity] is written over the operations of a number type, so
    that the same text can be read at binary64 (what the program computes)
    and over the reals (what it approximates). *)

Class Arith (num : Type) := {
  zero : num;
  (** the operand an out-of-range array read yields in arithmetic:
      [undefined], that is NaN *)
  undefined_operand : num;
  add : num → num → num;
  mul : num → num → num;
  div : num → num → num;
  sqrt : num → num;
}.

#[export] Instance binary64 : Arith float := {|
  zero := 0%float;
  undefined_operand := nan;
  add := PrimFloat.add;
  mul := PrimFloat.mul;
  div := PrimFloat.div;
  sqrt := PrimFloat.sqrt;
|}.

(** Exact arithmetic. The reals have no NaN: [undefined_operand] is only
    read when the second vector is shorter than the first. *)
#[export] Instance exact : Arith R := {|
  zero := 0%R;
  undefined_operand := 0%R;
  add := Rplus;
  mul := Rmult;
  div := Rdiv;
  sqrt := R_sqrt.sqrt;
|}.

Section Cosine.
Context {num : Type} `{Arith num}.

(** [v[i]] in an arithmetic expression *)
Definition at_index (v : list num) (i : nat) : num := nth i v undefined_operand.

(** The body of the [for] loop, on [(dotProduct, normA, normB)]. *)
Definition cosine_step (vecA vecB : list num) (acc : num * num * num) (i : nat)
    : num * num * num :=
  let '(dotProduct, normA, normB) := acc in
  (add dotProduct (mul (at_index vecA i) (at_index vecB i)),
   add normA (mul (at_index vecA i) (at_index vecA i)),
   add normB (mul (at_index vecB i) (at_index vecB i))).

Definition cosine_sums (vecA vecB : list num) : num * num * num :=
  fold_left (cosine_step vecA vecB) (seq 0 (length vecA)) (zero, zero, zero).

Definition cosineSimilarity (vecA vecB : list num) : num :=
  let '(dotProduct, normA, normB) := cosine_sums vecA vecB in
  div dotProduct (mul (sqrt normA) (sqrt normB)).
End Cosine.

(** ** The vector store *)

(** An element of a persisted embedding array: JSON has numbers and [null]. *)
Inductive json_number :=
  | JNum (x : float)
  | JNull.

(** ToNumber *)
Definition to_number (v : json_number) : float :=
  match v with
  | JNum x => x
  | JNull => 0%float
  end.

Record Metadata := {
  repository : jsstring;
  file : jsstring;
  dependency : jsstring;
}.

Record VectorStoreEntry := {
  chunk : jsstring;
  embedding : list json_number;
  metadata : Metadata;
}.

Record VectorStore := { entries : list VectorStoreEntry }.

(** What [JSON.stringify] followed by [JSON.parse] makes of a number: a
    finite number comes back as it was, except that [-0] comes back as [0];
    NaN and the infinities are written as [null]. *)
Definition json_round_trip (v : json_number) : json_number :=
  match v with
  | JNull => JNull
  | JNum x =>
      match classify x with
      | NaN | PInf | NInf => JNull
      | NZero => JNum 0%float
      | _ => JNum x
      end
  end.

Definition persisted_entry (e : VectorStoreEntry) : VectorStoreEntry :=
  {| chunk := chunk e;
     embedding := List.map json_round_trip (embedding e);
     metadata := metadata e |}.

Definition persisted (s : VectorStore) : VectorStore :=
  {| entries := List.map persisted_entry (entries s) |}.

Record SearchResult := {
  text_chunk : jsstring;
  source_repository : jsstring;
  source_file : jsstring;
  similarity_score : float;
}.

(** [s.includes(sub)] *)
Fixpoint starts_with (s sub : jsstring) : bool :=
  match sub, s with
  | [], _ => true
  | c :: sub', d :: s' => (c =? d)%N && starts_with s' sub'
  | _ :: _, [] => false
  end.

Fixpoint includes (s sub : jsstring) : bool :=
  starts_with s sub ||
  match s with
  | [] => false
  | _ :: s' => includes s' sub
  end.

(** *** Array.prototype.sort

    The comparator's result is read as the specification's SortCompare reads
    it: negative, positive, or zero, NaN counting as zero. The sort itself
    is the stable insertion sort. When the comparator is consistent - as
    [comparefn] is when no score is NaN - the language fixes the array the
    sort returns, and every stable sort returns it. When it is not, the
    language leaves the order to the engine: what is stated of the order of
    the results of every search assumes that no score is NaN, and the rest
    is about what no sort changes, the elements and their number. *)

Definition sign_of (v : float) : comparison :=
  if (v <? 0)%float then Lt else if (0 <? v)%float then Gt else Eq.

Section Sort.
Context {A : Type} (cmp : A → A → comparison).

Fixpoint insert_sorted (x : A) (l : list A) : list A :=
  match l with
  | [] => [x]
  | y :: l' =>
      match cmp x y with
      | Gt => y :: insert_sorted x l'
      | _ => x :: l
      end
  end.

Definition js_sort (l : list A) : list A := fold_right insert_sorted [] l.
End Sort.

(** [(a, b) => b.similarity_score - a.similarity_score] *)
Definition comparefn (a b : SearchResult) : float :=
  (similarity_score b - similarity_score a)%float.

Definition sort_compare (a b : SearchResult) : comparison := sign_of (comparefn a b).

(** [vectorStore.entries.map(entry => ...)] *)
Definition score_entry (queryEmbedding : list float) (entry : VectorStoreEntry) : SearchResult :=
  {| text_chunk := chunk entry;
     source_repository := repository (metadata entry);
     source_file := file (metadata entry);
     similarity_score :=
       cosineSimilarity queryEmbedding (List.map to_number (embedding entry)) |}.

(** [if (repositoryContext) results = results.filter(...)] *)
Definition filter_by_context (repositoryContext : option jsstring)
    (results : list SearchResult) : list SearchResult :=
  match repositoryContext with
  | Some ctx =>
      if truthy ctx then
        List.filter (λ result, includes (source_repository result) ctx
                               || includes (source_file result) ctx) results
      else results
  | None => results
  end.

(** The results before sorting. *)
Definition scored_results (queryEmbedding : list float) (store : VectorStore)
    (repositoryContext : option jsstring) : list SearchResult :=
  filter_by_context repositoryContext
    (List.map (score_entry queryEmbedding) (entries store)).

(** Lines 355-376 of the search: score, filter, sort, [slice(0, 5)]. *)
Definition rank (queryEmbedding : list float) (store : VectorStore)
    (repositoryContext : option jsstring) : list SearchResult :=
  take 5 (js_sort sort_compare (scored_results queryEmbedding store repositoryContext)).

(** ** The world: file system, model cache, effects *)

Record Config := {
  port : Z;
  githubToken : option jsstring;
  embeddingModel : jsstring;
  storageDir : jsstring;
  debugMode : bool;
  minChunkSize : Z;
  maxChunkSize : Z;
  chunksReturned : Z;
}.

Record Dependency := {
  dep_name : jsstring;
  dep_version : jsstring;
}.

Record Repository := {
  repo_name : jsstring;
  repo_owner : jsstring;
  repo_url : jsstring;
  repo_ref : jsstring;
}.

(** A file is either a store as [writeJson] leaves it, or something
    [readJson] rejects (a truncated or foreign file). *)
Inductive file_content :=
  | StoreFile (store : VectorStore)
  | Unreadable.

Inductive error :=
  | PipelineError (modelName : jsstring)
  | InferenceError (text : jsstring)
  | MkdirError (p : jsstring)
  | ReadError (p : jsstring)
  | WriteError (p : jsstring)
  | ConfigError.

(** The failures [generateEmbedding] throws. *)
Definition is_embedding_failure (e : error) : bool :=
  match e with
  | PipelineError _ | InferenceError _ => true
  | _ => false
  end.

Inductive log_level := LevelLog | LevelInfo | LevelDebug | LevelError.

Inductive console_message :=
  | MsgIndexing (dependency : jsstring)
  | MsgIndexed (documents chunks : nat) (dependency : jsstring)
  | MsgErrorIndexing (dependency : jsstring) (e : error)
  | MsgStoreNotFound (projectPath : jsstring)
  | MsgErrorSearching (e : error)
  | MsgSearching (query projectPath : jsstring)
  | MsgSearchDetails (query : jsstring) (repository_context : option jsstring)
  | MsgFound (results : nat)
  | MsgErrorPerformingSearch (e : error).

(** The effects a run leaves behind, oldest first. *)
Inductive event :=
  | Embed (text : jsstring)
  | LoadModel (modelName : jsstring)
  | EnsureDir (p : jsstring)
  | PathExists (p : jsstring)
  | ReadJson (p : jsstring)
  | WriteJson (p : jsstring)
  | Console (level : log_level) (msg : console_message).

(** A loaded feature-extraction model: the embedding of a text, or a
    rejection. *)
Definition Model := jsstring → option (list float).

Record World := {
  files : gmap (list N) file_content;
  dirs : gset (list N);
  env : gmap (list N) (list N);
  embeddingGeneratorCache : option Model;
  trace : list event;
}.

Definition with_files (w : World) (f : gmap (list N) file_content) : World :=
  {| files := f; dirs := dirs w; env := env w;
     embeddingGeneratorCache := embeddingGeneratorCache w; trace := trace w |}.

Definition with_dirs (w : World) (d : gset (list N)) : World :=
  {| files := files w; dirs := d; env := env w;
     embeddingGeneratorCache := embeddingGeneratorCache w; trace := trace w |}.

Definition with_env (w : World) (e : gmap (list N) (list N)) : World :=
  {| files := files w; dirs := dirs w; env := e;
     embeddingGeneratorCache := embeddingGeneratorCache w; trace := trace w |}.

Definition with_cache (w : World) (c : option Model) : World :=
  {| files := files w; dirs := dirs w; env := env w;
     embeddingGeneratorCache := c; trace := trace w |}.

Definition with_trace (w : World) (t : list event) : World :=
  {| files := files w; dirs := dirs w; env := env w;
     embeddingGeneratorCache := embeddingGeneratorCache w; trace := t |}.

(** *** The monad of asynchronous code: state and exceptions *)

Inductive outcome (A : Type) :=
  | Returned (a : A)
  | Thrown (e : error).
Arguments Returned {A} a.
Arguments Thrown {A} e.

Definition M (A : Type) : Type := World → outcome A * World.

Definition ret {A} (a : A) : M A := λ w, (Returned a, w).

Definition bind {A B} (m : M A) (k : A → M B) : M B := λ w,
  match m w with
  | (Returned a, w') => k a w'
  | (Thrown e, w') => (Thrown e, w')
  end.

Declare Scope js_scope.
Delimit Scope js_scope with js.
Notation "x <- m ;; k" := (bind m (λ x, k))
  (at level 100, m at next level, right associativity) : js_scope.
Notation "m ;; k" := (bind m (λ _, k))
  (at level 100, right associativity) : js_scope.
Local Open Scope js_scope.

Definition throw {A} (e : error) : M A := λ w, (Thrown e, w).

(** [try { m } catch (error) { handler }] *)
Definition try_catch {A} (m : M A) (handler : error → M A) : M A := λ w,
  match m w with
  | (Returned a, w') => (Returned a, w')
  | (Thrown e, w') => handler e w'
  end.

(** [for (const x of l) { s = body(x, s) }] *)
Fixpoint for_each {A S} (l : list A) (body : A → S → M S) (s : S) : M S :=
  match l with
  | [] => ret s
  | x :: l' => s' <- body x s;; for_each l' body s'
  end.

Definition emit (e : event) : M unit := λ w,
  (Returned (), with_trace w (trace w ++ [e])).

Definition console_log (msg : console_message) : M unit := emit (Console LevelLog msg).
Definition console_error (msg : console_message) : M unit := emit (Console LevelError msg).
Definition log_info (msg : console_message) : M unit := emit (Console LevelInfo msg).
Definition log_debug (msg : console_message) : M unit := emit (Console LevelDebug msg).
Definition log_error (msg : console_message) : M unit := emit (Console LevelError msg).

(** The texts [generateEmbedding] was called on. *)
Definition embed_calls (evs : list event) : list jsstring :=
  flat_map (λ e, match e with Embed text => [text] | _ => [] end) evs.

Definition is_write (e : event) : bool :=
  match e with WriteJson _ => true | _ => false end.

Definition is_read (e : event) : bool :=
  match e with ReadJson _ => true | _ => false end.

Definition is_console (e : event) : bool :=
  match e with Console _ _ => true | _ => false end.

(** How a write that fails leaves the file. *)
Inductive write_result := WriteOk | WriteFailsUntouched | WriteFailsTruncated.

Definition default_model : jsstring := js "Xenova/all-MiniLM-L6-v2".
Definition storage_dir_name : jsstring := js ".dependency-context".
Definition store_file_name : jsstring := js "vector-store.json".

(** [config?.embeddingModel || 'Xenova/all-MiniLM-L6-v2'] *)
Definition model_name (config : option Config) : jsstring :=
  match config with
  | Some c => if truthy (embeddingModel c) then embeddingModel c else default_model
  | None => default_model
  end.

Section Program.
(** The collaborators outside the repository: [path.join], the
    [@xenova/transformers] pipeline loader ([None]: the load rejects), and
    the ways the disk can refuse a directory or a write. *)
Variable path_join : jsstring → jsstring → jsstring.
Variable pipeline : jsstring → option Model.
Variable mkdir_ok : jsstring → bool.
Variable write_outcome : jsstring → write_result.

(** [fs.ensureDir] *)
Definition ensureDir (p : jsstring) : M unit :=
  emit (EnsureDir p);;
  if mkdir_ok p then λ w, (Returned (), with_dirs w (dirs w ∪ {[p]}))
  else throw (MkdirError p).

(** [fs.pathExists] *)
Definition pathExists (p : jsstring) : M bool :=
  emit (PathExists p);;
  λ w, (Returned (bool_decide (is_Some (files w !! p)) || bool_decide (p ∈ dirs w)), w).

(** [fs.readJson] *)
Definition readJson (p : jsstring) : M VectorStore :=
  emit (ReadJson p);;
  λ w, match files w !! p with
       | Some (StoreFile store) => (Returned store, w)
       | _ => (Thrown (ReadError p), w)
       end.

(** [fs.writeJson] *)
Definition writeJson (p : jsstring) (store : VectorStore) : M unit :=
  emit (WriteJson p);;
  λ w, match write_outcome p with
       | WriteOk => (Returned (), with_files w (<[p := StoreFile (persisted store)]> (files w)))
       | WriteFailsUntouched => (Thrown (WriteError p), w)
       | WriteFailsTruncated =>
           (Thrown (WriteError p), with_files w (<[p := Unreadable]> (files w)))
       end.

(** The lazy load at the head of [generateEmbedding]: the cached model, or
    the one [pipeline] returns, which is then cached. *)
Definition load_generator (config : option Config) : M Model := λ w,
  match embeddingGeneratorCache w with
  | Some g => (Returned g, w)
  | None =>
      let modelName := model_name config in
      let w1 := with_trace w (trace w ++ [LoadModel modelName]) in
      match pipeline modelName with
      | Some g => (Returned g, with_cache w1 (Some g))
      | None => (Thrown (PipelineError modelName), w1)
      end
  end.

(** [generateEmbedding(text, config)] *)
Definition generateEmbedding (text : jsstring) (config : option Config) : M (list float) :=
  emit (Embed text);;
  generator <- load_generator config;;
  match generator text with
  | Some data => ret data
  | None => throw (InferenceError text)
  end.

Definition vector_store_path (projectPath : jsstring) : jsstring :=
  path_join (path_join projectPath storage_dir_name) store_file_name.

Definition new_entry (repository : Repository) (dependency : Dependency)
    (document : Document) (chunk : jsstring) (embedding : list float) : VectorStoreEntry :=
  {| chunk := chunk;
     embedding := List.map JNum embedding;
     metadata := {| repository := repo_url repository;
                    file := path document;
                    dependency := dep_name dependency |} |}.

(** The body of [for (const chunk of chunks)]. *)
Definition index_chunk (repository : Repository) (dependency : Dependency)
    (config : option Config) (document : Document)
    (chunk : jsstring) (entries : list VectorStoreEntry) : M (list VectorStoreEntry) :=
  if truthy (trim chunk) then
    embedding <- generateEmbedding chunk config;;
    ret (entries ++ [new_entry repository dependency document chunk embedding])
  else ret entries.

(** The body of [for (const document of documents)]. *)
Definition index_document (repository : Repository) (dependency : Dependency)
    (config : option Config) (document : Document)
    (entries : list VectorStoreEntry) : M (list VectorStoreEntry) :=
  for_each (splitIntoChunks document defaultMinSize defaultMaxSize)
    (index_chunk repository dependency config document) entries.

(** [indexDocumentation(projectPath, dependency, repository, documents, config)] *)
Definition indexDocumentation (projectPath : jsstring) (dependency : Dependency)
    (repository : Repository) (documents : list Document) (config : option Config)
    : M unit :=
  try_catch
    (console_log (MsgIndexing (dep_name dependency));;
     let storageDir := path_join projectPath storage_dir_name in
     ensureDir storageDir;;
     let vectorStorePath := path_join storageDir store_file_name in
     found <- pathExists vectorStorePath;;
     vectorStore <- (if found then readJson vectorStorePath
                    else ret {| entries := [] |});;
     entries' <- for_each documents
                  (index_document repository dependency config) (entries vectorStore);;
     writeJson vectorStorePath {| entries := entries' |};;
     console_log (MsgIndexed (length documents) (length entries') (dep_name dependency)))
    (λ error,
      console_error (MsgErrorIndexing (dep_name dependency) error);;
      throw error).

(** [searchVectorStore(projectPath, query, repositoryContext, config)],
    the ranking step (lines 355-376) abstracted as [ranker]. *)
Definition searchVectorStore_with
    (ranker : list float → VectorStore → option jsstring → list SearchResult)
    (projectPath query : jsstring)
    (repositoryContext : option jsstring) (config : option Config)
    : M (list SearchResult) :=
  try_catch
    (queryEmbedding <- generateEmbedding query config;;
     let storageDir := path_join projectPath storage_dir_name in
     let vectorStorePath := path_join storageDir store_file_name in
     found <- pathExists vectorStorePath;;
     if negb found then
       console_error (MsgStoreNotFound projectPath);;
       ret []
     else
       vectorStore <- readJson vectorStorePath;;
       ret (ranker queryEmbedding vectorStore repositoryContext))
    (λ error,
      console_error (MsgErrorSearching error);;
      ret []).

(** [searchVectorStore(projectPath, query, repositoryContext, config)] *)
Definition searchVectorStore := searchVectorStore_with rank.

(** *** The search capability *)

Record SearchParams := {
  project_path : jsstring;
  query : jsstring;
  repository_context : option jsstring;
  env_vars : option (list (jsstring * jsstring));
}.

(** The object [searchDependencyDocs] serialises as its answer. *)
Record SearchResponse := {
  results : list SearchResult;
  response_error : option error;
}.

(** [getConfig(projectPath)] of [src/config.ts] reads the environment and
    the project's .env files; the search only passes its result on. *)
Variable getConfig : jsstring → M Config.

(** [process.env[key] = value] for each entry *)
Definition set_env_vars (vars : list (jsstring * jsstring)) : M unit := λ w,
  (Returned (), with_env w (fold_left (λ e kv, <[kv.1 := kv.2]> e) vars (env w))).

(** [searchDependencyDocs(params, context)] *)
Definition searchDependencyDocs (params : SearchParams) : M SearchResponse :=
  try_catch
    (log_info (MsgSearching (query params) (project_path params));;
     match env_vars params with
     | Some vars => set_env_vars vars
     | None => ret ()
     end;;
     config <- getConfig (project_path params);;
     (if debugMode config
      then log_debug (MsgSearchDetails (query params) (repository_context params))
      else ret ());;
     results <- searchVectorStore (project_path params) (query params)
                 (repository_context params) (Some config);;
     log_info (MsgFound (length results));;
     ret {| results := results; response_error := None |})
    (λ error,
      log_error (MsgErrorPerformingSearch error);;
      ret {| results := []; response_error := Some error |}).

(** *** What a run does, read off the world it starts in *)

(** The model [generateEmbedding] runs: the cached one, or the one the loader
    returns. *)
Definition generator_of (w : World) (config : option Config) : option Model :=
  match embeddingGeneratorCache w with
  | Some g => Some g
  | None => pipeline (model_name config)
  end.

(** What [generateEmbedding(text, config)] returns or throws. *)
Definition embedding_of (w : World) (config : option Config) (text : jsstring)
    : outcome (list float) :=
  match generator_of w config with
  | None => Thrown (PipelineError (model_name config))
  | Some g =>
      match g text with
      | Some data => Returned data
      | None => Thrown (InferenceError text)
      end
  end.

(** What [pathExists(p)] answers. *)
Definition path_exists (w : World) (p : jsstring) : bool :=
  bool_decide (is_Some (files w !! p)) || bool_decide (p ∈ dirs w).

(** The records of the store file at [p]; none when there is no such file. *)
Definition stored_entries (w : World) (p : jsstring) : list VectorStoreEntry :=
  match files w !! p with
  | Some (StoreFile store) => entries store
  | _ => []
  end.

(** The value of [searchVectorStore_with ranker]. *)
Definition search_value
    (ranker : list float → VectorStore → option jsstring → list SearchResult)
    (w : World) (projectPath query : jsstring)
    (repositoryContext : option jsstring) (config : option Config)
    : list SearchResult :=
  match embedding_of w config query with
  | Thrown _ => []
  | Returned queryEmbedding =>
      match files w !! vector_store_path projectPath with
      | Some (StoreFile store) => ranker queryEmbedding store repositoryContext
      | _ => []
      end
  end.

(** The chunks [indexDocumentation] embeds, each with its document, in the
    order of the run. *)
Definition work_of (documents : list Document) : list (Document * jsstring) :=
  flat_map (λ d, List.map (pair d)
                   (List.filter (λ c, truthy (trim c))
                      (splitIntoChunks d defaultMinSize defaultMaxSize)))
    documents.

(** The loop over the work with the embedder [embed]: the entries when every
    chunk embeds, or the first failure; and the texts handed to the embedder. *)
Fixpoint embed_all (embed : jsstring → outcome (list float))
    (repository : Repository) (dependency : Dependency)
    (work : list (Document * jsstring)) (entries : list VectorStoreEntry)
    : outcome (list VectorStoreEntry) * list jsstring :=
  match work with
  | [] => (Returned entries, [])
  | (document, chunk) :: work' =>
      match embed chunk with
      | Returned embedding =>
          let '(r, texts) :=
            embed_all embed repository dependency work'
              (entries ++ [new_entry repository dependency document chunk embedding]) in
          (r, chunk :: texts)
      | Thrown e => (Thrown e, [chunk])
      end
  end.

(** The failure a search meets, if any: that of the embedder on the query,
    or that of reading what is at the store's path. *)
Definition search_failure (w : World) (projectPath query : jsstring)
    (config : option Config) : option error :=
  match embedding_of w config query with
  | Thrown e => Some e
  | Returned _ =>
      let p := vector_store_path projectPath in
      if path_exists w p then
        match files w !! p with
        | Some (StoreFile _) => None
        | _ => Some (ReadError p)
        end
      else None
  end.

(** The results of a search before they are sorted and cut: none when the
    query does not embed or no store is read. *)
Definition search_scored (w : World) (projectPath query : jsstring)
    (repositoryContext : option jsstring) (config : option Config)
    : list SearchResult :=
  match embedding_of w config query with
  | Thrown _ => []
  | Returned queryEmbedding =>
      match files w !! vector_store_path projectPath with
      | Some (StoreFile store) => scored_results queryEmbedding store repositoryContext
      | _ => []
      end
  end.

(** The world in which [searchDependencyDocs] calls [getConfig]: the search
    is announced and the environment variables of the request are set. *)
Definition world_before_config (params : SearchParams) (w : World) : World :=
  let w0 := with_trace w (trace w ++ [Console LevelInfo
                                        (MsgSearching (query params) (project_path params))]) in
  match env_vars params with
  | Some vars => with_env w0 (fold_left (λ e kv, <[kv.1 := kv.2]> e) vars (env w0))
  | None => w0
  end.

(** *** The analysis capability

    [analyzeAndIndexDependencies] is the caller of [indexDocumentation]. Its
    other collaborators are left open: the logger and the progress callback
    of the request context, the dependency parser, the repository finder
    and the documentation fetcher. *)

Record AnalyzeParams := {
  analyze_project_path : jsstring;
  analyze_env_vars : option (list (jsstring * jsstring));
}.

(** The entries of the [errors] array. *)
Inductive dependency_error :=
  | NoRepository (dep : Dependency)
  | NoDocumentation (dep : Dependency)
  | ProcessingError (dep : Dependency) (e : error).

Inductive analyze_status := StatusSuccess | StatusFailure.

Inductive analyze_message :=
  | MsgInvalidProjectPath (projectPath : jsstring)
  | MsgNoDependencies
  | MsgProcessed (dependencies successCount errorCount : nat)
      (errors : list dependency_error)
  | MsgFailedToAnalyze (e : error).

(** The object [analyzeAndIndexDependencies] serialises as its answer. *)
Record AnalyzeResult := {
  status : analyze_status;
  message : analyze_message;
}.

Inductive analyze_log :=
  | LogStarting (projectPath : jsstring)
  | LogConfig (config : Config)
  | LogFound (dependencies : nat)
  | LogProcessing (dep : Dependency)
  | LogProcessed (dep : Dependency)
  | LogErrorProcessing (dep : Dependency) (e : error)
  | LogFailed (e : error).

(** The points at which progress is reported: 0, 10 and 20 out of 100, then
    20 plus the share of the [increments] made so far, each a third of
    [70 / dependencies], rounded; then 100. *)
Inductive progress :=
  | ProgressStart
  | ProgressConfigured
  | ProgressParsed
  | ProgressStep (increments dependencies : nat)
  | ProgressDone.

(** [log.info], [log.debug], [log.error] of the request context; a logger
    does not throw. *)
Variable log : log_level → analyze_log → World → World.
Variable reportProgress : progress → M unit.
Variable parseDependencies : jsstring → M (list Dependency).
Variable findGitHubRepository : Dependency → Config → M (option Repository).
Variable fetchDocs : Repository → Config → M (list Document).

Definition logged (level : log_level) (msg : analyze_log) : M unit := λ w,
  (Returned (), log level msg w).

(** The variables of the loop: [successCount], [errorCount], [errors] and,
    for [currentProgress], the number of increments made. *)
Record analyze_state := {
  successCount : nat;
  errorCount : nat;
  errors : list dependency_error;
  increments : nat;
}.

Definition initial_state : analyze_state :=
  {| successCount := 0; errorCount := 0; errors := []; increments := 0 |}.

(** [errors.push(err); errorCount++] *)
Definition record_error (st : analyze_state) (err : dependency_error) : analyze_state :=
  {| successCount := successCount st;
     errorCount := S (errorCount st);
     errors := errors st ++ [err];
     increments := increments st |}.

(** [successCount++] *)
Definition count_success (st : analyze_state) : analyze_state :=
  {| successCount := S (successCount st);
     errorCount := errorCount st;
     errors := errors st;
     increments := increments st |}.

(** [currentProgress += progressIncrement / 3] *)
Definition advance (st : analyze_state) : analyze_state :=
  {| successCount := successCount st;
     errorCount := errorCount st;
     errors := errors st;
     increments := S (increments st) |}.

(** The [catch] of the loop body, with the variables as they are when the
    error is thrown. *)
Definition caught (dep : Dependency) (st : analyze_state) (e : error) : M analyze_state :=
  logged LevelError (LogErrorProcessing dep e);;
  ret (record_error st (ProcessingError dep e)).

(** A statement of the [try] block of the loop body: when it throws, control
    passes to the [catch] with the variables as they are at that moment. *)
Definition guarded {A} (dep : Dependency) (st : analyze_state) (m : M A)
    (k : A → M analyze_state) : M analyze_state := λ w,
  match m w with
  | (Returned a, w') => k a w'
  | (Thrown e, w') => caught dep st e w'
  end.

(** The body of [for (const dep of dependencies)]. *)
Definition process_dependency (projectPath : jsstring) (config : Config) (total : nat)
    (dep : Dependency) (st : analyze_state) : M analyze_state :=
  logged LevelInfo (LogProcessing dep);;
  guarded dep st (findGitHubRepository dep config) (λ repo,
    match repo with
    | None => ret (record_error st (NoRepository dep))
    | Some repo =>
        let st1 := advance st in
        guarded dep st1 (reportProgress (ProgressStep (increments st1) total)) (λ _,
        guarded dep st1 (fetchDocs repo config) (λ docs,
          if (length docs =? 0)%nat then ret (record_error st1 (NoDocumentation dep))
          else
            let st2 := advance st1 in
            guarded dep st2 (reportProgress (ProgressStep (increments st2) total)) (λ _,
            guarded dep st2
              (indexDocumentation projectPath dep repo docs (Some config)) (λ _,
              let st3 := advance (count_success st2) in
              guarded dep st3 (reportProgress (ProgressStep (increments st3) total)) (λ _,
              logged LevelInfo (LogProcessed dep);;
              ret st3)))))
    end).

(** [{ ...config, githubToken: config.githubToken ? '***' : undefined }] *)
Definition mask_token (config : Config) : Config :=
  {| port := port config;
     githubToken := match githubToken config with
                    | Some (_ :: _) => Some (js "***")
                    | _ => None
                    end;
     embeddingModel := embeddingModel config;
     storageDir := storageDir config;
     debugMode := debugMode config;
     minChunkSize := minChunkSize config;
     maxChunkSize := maxChunkSize config;
     chunksReturned := chunksReturned config |}.

Definition failure (msg : analyze_message) : AnalyzeResult :=
  {| status := StatusFailure; message := msg |}.

(** [analyzeAndIndexDependencies(params, context)] *)
Definition analyzeAndIndexDependencies (params : AnalyzeParams) : M AnalyzeResult :=
  let project_path := analyze_project_path params in
  try_catch
    (λ w,
      if negb (truthy project_path) || negb (path_exists w project_path)
      then (Returned (failure (MsgInvalidProjectPath project_path)), w)
      else
        (logged LevelInfo (LogStarting project_path);;
         reportProgress ProgressStart;;
         match analyze_env_vars params with
         | Some vars => set_env_vars vars
         | None => ret ()
         end;;
         config <- getConfig project_path;;
         (if debugMode config then logged LevelDebug (LogConfig (mask_token config))
          else ret ());;
         reportProgress ProgressConfigured;;
         dependencies <- parseDependencies project_path;;
         if (length dependencies =? 0)%nat then ret (failure MsgNoDependencies)
         else
           logged LevelInfo (LogFound (length dependencies));;
           reportProgress ProgressParsed;;
           st <- for_each dependencies
                   (process_dependency project_path config (length dependencies))
                   initial_state;;
           reportProgress ProgressDone;;
           ret {| status := if (0 <? successCount st)%nat then StatusSuccess
                            else StatusFailure;
                  message := MsgProcessed (length dependencies) (successCount st)
                               (errorCount st) (errors st) |}) w)
    (λ error,
      logged LevelError (LogFailed error);;
      ret (failure (MsgFailedToAnalyze error))).

(** *** The configuration loader (src/config.ts)

    [getConfig] is read here as a function of what it reads: the variables
    of [process.env] and what lies at the two paths [tryLoadProjectEnv]
    tries. *)

Definition is_digit (c : jschar) : bool := ((48 <=? c) && (c <=? 57))%N.

(** The value of the longest prefix of decimal digits of [s], after the
    digits whose value is [acc]. *)
Fixpoint digits_value (acc : Z) (s : jsstring) : Z :=
  match s with
  | c :: s' => if is_digit c then digits_value (10 * acc + (Z.of_N c - 48)) s' else acc
  | [] => acc
  end.

(** The Number for the integer [n]: the binary64 nearest to it, ties to
    even, an infinity when [n] is out of range; [negative] is the sign of a
    zero. *)
Definition number_of_Z (negative : bool) (n : Z) : float :=
  SF2Prim (binary_normalize prec emax n 0 negative).

(** [parseInt(s, 10)]: leading white space, an optional sign, then the
    longest run of digits, read as a Number; NaN when there is no digit
    there. Past twenty significant digits the language lets an engine read
    the later digits as zeros; this function reads them as they are. *)
Definition parseInt (s : jsstring) : float :=
  let s1 := trimStart s in
  let '(negative, s2) :=
    match s1 with
    | 45%N :: s' => (true, s')
    | 43%N :: s' => (false, s')
    | _ => (false, s1)
    end in
  match s2 with
  | c :: _ =>
      if is_digit c
      then number_of_Z negative
             (if negative : bool then - digits_value 0 s2 else digits_value 0 s2)
      else nan
  | [] => nan
  end.

(** The [Config] object as [getConfig] builds it: its numbers come from
    [parseInt]. *)
Record LoadedConfig := {
  loaded_port : float;
  loaded_githubToken : option jsstring;
  loaded_embeddingModel : jsstring;
  loaded_storageDir : jsstring;
  loaded_debugMode : bool;
  loaded_minChunkSize : float;
  loaded_maxChunkSize : float;
  loaded_chunksReturned : float;
}.

(** [defaultConfig] *)
Definition loaded_defaults : LoadedConfig :=
  {| loaded_port := 3000%float;
     loaded_githubToken := None;
     loaded_embeddingModel := js "Xenova/all-MiniLM-L6-v2";
     loaded_storageDir := js ".dependency-context";
     loaded_debugMode := false;
     loaded_minChunkSize := 800%float;
     loaded_maxChunkSize := 8000%float;
     loaded_chunksReturned := 5%float |}.

Definition set_port (c : LoadedConfig) (v : float) : LoadedConfig :=
  {| loaded_port := v; loaded_githubToken := loaded_githubToken c;
     loaded_embeddingModel := loaded_embeddingModel c;
     loaded_storageDir := loaded_storageDir c; loaded_debugMode := loaded_debugMode c;
     loaded_minChunkSize := loaded_minChunkSize c;
     loaded_maxChunkSize := loaded_maxChunkSize c;
     loaded_chunksReturned := loaded_chunksReturned c |}.

Definition set_githubToken (c : LoadedConfig) (v : jsstring) : LoadedConfig :=
  {| loaded_port := loaded_port c; loaded_githubToken := Some v;
     loaded_embeddingModel := loaded_embeddingModel c;
     loaded_storageDir := loaded_storageDir c; loaded_debugMode := loaded_debugMode c;
     loaded_minChunkSize := loaded_minChunkSize c;
     loaded_maxChunkSize := loaded_maxChunkSize c;
     loaded_chunksReturned := loaded_chunksReturned c |}.

Definition set_embeddingModel (c : LoadedConfig) (v : jsstring) : LoadedConfig :=
  {| loaded_port := loaded_port c; loaded_githubToken := loaded_githubToken c;
     loaded_embeddingModel := v;
     loaded_storageDir := loaded_storageDir c; loaded_debugMode := loaded_debugMode c;
     loaded_minChunkSize := loaded_minChunkSize c;
     loaded_maxChunkSize := loaded_maxChunkSize c;
     loaded_chunksReturned := loaded_chunksReturned c |}.

Definition set_debugMode (c : LoadedConfig) : LoadedConfig :=
  {| loaded_port := loaded_port c; loaded_githubToken := loaded_githubToken c;
     loaded_embeddingModel := loaded_embeddingModel c;
     loaded_storageDir := loaded_storageDir c; loaded_debugMode := true;
     loaded_minChunkSize := loaded_minChunkSize c;
     loaded_maxChunkSize := loaded_maxChunkSize c;
     loaded_chunksReturned := loaded_chunksReturned c |}.

Definition set_minChunkSize (c : LoadedConfig) (v : float) : LoadedConfig :=
  {| loaded_port := loaded_port c; loaded_githubToken := loaded_githubToken c;
     loaded_embeddingModel := loaded_embeddingModel c;
     loaded_storageDir := loaded_storageDir c; loaded_debugMode := loaded_debugMode c;
     loaded_minChunkSize := v;
     loaded_maxChunkSize := loaded_maxChunkSize c;
     loaded_chunksReturned := loaded_chunksReturned c |}.

Definition set_maxChunkSize (c : LoadedConfig) (v : float) : LoadedConfig :=
  {| loaded_port := loaded_port c; loaded_githubToken := loaded_githubToken c;
     loaded_embeddingModel := loaded_embeddingModel c;
     loaded_storageDir := loaded_storageDir c; loaded_debugMode := loaded_debugMode c;
     loaded_minChunkSize := loaded_minChunkSize c;
     loaded_maxChunkSize := v;
     loaded_chunksReturned := loaded_chunksReturned c |}.

Definition set_chunksReturned (c : LoadedConfig) (v : float) : LoadedConfig :=
  {| loaded_port := loaded_port c; loaded_githubToken := loaded_githubToken c;
     loaded_embeddingModel := loaded_embeddingModel c;
     loaded_storageDir := loaded_storageDir c; loaded_debugMode := loaded_debugMode c;
     loaded_minChunkSize := loaded_minChunkSize c;
     loaded_maxChunkSize := loaded_maxChunkSize c;
     loaded_chunksReturned := v |}.

(** [if (vars.NAME) config = assign(config, vars.NAME)]: a variable counts
    when it is set to a non-empty string. *)
Definition when_set (vars : gmap (list N) (list N)) (name : string)
    (assign : LoadedConfig → jsstring → LoadedConfig) (config : LoadedConfig)
    : LoadedConfig :=
  match vars !! js name with
  | Some (c :: s) => assign config (c :: s)
  | _ => config
  end.

(** [if (vars.DEBUG === 'true') config.debugMode = true] *)
Definition when_debug (vars : gmap (list N) (list N)) (config : LoadedConfig)
    : LoadedConfig :=
  if bool_decide (vars !! js "DEBUG" = Some (js "true")) then set_debugMode config
  else config.

(** The assignments of [getConfig] from [process.env]. *)
Definition from_process_env (vars : gmap (list N) (list N)) (config : LoadedConfig)
    : LoadedConfig :=
  let config := when_set vars "PORT" (λ c v, set_port c (parseInt v)) config in
  let config := when_set vars "GITHUB_TOKEN" set_githubToken config in
  let config := when_set vars "MODEL_NAME" set_embeddingModel config in
  let config := when_debug vars config in
  let config := when_set vars "MIN_CHUNK_SIZE"
                  (λ c v, set_minChunkSize c (parseInt v)) config in
  let config := when_set vars "MAX_CHUNK_SIZE"
                  (λ c v, set_maxChunkSize c (parseInt v)) config in
  when_set vars "CHUNKS_RETURNED" (λ c v, set_chunksReturned c (parseInt v)) config.

(** The assignments of [tryLoadProjectEnv] from a parsed file. *)
Definition from_project_env (vars : gmap (list N) (list N)) (config : LoadedConfig)
    : LoadedConfig :=
  let config := when_set vars "GITHUB_TOKEN" set_githubToken config in
  let config := when_set vars "MODEL_NAME" set_embeddingModel config in
  let config := when_debug vars config in
  let config := when_set vars "MIN_CHUNK_SIZE"
                  (λ c v, set_minChunkSize c (parseInt v)) config in
  let config := when_set vars "MAX_CHUNK_SIZE"
                  (λ c v, set_maxChunkSize c (parseInt v)) config in
  when_set vars "CHUNKS_RETURNED" (λ c v, set_chunksReturned c (parseInt v)) config.

(** What [tryLoadProjectEnv] finds at a path: nothing ([existsSync] is
    false), a file that [readFileSync] or [dotenv.parse] rejects, or the
    variables of the file. *)
Inductive env_file :=
  | NoEnvFile
  | BadEnvFile
  | EnvFile (vars : gmap (list N) (list N)).

(** [for (const envPath of envPaths)]: the configuration, and the paths
    warned about. *)
Fixpoint load_first (env_file_at : jsstring → env_file) (envPaths : list jsstring)
    (config : LoadedConfig) : LoadedConfig * list jsstring :=
  match envPaths with
  | [] => (config, [])
  | envPath :: rest =>
      match env_file_at envPath with
      | NoEnvFile => load_first env_file_at rest config
      | BadEnvFile =>
          let '(config', warned) := load_first env_file_at rest config in
          (config', envPath :: warned)
      | EnvFile vars => (from_project_env vars config, [])
      end
  end.

(** [tryLoadProjectEnv(projectPath, config)] *)
Definition tryLoadProjectEnv (env_file_at : jsstring → env_file)
    (projectPath : jsstring) (config : LoadedConfig) : LoadedConfig * list jsstring :=
  load_first env_file_at
    [path_join projectPath (js ".env");
     path_join projectPath (js ".env.dependency-context")]
    config.

(** [getConfig(projectPath)], run with [process.env] holding [vars] *)
Definition getConfig_from (vars : gmap (list N) (list N))
    (env_file_at : jsstring → env_file) (projectPath : option jsstring)
    : LoadedConfig * list jsstring :=
  let config := from_process_env vars loaded_defaults in
  match projectPath with
  | Some (c :: p) => tryLoadProjectEnv env_file_at (c :: p) config
  | _ => (config, [])
  end.
(** * Vocabulary of the statements *)

(** [interleave l1 l2 l]: [l] is [l1] and [l2] shuffled together, each in
    its own order. *)
Inductive interleave {A : Type} : list A → list A → list A → Prop :=
  | interleave_nil : interleave [] [] []
  | interleave_left x l1 l2 l : interleave l1 l2 l → interleave (x :: l1) l2 (x :: l)
  | interleave_right x l1 l2 l : interleave l1 l2 l → interleave l1 (x :: l2) (x :: l).


Definition kept (st : chunker) : jsstring := nonws (concat (chunks st)).
Definition lost (st : chunker) : jsstring := nonws (concat (dropped st)).

(** The text the header pattern matched, section by section (empty after the
    last section). *)
Definition headerLines (document : Document) : list jsstring :=
  List.map snd (split_with_separators header_pattern (content document)).

Definition LF : jsstring := [10%N].

Definition doc_of (text : jsstring) : Document :=
  {| content := text; path := js "/README.md"; filename := js "README.md" |}.

(** The lines of a text, cut at the line feeds. *)
Fixpoint lines_of (s : jsstring) : list jsstring :=
  match s with
  | [] => [[]]
  | c :: s' =>
      if is_newline c then [] :: lines_of s'
      else match lines_of s' with
           | line :: rest => (c :: line) :: rest
           | [] => [[c]]
           end
  end.

(** A header line in the words of the specification: a line that begins
    with one to six [#], followed by a space and text. *)
Definition spec_header_line (line : jsstring) : bool :=
  let hashes := run_length is_hash line in
  (1 <=? hashes)%nat && (hashes <=? 6)%nat
  && match drop hashes line with
     | 32%N :: _ :: _ => true
     | _ => false
     end.


(** The invariant of both loops of the chunker: the text read so far,
    [seen], is split between the chunks and the discarded buffers; every
    chunk holds a character that is not white space; every discarded buffer
    is a non-empty buffer shorter than [minSize]. *)
Record chunker_inv (minSize : Z) (st : chunker) (seen : jsstring) : Prop := {
  inv_content : interleave (kept st) (lost st) seen;
  inv_chunks : Forall (λ c, nonws c ≠ []) (chunks st);
  inv_dropped : Forall (λ d, d ≠ [] ∧ len d < minSize) (dropped st);
}.

(** A paragraph buffer is empty or holds a character that is not white
    space. *)
Definition buffer_ok (currentChunk : jsstring) : Prop :=
  currentChunk = [] ∨ nonws currentChunk ≠ [].

(** The comparator orders the elements of [S] consistently: an element it
    puts after another is not also put before it, and "not after" is
    transitive. *)
Definition orders {A} (cmp : A → A → comparison) (S : list A) : Prop :=
  (∀ x y, x ∈ S → y ∈ S → cmp x y = Gt → cmp y x ≠ Gt)
  ∧ (∀ x y z, x ∈ S → y ∈ S → z ∈ S →
       cmp x y ≠ Gt → cmp y z ≠ Gt → cmp x z ≠ Gt).

(** ** binary64 values in order

    What the float specification ([SpecFloat]) says of a comparison is read
    through a key: the class of the value (negative infinity, negative,
    zero, positive, positive infinity), then its exponent and mantissa, in
    lexicographic order. *)

(** A finite or infinite value of sign [s]. *)
Definition signed (s : bool) (f : spec_float) : Prop :=
  match f with
  | S754_finite s' _ _ | S754_infinity s' => s' = s
  | _ => False
  end.


(** The integer whose sign decides [y - x] for finite operands. *)
Definition sub_numerator (sx : bool) mx ex (sy : bool) my ey : Z :=
  let ez := Z.min ey ex in
  cond_Zopp sy (Zpos (fst (shl_align my ey ez)))
  - cond_Zopp sx (Zpos (fst (shl_align mx ex ez))).



Definition key (f : spec_float) : Z * Z * Z :=
  match f with
  | S754_infinity true => (-2, 0, 0)
  | S754_finite true m e => (-1, - e, Zneg m)
  | S754_zero _ | S754_nan => (0, 0, 0)
  | S754_finite false m e => (1, e, Zpos m)
  | S754_infinity false => (2, 0, 0)
  end.

Definition lexcmp (k1 k2 : Z * Z * Z) : comparison :=
  let '(a1, b1, c1) := k1 in
  let '(a2, b2, c2) := k2 in
  match a1 ?= a2 with
  | Eq => match b1 ?= b2 with
          | Eq => c1 ?= c2
          | r => r
          end
  | r => r
  end.

Definition not_nan (f : spec_float) : Prop :=
  match f with S754_nan => False | _ => True end.


Definition lexlt (k1 k2 : Z * Z * Z) : Prop :=
  k1.1.1 < k2.1.1 ∨ (k1.1.1 = k2.1.1 ∧ (k1.1.2 < k2.1.2 ∨ (k1.1.2 = k2.1.2 ∧ k1.2 < k2.2))).


Definition fkey (x : float) : Z * Z * Z := key (Prim2SF x).


(** ** Ranked results *)

(** No score is NaN. *)
Definition numeric_scores (rs : list SearchResult) : Prop :=
  Forall (λ r, is_nan (similarity_score r) = false) rs.

(** Sorted non-increasing by [similarity_score]: no result scores above one
    that comes before it. *)
Definition non_increasing (rs : list SearchResult) : Prop :=
  StronglySorted
    (λ a b, (similarity_score b <=? similarity_score a)%float = true) rs.

(** The results whose score equals [s]. *)
Definition ties_with (s : float) (rs : list SearchResult) : list SearchResult :=
  List.filter (λ r, (similarity_score r =? s)%float) rs.

(** ** Vectors in exact arithmetic *)

(** The dot product of two real vectors. *)
Fixpoint dot (a b : list R) : R :=
  match a, b with
  | x :: a', y :: b' => (x * y + dot a' b')%R
  | _, _ => 0%R
  end.

(** The loop of [cosineSimilarity] over paired components. *)
Definition paired_step {num} `{Arith num} (acc : num * num * num) (xy : num * num)
    : num * num * num :=
  let '(dotProduct, normA, normB) := acc in
  (add dotProduct (mul xy.1 xy.2), add normA (mul xy.1 xy.1), add normB (mul xy.2 xy.2)).

(** A number JSON carries as it is: finite, and not the negative zero. *)
Definition json_exact (v : json_number) : Prop :=
  match v with
  | JNull => True
  | JNum x =>
      match classify x with
      | NaN | PInf | NInf | NZero => False
      | _ => True
      end
  end.

(** ** Concrete collaborators and worlds, for the examples *)

Definition join_slash (a b : jsstring) : jsstring := a ++ js "/" ++ b.
Definition mkdir_always (p : jsstring) : bool := true.
Definition write_always (p : jsstring) : write_result := WriteOk.

(** The defaults of [src/config.ts]. *)
Definition defaultConfig : Config :=
  {| port := 3000;
     githubToken := None;
     embeddingModel := js "Xenova/all-MiniLM-L6-v2";
     storageDir := js ".dependency-context";
     debugMode := false;
     minChunkSize := 800;
     maxChunkSize := 8000;
     chunksReturned := 5 |}.

Definition with_chunksReturned (c : Config) (n : Z) : Config :=
  {| port := port c;
     githubToken := githubToken c;
     embeddingModel := embeddingModel c;
     storageDir := storageDir c;
     debugMode := debugMode c;
     minChunkSize := minChunkSize c;
     maxChunkSize := maxChunkSize c;
     chunksReturned := n |}.

Definition config_of (c : Config) (projectPath : jsstring) : M Config := ret c.

(** A pipeline whose model embeds every text as [v]. *)
Definition constant_pipeline (v : list float) (modelName : jsstring) : option Model :=
  Some (λ _, Some v).

(** A pipeline that fails to load. *)
Definition broken_pipeline (modelName : jsstring) : option Model := None.

(** A pipeline whose model rejects the text [bad] and embeds any other text
    as [v]. *)
Definition picky_pipeline (bad : jsstring) (v : list float) (modelName : jsstring)
    : option Model :=
  Some (λ text, if bool_decide (text = bad) then None else Some v).

Definition test_project : jsstring := js "/test/project".
Definition test_store_path : jsstring :=
  js "/test/project/.dependency-context/vector-store.json".

Definition blank_world : World :=
  {| files := ∅; dirs := ∅; env := ∅; embeddingGeneratorCache := None; trace := [] |}.

Definition world_with (content : file_content) : World :=
  {| files := {[ test_store_path := content ]}; dirs := ∅; env := ∅;
     embeddingGeneratorCache := None; trace := [] |}.

Definition test_record (text file : string) (v : list float) : VectorStoreEntry :=
  {| chunk := js text;
     embedding := List.map JNum v;
     metadata := {| repository := js "https://github.com/test/repo";
                    file := js file;
                    dependency := js "test-package" |} |}.

Definition ten_records : VectorStore :=
  {| entries := repeat (test_record "Test chunk" "/file.md" [0.5; 0.25; 0.125]%float) 10 |}.

Definition test_params : SearchParams :=
  {| project_path := test_project;
     query := js "test query";
     repository_context := None;
     env_vars := None |}.

Definition test_dependency : Dependency :=
  {| dep_name := js "test-package"; dep_version := js "1.0.0" |}.

Definition test_repository : Repository :=
  {| repo_name := js "repo"; repo_owner := js "test";
     repo_url := js "https://github.com/test/repo"; repo_ref := js "main" |}.

Definition test_document (file text : string) : Document :=
  {| content := js text; path := js file; filename := js file |}.

(** A store whose second record has a zero embedding. *)
Definition mixed_records : VectorStore :=
  {| entries := [test_record "across" "/a.md" [0; 1]%float;
                 test_record "nothing" "/b.md" [0; 0]%float;
                 test_record "along" "/c.md" [1; 0]%float] |}.

(** A store of four records, two of them with one embedding. *)
Definition graded_records : VectorStore :=
  {| entries := [test_record "first" "/a.md" [1; 0]%float;
                 test_record "second" "/b.md" [0; 1]%float;
                 test_record "third" "/c.md" [1; 0]%float;
                 test_record "fourth" "/d.md" [1; 1]%float] |}.

Definition two_documents : list Document :=
  [test_document "/bad.md" "bad text"; test_document "/good.md" "good text"].

(** ** Collaborators of the analysis, for the examples *)

Definition quiet_log (level : log_level) (msg : analyze_log) (w : World) : World := w.
Definition silent_progress (p : progress) : M unit := ret ().
Definition one_dependency (projectPath : jsstring) : M (list Dependency) :=
  ret [test_dependency].
Definition found_repository (dep : Dependency) (config : Config) : M (option Repository) :=
  ret (Some test_repository).
Definition fetched_documents (repository : Repository) (config : Config)
    : M (list Document) :=
  ret two_documents.

Definition never_mkdir (p : jsstring) : bool := false.

(** A project without .env files, and one whose every .env file sets the
    model. *)
Definition no_env_file (p : jsstring) : env_file := NoEnvFile.
Definition model_env_file (p : jsstring) : env_file :=
  EnvFile {[ js "MODEL_NAME" := js "other-model" ]}.
Definition only_first_env_file (p : jsstring) : env_file :=
  if bool_decide (p = join_slash test_project (js ".env"))
  then EnvFile {[ js "MODEL_NAME" := js "other-model" ]}
  else BadEnvFile.

(** ** Vocabulary of the further properties *)

(** What is at the store's path can be loaded: a store, or nothing at all. *)
Definition store_loadable (w : World) (projectPath : jsstring) : Prop :=
  let p := vector_store_path projectPath in
  match files w !! p with
  | Some (StoreFile _) => True
  | Some Unreadable => False
  | None => (p ∉ dirs w) ∧ (p ≠ path_join projectPath storage_dir_name)
  end.

(** The chunks of the documents, each with its document, in order. *)
Definition all_chunks (documents : list Document) : list (Document * jsstring) :=
  flat_map (λ d, List.map (pair d) (splitIntoChunks d defaultMinSize defaultMaxSize))
    documents.

(** The value of an embedding that returned. *)
Definition value_of (r : outcome (list float)) : list float :=
  match r with
  | Returned v => v
  | Thrown _ => []
  end.

(** The records a run adds for [work] when every chunk embeds. *)
Definition indexed_entries (embed : jsstring → outcome (list float))
    (repository : Repository) (dependency : Dependency)
    (work : list (Document * jsstring)) : list VectorStoreEntry :=
  List.map (λ dc, new_entry repository dependency dc.1 dc.2 (value_of (embed dc.2))) work.

(** Every chunk of the work embeds. *)
Definition all_embed (embed : jsstring → outcome (list float))
    (work : list (Document * jsstring)) : Prop :=
  Forall (λ dc, ∃ v, embed dc.2 = Returned v) work.

(** A string that does not start with white space. *)
Definition starts_clean (s : jsstring) : Prop :=
  match s with
  | [] => True
  | c :: _ => is_white_space c = false
  end.

(** A string without white space at either end. *)
Definition trimmed (s : jsstring) : Prop := starts_clean s ∧ starts_clean (rev s).

(** The paragraphs of a section, as the chunker splits it. *)
Definition paragraphs_of (split : jsstring) : list jsstring :=
  js_split blank_pattern split.

(** A binary64 value that is a zero or NaN. *)
Definition zero_or_nan (f : spec_float) : Prop :=
  match f with
  | S754_zero _ | S754_nan => True
  | _ => False
  end.



(** The variables [getConfig] reads. *)
Definition config_variables : list string :=
  ["PORT"; "GITHUB_TOKEN"; "MODEL_NAME"; "DEBUG"; "MIN_CHUNK_SIZE"; "MAX_CHUNK_SIZE";
   "CHUNKS_RETURNED"]%string.

(** The integer a list of decimal digits writes. *)
Definition decimal_value (digits : jsstring) : Z :=
  fold_left (λ acc c, 10 * acc + (Z.of_N c - 48)) digits 0.
(** ** Facts about strings *)

Lemma nonws_app s t : nonws (s ++ t) = nonws s ++ nonws t.
Proof. apply List.filter_app. Qed.

Lemma nonws_rev s : nonws (rev s) = rev (nonws s).
Proof. apply List.filter_rev. Qed.

Lemma nonws_trimStart s : nonws (trimStart s) = nonws s.
Proof.
  induction s as [|c s IH]; simpl; [done|].
  destruct (is_white_space c) eqn:E; simpl; rewrite ?E; simpl; congruence.
Qed.

Lemma nonws_trim s : nonws (trim s) = nonws s.
Proof.
  unfold trim, trimEnd.
  by rewrite nonws_rev, nonws_trimStart, nonws_rev, rev_involutive, nonws_trimStart.
Qed.

Lemma trimStart_nil s : trimStart s = [] <-> nonws s = [].
Proof.
  induction s as [|c s IH]; simpl; [done|].
  destruct (is_white_space c) eqn:E; simpl; [done|]. split; discriminate.
Qed.

Lemma trim_nil s : trim s = [] <-> nonws s = [].
Proof.
  unfold trim, trimEnd. split.
  - intros H. apply (f_equal (@rev N)) in H. rewrite rev_involutive in H. simpl in H.
    apply trimStart_nil in H. rewrite nonws_rev, nonws_trimStart in H.
    apply (f_equal (@rev N)) in H. by rewrite rev_involutive in H.
  - intros H. replace (trimStart (rev (trimStart s))) with (@nil N); [done|].
    symmetry. apply trimStart_nil. by rewrite nonws_rev, nonws_trimStart, H.
Qed.

Lemma trim_length_0 s : (length (trim s) =? 0)%nat = true <-> nonws s = [].
Proof.
  rewrite Nat.eqb_eq, <- trim_nil. destruct (trim s); simpl; split; (done || lia).
Qed.

Lemma nonws_blank_line : nonws blank_line = [].
Proof. reflexivity. Qed.

Lemma interleave_length {A} (l1 l2 l : list A) :
  interleave l1 l2 l → length l = (length l1 + length l2)%nat.
Proof. induction 1; simpl; lia. Qed.

Lemma interleave_all_left {A} (l : list A) : interleave l [] l.
Proof. induction l; constructor; done. Qed.

Lemma interleave_all_right {A} (l : list A) : interleave [] l l.
Proof. induction l; constructor; done. Qed.

Lemma interleave_app {A} (a b c a' b' c' : list A) :
  interleave a b c → interleave a' b' c' → interleave (a ++ a') (b ++ b') (c ++ c').
Proof. induction 1; intros; simpl; try constructor; auto. Qed.

Lemma interleave_snoc_left {A} (a b c k : list A) :
  interleave a b c → interleave (a ++ k) b (c ++ k).
Proof.
  intros Hi. rewrite <- (app_nil_r b).
  apply interleave_app; [done | apply interleave_all_left].
Qed.

Lemma interleave_snoc_right {A} (a b c k : list A) :
  interleave a b c → interleave a (b ++ k) (c ++ k).
Proof.
  intros Hi. rewrite <- (app_nil_r a).
  apply interleave_app; [done | apply interleave_all_right].
Qed.

(** What [split] returns, separators put back, is the input. *)
Lemma split_scan_concat m skip prev piece s :
  concat (List.map (λ ps, ps.1 ++ ps.2) (split_scan m skip prev piece s))
  = rev piece ++ drop skip s.
Proof.
  revert skip prev piece.
  induction s as [|c s IH]; intros skip prev piece.
  - simpl. by rewrite drop_nil, !app_nil_r.
  - cbn [split_scan]. destruct skip as [|k].
    + destruct (m prev (c :: s)) as [[|n]|] eqn:Em.
      * destruct piece as [|p piece].
        -- rewrite IH. reflexivity.
        -- cbn [List.map concat fst snd]. rewrite IH, app_nil_r, !drop_0. simpl.
           by rewrite <- !app_assoc.
      * cbn [List.map concat fst snd]. rewrite IH, drop_0.
        rewrite <- (take_drop (S n) (c :: s)) at 2. simpl. by rewrite <- !app_assoc.
      * rewrite IH, !drop_0. simpl. by rewrite <- app_assoc.
    + rewrite IH. reflexivity.
Qed.

Lemma split_with_separators_concat m s :
  concat (List.map (λ ps, ps.1 ++ ps.2) (split_with_separators m s)) = s.
Proof.
  destruct s as [|c s].
  - simpl. by destruct (m None []).
  - unfold split_with_separators. by rewrite split_scan_concat, drop_0.
Qed.

(** Every separator is the text of a match of the pattern. *)
Lemma split_scan_separators (P : jsstring → Prop) m skip prev piece s :
  P [] →
  (∀ prev' s' n, m prev' s' = Some n → P (take n s')) →
  Forall (λ ps, P ps.2) (split_scan m skip prev piece s).
Proof.
  intros Hnil Hm. revert skip prev piece.
  induction s as [|c s IH]; intros skip prev piece; cbn [split_scan].
  - by constructor.
  - destruct skip as [|k]; [|apply IH].
    destruct (m prev (c :: s)) as [[|n]|] eqn:Em.
    + destruct piece; [apply IH|]. constructor; [done | apply IH].
    + constructor; [|apply IH]. simpl. apply (Hm _ _ _ Em).
    + apply IH.
Qed.

Lemma split_with_separators_matches (P : jsstring → Prop) m s :
  P [] →
  (∀ prev' s' n, m prev' s' = Some n → P (take n s')) →
  Forall (λ ps, P ps.2) (split_with_separators m s).
Proof.
  intros Hnil Hm. destruct s as [|c s].
  - simpl. destruct (m None []); by repeat constructor.
  - by apply split_scan_separators.
Qed.

Lemma take_run_length_newline s :
  nonws (take (run_length is_newline s) s) = [].
Proof.
  induction s as [|c s IH]; simpl; [done|].
  destruct (is_newline c) eqn:E; simpl; [|done].
  unfold is_newline in E. apply N.eqb_eq in E. subst c. simpl. exact IH.
Qed.

(** Splitting on blank lines loses white space only. *)
Lemma nonws_paragraphs s :
  nonws (concat (js_split blank_pattern s)) = nonws s.
Proof.
  unfold js_split.
  assert (Hsep : Forall (λ ps : list N * list N, nonws ps.2 = [])
                   (split_with_separators blank_pattern s)).
  { apply (split_with_separators_matches (λ sep, nonws sep = [])); [done|].
    intros prev' s' n. unfold blank_pattern.
    destruct (2 <=? run_length is_newline s')%nat; [|discriminate].
    intros [= <-]. apply take_run_length_newline. }
  rewrite <- (split_with_separators_concat blank_pattern s) at 2.
  induction Hsep as [|[p sep] l Hp _ IH]; simpl; [done|].
  simpl in Hp. rewrite !nonws_app, IH, Hp, app_nil_r. done.
Qed.

Section Chunker.
Variables minSize maxSize : Z.

Lemma chunker_inv_init : chunker_inv minSize {| chunks := []; dropped := [] |} [].
Proof. split; simpl; constructor. Qed.

Lemma kept_push st c : kept (push st c) = kept st ++ nonws c.
Proof. unfold kept, push; simpl. by rewrite concat_app, nonws_app; simpl; rewrite app_nil_r. Qed.

Lemma lost_discard st c : lost (discard st c) = lost st ++ nonws c.
Proof. unfold lost, discard; simpl. by rewrite concat_app, nonws_app; simpl; rewrite app_nil_r. Qed.

Lemma push_inv st seen s :
  chunker_inv minSize st seen → nonws s ≠ [] →
  chunker_inv minSize (push st (trim s)) (seen ++ nonws s).
Proof.
  intros [Hc Hk Hd] Hs. split.
  - rewrite kept_push, nonws_trim. by apply interleave_snoc_left.
  - simpl. apply Forall_app; split; [done|]. repeat constructor. by rewrite nonws_trim.
  - done.
Qed.

Lemma discard_inv st seen s :
  chunker_inv minSize st seen → s ≠ [] → len s < minSize →
  chunker_inv minSize (discard st s) (seen ++ nonws s).
Proof.
  intros [Hc Hk Hd] Hs Hlen. split.
  - rewrite lost_discard. by apply interleave_snoc_right.
  - done.
  - simpl. apply Forall_app; split; [done|]. by repeat constructor.
Qed.

Lemma set_last_inv st seen lastChunk s :
  chunker_inv minSize st seen → last (chunks st) = Some lastChunk →
  chunker_inv minSize (set_last st (lastChunk ++ blank_line ++ trim s)) (seen ++ nonws s).
Proof.
  intros [Hc Hk Hd] Hlast.
  assert (Hsplit : chunks st = removelast (chunks st) ++ [lastChunk]).
  { destruct (chunks st) as [|c cs] eqn:E using rev_ind; [done|].
    rewrite last_snoc in Hlast. injection Hlast as ->.
    by rewrite removelast_last. }
  split.
  - unfold kept, lost, set_last in *; cbn [chunks dropped] in *.
    rewrite Hsplit in Hc.
    rewrite concat_app, nonws_app in Hc |- *. cbn [concat] in Hc |- *.
    rewrite app_nil_r in Hc |- *.
    rewrite !nonws_app, nonws_blank_line, nonws_trim, app_nil_l.
    rewrite app_assoc. by apply interleave_snoc_left.
  - cbn [set_last chunks]. rewrite Hsplit in Hk. apply Forall_app in Hk as [Hk1 Hk2].
    apply Forall_app; split; [done|]. repeat constructor.
    rewrite nonws_app. inversion Hk2; subst. by destruct (nonws lastChunk).
  - done.
Qed.

Lemma flush_inv st seen currentChunk :
  chunker_inv minSize st seen → buffer_ok currentChunk →
  chunker_inv minSize (flush minSize st currentChunk) (seen ++ nonws currentChunk).
Proof.
  intros Hinv Hbuf. unfold flush.
  destruct currentChunk as [|c cur]; simpl truthy; cbv iota.
  - simpl. by rewrite app_nil_r.
  - destruct Hbuf as [|Hbuf]; [done|].
    destruct (minSize <=? len (c :: cur)) eqn:E.
    + by apply push_inv.
    + apply discard_inv; [done..|lia].
Qed.

Lemma paragraph_step_inv st seen currentChunk paragraph st' currentChunk' :
  chunker_inv minSize st seen → buffer_ok currentChunk →
  paragraph_step minSize maxSize (st, currentChunk) paragraph = (st', currentChunk') →
  buffer_ok currentChunk' ∧
  ∃ seen', chunker_inv minSize st' seen' ∧
           seen' ++ nonws currentChunk' = seen ++ nonws currentChunk ++ nonws paragraph.
Proof.
  intros Hinv Hbuf. unfold paragraph_step.
  destruct (length (trim paragraph) =? 0)%nat eqn:Eblank.
  - intros [= <- <-]. apply trim_length_0 in Eblank.
    split; [done|]. exists seen. by rewrite Eblank, app_nil_r.
  - assert (Hp : nonws paragraph ≠ []).
    { intros Hp. apply trim_length_0 in Hp. congruence. }
    destruct (len currentChunk + len paragraph <=? maxSize).
    + intros [= <- <-]. split.
      * right. rewrite !nonws_app. intros H.
        apply app_eq_nil in H as [_ H]. by apply app_eq_nil in H as [_ H].
      * exists seen. split; [done|]. rewrite !nonws_app.
        by destruct (truthy currentChunk).
    + intros [= <- <-]. split; [by right|].
      exists (seen ++ nonws currentChunk). split; [by apply flush_inv|].
      by rewrite app_assoc.
Qed.

Lemma paragraphs_inv paragraphs st seen currentChunk st' currentChunk' :
  chunker_inv minSize st seen → buffer_ok currentChunk →
  fold_left (paragraph_step minSize maxSize) paragraphs (st, currentChunk)
    = (st', currentChunk') →
  buffer_ok currentChunk' ∧
  ∃ seen', chunker_inv minSize st' seen' ∧
           seen' ++ nonws currentChunk'
           = seen ++ nonws currentChunk ++ nonws (concat paragraphs).
Proof.
  revert st seen currentChunk.
  induction paragraphs as [|p ps IH]; intros st seen cur Hinv Hbuf;
    cbn [fold_left concat].
  - intros [= <- <-]. split; [done|]. exists seen. by rewrite app_nil_r.
  - destruct (paragraph_step minSize maxSize (st, cur) p) as [st1 cur1] eqn:E1.
    intros Hfold.
    destruct (paragraph_step_inv _ _ _ _ _ _ Hinv Hbuf E1) as (Hbuf1 & seen1 & Hinv1 & Hseen1).
    destruct (IH _ _ _ Hinv1 Hbuf1 Hfold) as (Hbuf' & seen' & Hinv' & Hseen').
    split; [done|]. exists seen'. split; [done|].
    rewrite Hseen', nonws_app, !app_assoc. f_equal. rewrite <- !app_assoc. exact Hseen1.
Qed.

Lemma split_step_inv st seen split :
  chunker_inv minSize st seen →
  chunker_inv minSize (split_step minSize maxSize st split) (seen ++ nonws split).
Proof.
  intros Hinv. unfold split_step.
  destruct (length (trim split) =? 0)%nat eqn:Eblank.
  { apply trim_length_0 in Eblank. by rewrite Eblank, app_nil_r. }
  assert (Hs : nonws split ≠ []).
  { intros Hs. apply trim_length_0 in Hs. congruence. }
  destruct (len split <=? maxSize).
  - destruct (minSize <=? len split); [by apply push_inv|].
    destruct (last (chunks st)) as [lastChunk|] eqn:Elast; [|by apply push_inv].
    destruct (truthy lastChunk && (len lastChunk + len split <=? maxSize));
      [by eapply set_last_inv | by apply push_inv].
  - destruct (fold_left _ _ _) as [st' cur'] eqn:Efold.
    destruct (paragraphs_inv _ _ _ _ _ _ Hinv (or_introl eq_refl) Efold)
      as (Hbuf' & seen' & Hinv' & Hseen').
    simpl in Hseen'. rewrite nonws_paragraphs in Hseen'. rewrite <- Hseen'.
    by apply flush_inv.
Qed.

Lemma splits_inv splits st seen :
  chunker_inv minSize st seen →
  chunker_inv minSize (fold_left (split_step minSize maxSize) splits st)
    (seen ++ nonws (concat splits)).
Proof.
  revert st seen. induction splits as [|s ss IH]; intros st seen Hinv; simpl.
  - by rewrite app_nil_r.
  - rewrite nonws_app, app_assoc. apply IH. by apply split_step_inv.
Qed.

(** A section that fits in [maxSize] never adds to the discarded buffers. *)
Lemma split_step_no_drop st split :
  len split <= maxSize →
  dropped (split_step minSize maxSize st split) = dropped st.
Proof.
  intros Hfit. unfold split_step.
  destruct (length (trim split) =? 0)%nat; [done|].
  destruct (len split <=? maxSize) eqn:E; [|lia].
  destruct (minSize <=? len split); [done|].
  destruct (last (chunks st)); [|done].
  by destruct (truthy l && (len l + len split <=? maxSize)).
Qed.

Lemma splits_no_drop splits st :
  Forall (λ s, len s <= maxSize) splits →
  dropped (fold_left (split_step minSize maxSize) splits st) = dropped st.
Proof.
  intros Hfit. revert st. induction Hfit as [|s ss Hs _ IH]; intros st; simpl; [done|].
  by rewrite IH, split_step_no_drop.
Qed.
End Chunker.
Lemma zip_fst_snd (l : list (jsstring * jsstring)) :
  zip_with app (List.map fst l) (List.map snd l) = List.map (λ ps, ps.1 ++ ps.2) l.
Proof. induction l as [|[a b] l IH]; simpl; [done|]. by rewrite IH. Qed.

(** What the chunker keeps of the sections it is given. Whatever the
    bounds, every chunk [splitIntoChunks] returns is non-empty, and the
    characters that are not white space of the document's sections - the
    text between the matches of the header pattern, which the split
    discards - are, in order, exactly those of the chunks shuffled with those
    of the discarded buffers. A discarded buffer is a non-empty paragraph
    buffer shorter than [minSize]; none is discarded when every section fits
    in [maxSize]. The document itself is its sections with the matches of
    the header pattern put back. *)
Theorem splitIntoChunks_content (document : Document) (minSize maxSize : Z) :
  Forall (λ c, (0 < length c)%nat) (splitIntoChunks document minSize maxSize)
  ∧ interleave (nonws (concat (splitIntoChunks document minSize maxSize)))
               (nonws (concat (droppedBuffers document minSize maxSize)))
               (nonws (concat (headerSplits document)))
  ∧ Forall (λ d, d ≠ [] ∧ len d < minSize) (droppedBuffers document minSize maxSize)
  ∧ (Forall (λ s, len s <= maxSize) (headerSplits document) →
     droppedBuffers document minSize maxSize = [])
  ∧ content document
    = concat (zip_with app (headerSplits document) (headerLines document)).
Proof.
  unfold splitIntoChunks, droppedBuffers, chunk_document.
  pose proof (splits_inv minSize maxSize (headerSplits document) _ _
                (chunker_inv_init minSize)) as [Hc Hk Hd].
  simpl in Hc. repeat split.
  - eapply Forall_impl; [exact Hk|]. intros c Hne. simpl in Hne.
    destruct c; simpl; [done | lia].
  - exact Hc.
  - exact Hd.
  - intros Hfit. by rewrite (splits_no_drop minSize maxSize _ _ Hfit).
  - unfold headerSplits, headerLines, js_split.
    by rewrite zip_fst_snd, split_with_separators_concat.
Qed.

(** A header line is in no chunk: the characters of the header are in the
    document and in no chunk, and nothing was discarded by the paragraph
    loop. *)
Lemma splitIntoChunks_loses_header :
  let d := doc_of (js "# Title" ++ LF ++ js "body") in
  splitIntoChunks d 800 8000 = [js "body"]
  ∧ droppedBuffers d 800 8000 = []
  ∧ nonws (content d) = js "#Titlebody"
  ∧ ¬ interleave (nonws (concat (splitIntoChunks d 800 8000)))
                 (nonws (concat (droppedBuffers d 800 8000)))
                 (nonws (content d)).
Proof.
  cbv zeta. split; [|split; [|split]]; try (vm_compute; reflexivity).
  intros Hi. apply interleave_length in Hi. vm_compute in Hi. discriminate.
Qed.

(** C4, where the code departs from the claim: a line of the body is lost
    to the header pattern. The document is '# ', 'body' and 'more' on three
    lines. None of them is a header line in the words of the
    specification: the first has a [#] and a space but no text, the others
    have no [#]. In the pattern [/^#{1,6}\s+.+$/m] the [\s+] runs over the
    line end after '# ' and the [.+] takes the next line, so the split
    discards '# ' and 'body' together as one header. [splitIntoChunks]
    returns the one chunk 'more': the word 'body' is in no chunk, though
    the paragraph loop discarded nothing. *)
Theorem splitIntoChunks_swallows_body_line :
  let d := doc_of (js "# " ++ LF ++ js "body" ++ LF ++ js "more") in
  lines_of (content d) = [js "# "; js "body"; js "more"]
  ∧ List.map spec_header_line (lines_of (content d)) = [false; false; false]
  ∧ headerLines d = [js "# " ++ LF ++ js "body"; []]
  ∧ headerSplits d = [[]; LF ++ js "more"]
  ∧ splitIntoChunks d defaultMinSize defaultMaxSize = [js "more"]
  ∧ droppedBuffers d defaultMinSize defaultMaxSize = []
  ∧ ¬ interleave (nonws (concat (splitIntoChunks d defaultMinSize defaultMaxSize)))
                 (nonws (concat (droppedBuffers d defaultMinSize defaultMaxSize)))
                 (nonws (js "body" ++ js "more")).
Proof.
  cbv zeta. repeat (split; [vm_compute; reflexivity|]).
  intros Hi. apply interleave_length in Hi. vm_compute in Hi. discriminate.
Qed.

(** C6: a merge that leaves a chunk longer than [maxSize]. The first section
    is 7990 characters and a line end, the last one a line end and nine
    characters, under the default bounds: the guard adds 7990 and 10, and the
    merged chunk has 8001 characters. *)
Lemma splitIntoChunks_merge_overflow :
  let a := repeat 97%N (Z.to_nat 7990) in
  let b := repeat 98%N 9 in
  let d := doc_of (a ++ LF ++ js "# h" ++ LF ++ b) in
  headerSplits d = [a ++ LF; LF ++ b]
  ∧ splitIntoChunks d defaultMinSize defaultMaxSize = [a ++ blank_line ++ b]
  ∧ len (a ++ blank_line ++ b) = 8001.
Proof. cbv zeta. split; [|split]; vm_compute; reflexivity. Qed.

(** The same on a small scale: bounds 5 and 11. *)
Example splitIntoChunks_merge_overflow_small :
  splitIntoChunks (doc_of (js "aaaaaaa" ++ LF ++ js "# h" ++ LF ++ js "bbb")) 5 11
  = [js "aaaaaaa" ++ blank_line ++ js "bbb"].
Proof. vm_compute. reflexivity. Qed.


(** ** Sorting *)

Section SortFacts.
Context {A : Type} (cmp : A → A → comparison).

Lemma insert_sorted_perm x l : insert_sorted cmp x l ≡ₚ x :: l.
Proof.
  induction l as [|y l IH]; simpl; [done|].
  destruct (cmp x y); try done. rewrite IH. apply Permutation_swap.
Qed.

Lemma js_sort_perm l : js_sort cmp l ≡ₚ l.
Proof.
  induction l as [|x l IH]; simpl; [done|].
  by rewrite insert_sorted_perm, IH.
Qed.

Lemma js_sort_elem x l : x ∈ js_sort cmp l ↔ x ∈ l.
Proof. by rewrite js_sort_perm. Qed.

Lemma js_sort_length l : length (js_sort cmp l) = length l.
Proof. by rewrite js_sort_perm. Qed.

Lemma insert_sorted_sorted S x l :
  orders cmp S → x ∈ S → (∀ y, y ∈ l → y ∈ S) →
  StronglySorted (λ a b, cmp a b ≠ Gt) l →
  StronglySorted (λ a b, cmp a b ≠ Gt) (insert_sorted cmp x l).
Proof.
  intros [Hasym Htrans] Hx Hl Hs.
  induction Hs as [|y l Hs IH Hy]; simpl; [by repeat constructor|].
  assert (HyS : y ∈ S) by (apply Hl; left).
  assert (HlS : ∀ z, z ∈ l → z ∈ S) by (intros z Hz; apply Hl; by right).
  rewrite Forall_forall in Hy.
  assert (Hle : cmp x y ≠ Gt → StronglySorted (λ a b, cmp a b ≠ Gt) (x :: y :: l)).
  { intros Hxy. constructor; [by constructor; [|apply Forall_forall]|].
    constructor; [done|]. apply Forall_forall. intros z Hz.
    apply (Htrans x y z); auto. }
  destruct (cmp x y) eqn:E; [apply Hle; congruence..|].
  constructor; [by apply IH|]. apply Forall_forall. intros z Hz.
  rewrite insert_sorted_perm in Hz. apply elem_of_cons in Hz as [->|Hz]; auto.
Qed.

(** With a comparator that orders the elements, the result is sorted. *)
Lemma js_sort_sorted l :
  orders cmp l → StronglySorted (λ a b, cmp a b ≠ Gt) (js_sort cmp l).
Proof.
  intros Hord.
  assert (H : ∀ l', (∀ y, y ∈ l' → y ∈ l) →
                    StronglySorted (λ a b, cmp a b ≠ Gt) (js_sort cmp l')).
  { induction l' as [|x l' IH]; intros Hsub; simpl; [constructor|].
    apply (insert_sorted_sorted l); [done | apply Hsub; left | |].
    - intros y Hy. apply Hsub. right. by rewrite js_sort_elem in Hy.
    - apply IH. intros y Hy. apply Hsub. by right. }
  by apply H.
Qed.

(** The sort is stable: a class [P] of elements none of which the comparator
    puts after another keeps its order. *)
Lemma insert_sorted_filter (P : A → bool) x l :
  (∀ y, y ∈ l → P x = true → P y = true → cmp x y ≠ Gt) →
  List.filter P (insert_sorted cmp x l) = List.filter P (x :: l).
Proof.
  induction l as [|y l IH]; intros Htie; [done|].
  cbn [insert_sorted]. destruct (cmp x y) eqn:E; try done.
  cbn [List.filter]. rewrite IH by (intros z Hz; apply Htie; by right).
  cbn [List.filter]. destruct (P x) eqn:Ex, (P y) eqn:Ey; try done.
  exfalso. by apply (Htie y); [left|..].
Qed.

Lemma js_sort_stable (P : A → bool) l :
  (∀ x y, x ∈ l → y ∈ l → P x = true → P y = true → cmp x y ≠ Gt) →
  List.filter P (js_sort cmp l) = List.filter P l.
Proof.
  induction l as [|x l IH]; intros Htie; [done|].
  cbn [js_sort fold_right]. fold (js_sort cmp l).
  rewrite insert_sorted_filter.
  - cbn [List.filter]. rewrite IH; [done|].
    intros a b Ha Hb. apply Htie; by right.
  - intros y Hy. rewrite js_sort_elem in Hy. apply Htie; [left | by right].
Qed.
End SortFacts.

Lemma filter_take_prefix {A} (P : A → bool) n (l : list A) :
  List.filter P (take n l) `prefix_of` List.filter P l.
Proof.
  rewrite <- (take_drop n l) at 2. rewrite List.filter_app. by eexists.
Qed.

Lemma StronglySorted_take {A} (R : A → A → Prop) n (l : list A) :
  StronglySorted R l → StronglySorted R (take n l).
Proof.
  intros Hs. revert n. induction Hs as [|x l Hs IH Hx]; intros [|n]; simpl;
    try constructor; auto.
  rewrite Forall_forall in Hx |- *. intros y Hy. apply Hx.
  pose proof (sublist_subseteq _ _ (sublist_take l n)) as Hsub. by apply Hsub.
Qed.

(** ** binary64: the sign of a difference *)

Section Binary64.
Let emin := SpecFloat.emin prec emax.

Lemma digits2_pos_bounds m :
  2 ^ (Zpos (digits2_pos m) - 1) <= Zpos m < 2 ^ Zpos (digits2_pos m).
Proof.
  induction m as [m IH|m IH|]; cbn [digits2_pos].
  - rewrite Pos2Z.inj_succ, Z.pow_succ_r by lia.
    replace (Z.succ (Zpos (digits2_pos m)) - 1) with (Z.succ (Zpos (digits2_pos m) - 1)) by lia.
    rewrite Z.pow_succ_r by lia. lia.
  - rewrite Pos2Z.inj_succ, Z.pow_succ_r by lia.
    replace (Z.succ (Zpos (digits2_pos m)) - 1) with (Z.succ (Zpos (digits2_pos m) - 1)) by lia.
    rewrite Z.pow_succ_r by lia. lia.
  - simpl. lia.
Qed.

Lemma iter_pos_nat {A} (f : A -> A) p x :
  SpecFloat.iter_pos f p x = Nat.iter (Pos.to_nat p) f x.
Proof.
  revert x. induction p as [p IH|p IH|]; intros x; cbn [SpecFloat.iter_pos].
  - rewrite !IH, Pos2Nat.inj_xI. cbn [Nat.mul].
    rewrite Nat.add_0_r, Nat.iter_succ_r, Nat.iter_add. reflexivity.
  - rewrite !IH, Pos2Nat.inj_xO. cbn [Nat.mul].
    rewrite Nat.add_0_r, Nat.iter_add. reflexivity.
  - reflexivity.
Qed.

Lemma shr_1_m mrs : 0 <= shr_m mrs -> shr_m (shr_1 mrs) = shr_m mrs / 2.
Proof.
  destruct mrs as [m r s]; cbn [shr_m shr_1]. intros Hm.
  destruct m as [|[p|p|]|p]; cbn [shr_m]; try lia.
  - reflexivity.
  - apply Z.div_unique with 1; lia.
  - apply Z.div_unique with 0; lia.
  - reflexivity.
Qed.

Lemma shr_iter_m n mrs :
  0 <= shr_m mrs -> shr_m (Nat.iter n shr_1 mrs) = shr_m mrs / 2 ^ Z.of_nat n.
Proof.
  intros Hm. induction n as [|n IH].
  - simpl. symmetry. apply Z.div_1_r.
  - rewrite Nat.iter_succ, shr_1_m, IH.
    + rewrite Z.div_div by lia. rewrite Nat2Z.inj_succ, Z.pow_succ_r by lia.
      f_equal. lia.
    + rewrite IH. apply Z.div_pos; lia.
Qed.

Lemma shr_positive mrs e n d :
  2 ^ (d - 1) <= shr_m mrs -> 1 <= d -> n <= d - 1 -> 0 < shr_m (fst (shr mrs e n)).
Proof.
  intros Hm Hd Hn.
  assert (0 < 2 ^ (d - 1)) by (apply Z.pow_pos_nonneg; lia).
  unfold shr. destruct n as [|p|p]; cbn [fst]; try lia.
  rewrite iter_pos_nat, shr_iter_m by lia.
  rewrite positive_nat_Z. apply Z.div_str_pos. split.
  - apply Z.pow_pos_nonneg; lia.
  - etransitivity; [|exact Hm]. apply Z.pow_le_mono_r; lia.
Qed.

Lemma shr_record_of_loc_m m l : shr_m (shr_record_of_loc m l) = m.
Proof. destruct l as [|[]]; reflexivity. Qed.

Lemma shr_fexp_positive m e l :
  0 < m -> emin <= e ->
  0 < shr_m (fst (shr_fexp prec emax m e l)) /\ emin <= snd (shr_fexp prec emax m e l).
Proof.
  intros Hm He. destruct m as [|p|p]; try lia.
  unfold shr_fexp. cbn [Zdigits2].
  pose proof (digits2_pos_bounds p) as [Hlo _].
  set (d := Zpos (digits2_pos p)) in *.
  assert (Hn : fexp prec emax (d + e) - e <= d - 1).
  { unfold fexp. fold emin. unfold prec. lia. }
  split.
  - apply shr_positive with d; rewrite ?shr_record_of_loc_m; lia.
  - unfold shr. assert (emin <= fexp prec emax (d + e)) by (unfold fexp; fold emin; lia).
    destruct (fexp prec emax (d + e) - e) eqn:E; cbn [snd]; lia.
Qed.

Lemma round_nearest_even_ge m l : m <= round_nearest_even m l.
Proof. destruct l as [|[]]; simpl; try destruct (Z.even m); lia. Qed.

Lemma binary_round_aux_signed sx m e l :
  0 < m -> emin <= e -> signed sx (binary_round_aux prec emax sx m e l).
Proof.
  intros Hm He. unfold binary_round_aux.
  pose proof (shr_fexp_positive m e l Hm He) as [H1 H1e].
  destruct (shr_fexp prec emax m e l) as [mrs' e']. cbn [fst snd] in *.
  pose proof (round_nearest_even_ge (shr_m mrs') (loc_of_shr_record mrs')) as Hr.
  set (m1 := round_nearest_even (shr_m mrs') (loc_of_shr_record mrs')) in *.
  assert (Hm1 : 0 < m1) by lia.
  pose proof (shr_fexp_positive m1 e' loc_Exact Hm1 H1e) as [H2 _].
  destruct (shr_fexp prec emax m1 e' loc_Exact) as [mrs'' e'']. cbn [fst snd] in *.
  destruct (shr_m mrs''); try lia.
  destruct (e'' <=? emax - prec); reflexivity.
Qed.

Lemma binary_round_signed sx mx ex :
  emin <= ex -> signed sx (binary_round prec emax sx mx ex).
Proof.
  intros He. unfold binary_round.
  destruct (shl_align mx ex (fexp prec emax (Zpos (digits2_pos mx) + ex))) as [mz ez] eqn:E.
  apply binary_round_aux_signed; [lia|].
  unfold shl_align in E.
  assert (emin <= fexp prec emax (Zpos (digits2_pos mx) + ex)) by (unfold fexp; fold emin; lia).
  destruct (fexp prec emax (Zpos (digits2_pos mx) + ex) - ex);
    injection E as <- <-; first [exact He | exact H].
Qed.

Lemma shl_align_value m e ez :
  ez <= e -> Zpos (fst (shl_align m e ez)) = Zpos m * 2 ^ (e - ez).
Proof.
  intros Hle. unfold shl_align.
  destruct (ez - e) as [|d|d] eqn:E; cbn [fst]; try lia.
  - replace (e - ez) with 0 by lia. lia.
  - replace (e - ez) with (Zpos d) by lia. clear E Hle.
    induction d as [|d IH] using Pos.peano_ind.
    + simpl. lia.
    + rewrite Pos.iter_succ, Pos2Z.inj_xO, IH, Pos2Z.inj_succ, Z.pow_succ_r by lia. lia.
Qed.

Lemma bounded_canonical m e :
  SpecFloat.bounded prec emax m e = true ->
  emin <= e /\ Zpos (digits2_pos m) <= prec /\ (emin < e -> Zpos (digits2_pos m) = prec).
Proof.
  unfold SpecFloat.bounded, canonical_mantissa, fexp. fold emin.
  intros H. apply andb_prop in H as [H _]. apply Z.eqb_eq in H. lia.
Qed.

Lemma sub_numerator_sign sx mx ex sy my ey :
  SpecFloat.bounded prec emax mx ex = true -> SpecFloat.bounded prec emax my ey = true ->
  SFcompare (S754_finite sx mx ex) (S754_finite sy my ey)
  = Some (0 ?= sub_numerator sx mx ex sy my ey).
Proof.
  intros Hx Hy.
  apply bounded_canonical in Hx as (Hex & Hdx & Hcx).
  apply bounded_canonical in Hy as (Hey & Hdy & Hcy).
  pose proof (digits2_pos_bounds mx) as [Hxlo Hxhi].
  pose proof (digits2_pos_bounds my) as [Hylo Hyhi].
  unfold sub_numerator. cbv zeta.
  rewrite !shl_align_value by lia.
  assert (Hpx : 0 < 2 ^ (ex - Z.min ey ex)) by (apply Z.pow_pos_nonneg; lia).
  assert (Hpy : 0 < 2 ^ (ey - Z.min ey ex)) by (apply Z.pow_pos_nonneg; lia).
  assert (Hprec : 2 ^ Zpos (digits2_pos mx) <= 2 ^ prec) by (apply Z.pow_le_mono_r; lia).
  assert (Hprec' : 2 ^ Zpos (digits2_pos my) <= 2 ^ prec) by (apply Z.pow_le_mono_r; lia).
  assert (Hlt : ex < ey -> Zpos mx * 2 ^ (ex - Z.min ey ex) < Zpos my * 2 ^ (ey - Z.min ey ex)).
  { intros Hlt. rewrite Z.min_r by lia. rewrite Z.sub_diag, Z.pow_0_r, Z.mul_1_r.
    rewrite Hcy in Hylo by lia.
    assert (2 <= 2 ^ (ey - ex)) by (change 2 with (2 ^ 1) at 1; apply Z.pow_le_mono_r; lia).
    assert (2 ^ prec = 2 * 2 ^ (prec - 1)) by reflexivity. nia. }
  assert (Hgt : ey < ex -> Zpos my * 2 ^ (ey - Z.min ey ex) < Zpos mx * 2 ^ (ex - Z.min ey ex)).
  { intros Hgt. rewrite Z.min_l by lia. rewrite Z.sub_diag, Z.pow_0_r, Z.mul_1_r.
    rewrite Hcx in Hxlo by lia.
    assert (2 <= 2 ^ (ex - ey)) by (change 2 with (2 ^ 1) at 1; apply Z.pow_le_mono_r; lia).
    assert (2 ^ prec = 2 * 2 ^ (prec - 1)) by reflexivity. nia. }
  assert (Heq : ex = ey -> Zpos my * 2 ^ (ey - Z.min ey ex) = Zpos my
                           /\ Zpos mx * 2 ^ (ex - Z.min ey ex) = Zpos mx).
  { intros ->. rewrite Z.min_id, Z.sub_diag, Z.pow_0_r. lia. }
  cbn [SFcompare]. f_equal.
  destruct sx, sy; cbn [cond_Zopp].
  - destruct (Z.compare_spec ex ey) as [He|He|He].
    + destruct (Heq He) as [-> ->].
      change (Pos.compare_cont Eq mx my) with (Pos.compare mx my).
      destruct (Pos.compare_spec mx my); symmetry; cbn [CompOpp];
        [apply Z.compare_eq_iff | apply Z.compare_gt_iff | apply Z.compare_lt_iff]; lia.
    + symmetry. apply Z.compare_gt_iff. specialize (Hlt He). lia.
    + symmetry. apply Z.compare_lt_iff. specialize (Hgt He). lia.
  - symmetry. apply Z.compare_lt_iff. nia.
  - symmetry. apply Z.compare_gt_iff. nia.
  - destruct (Z.compare_spec ex ey) as [He|He|He].
    + destruct (Heq He) as [-> ->].
      change (Pos.compare_cont Eq mx my) with (Pos.compare mx my).
      destruct (Pos.compare_spec mx my); symmetry;
        [apply Z.compare_eq_iff | apply Z.compare_lt_iff | apply Z.compare_gt_iff]; lia.
    + symmetry. apply Z.compare_lt_iff. specialize (Hlt He). lia.
    + symmetry. apply Z.compare_gt_iff. specialize (Hgt He). lia.
Qed.

Lemma binary_normalize_signed M e :
  emin <= e ->
  match M with
  | 0 => binary_normalize prec emax M e false = S754_zero false
  | Zpos _ => signed false (binary_normalize prec emax M e false)
  | Zneg _ => signed true (binary_normalize prec emax M e false)
  end.
Proof.
  intros He. destruct M; cbn [binary_normalize]; [reflexivity|..];
    by apply binary_round_signed.
Qed.

Lemma SFcompare_key X Y :
  not_nan X -> not_nan Y -> SFcompare X Y = Some (lexcmp (key X) (key Y)).
Proof.
  destruct X as [sx|sx| |sx mx ex], Y as [sy|sy| |sy my ey]; try contradiction;
    intros _ _; try destruct sx; try destruct sy; try reflexivity.
  cbn [SFcompare key lexcmp]. f_equal.
  change (-1 ?= -1) with Eq. cbv iota. rewrite Z.compare_opp.
  rewrite (Z.compare_antisym ey ex).
  destruct (ey ?= ex); reflexivity.
Qed.

Lemma key_signed s D :
  signed s D -> lexcmp (0, 0, 0) (key D) = if s then Gt else Lt.
Proof. destruct D as [| [] | | [] ? ?]; simpl; intros H; subst; try contradiction; reflexivity. Qed.

(** The sign of [y - x] is what comparing [x] with [y] says. *)
Lemma SFsub_sign X Y :
  valid_binary X = true -> valid_binary Y = true ->
  not_nan X -> not_nan Y ->
  match SFcompare X Y with
  | Some Lt => lexcmp (0, 0, 0) (key (SFsub prec emax Y X)) = Lt
               /\ not_nan (SFsub prec emax Y X)
  | Some Gt => lexcmp (0, 0, 0) (key (SFsub prec emax Y X)) = Gt
               /\ not_nan (SFsub prec emax Y X)
  | _ => lexcmp (0, 0, 0) (key (SFsub prec emax Y X)) = Eq
  end.
Proof.
  intros HX HY NX NY.
  destruct X as [sx|sx| |sx mx ex], Y as [sy|sy| |sy my ey]; try contradiction;
    try (destruct sx; try destruct sy; cbn; auto; fail);
    try (destruct sy; try destruct sx; cbn; auto; fail).
  rewrite (sub_numerator_sign _ _ _ _ _ _ HX HY).
  apply bounded_canonical in HX as (Hex & _). apply bounded_canonical in HY as (Hey & _).
  cbn [SFsub]. fold (sub_numerator sx mx ex sy my ey).
  pose proof (binary_normalize_signed (sub_numerator sx mx ex sy my ey) (Z.min ey ex)
                ltac:(lia)) as Hs.
  destruct (sub_numerator sx mx ex sy my ey); cbn [Z.compare].
  - rewrite Hs. reflexivity.
  - split; [by apply (key_signed false)|].
    destruct (binary_normalize _ _ _ _ _); simpl in *; auto.
  - split; [by apply (key_signed true)|].
    destruct (binary_normalize _ _ _ _ _); simpl in *; auto.
Qed.
End Binary64.


Lemma lexcmp_spec k1 k2 :
  match lexcmp k1 k2 with
  | Lt => lexlt k1 k2
  | Eq => k1 = k2
  | Gt => lexlt k2 k1
  end.
Proof.
  destruct k1 as [[a1 b1] c1], k2 as [[a2 b2] c2]. unfold lexcmp, lexlt. simpl.
  destruct (Z.compare_spec a1 a2); [|lia..].
  destruct (Z.compare_spec b1 b2); [|lia..].
  destruct (Z.compare_spec c1 c2); [|lia..]. by subst.
Qed.

Lemma lexcmp_refl k : lexcmp k k = Eq.
Proof.
  destruct k as [[a b] c]. unfold lexcmp. by rewrite !Z.compare_refl.
Qed.

Lemma lexcmp_antisym k1 k2 : lexcmp k2 k1 = CompOpp (lexcmp k1 k2).
Proof.
  pose proof (lexcmp_spec k1 k2) as H12. pose proof (lexcmp_spec k2 k1) as H21.
  destruct (lexcmp k1 k2), (lexcmp k2 k1); simpl; try done; subst;
    try destruct k1 as [[a1 b1] c1]; try destruct k2 as [[a2 b2] c2];
    unfold lexlt in *; simpl in *; lia.
Qed.

Lemma lexcmp_not_gt_trans k1 k2 k3 :
  lexcmp k1 k2 ≠ Gt → lexcmp k2 k3 ≠ Gt → lexcmp k1 k3 ≠ Gt.
Proof.
  pose proof (lexcmp_spec k1 k2) as H12. pose proof (lexcmp_spec k2 k3) as H23.
  pose proof (lexcmp_spec k1 k3) as H13.
  intros N12 N23 E13. rewrite E13 in H13.
  destruct (lexcmp k1 k2), (lexcmp k2 k3); try done; subst;
    try destruct k1 as [[a1 b1] c1]; try destruct k2 as [[a2 b2] c2];
    try destruct k3 as [[a3 b3] c3];
    unfold lexlt in *; simpl in *; lia.
Qed.

(** *** binary64 comparisons *)

Lemma Prim2SF_not_nan x : is_nan x = false → not_nan (Prim2SF x).
Proof.
  unfold is_nan. rewrite FloatAxioms.eqb_spec. unfold SFeqb.
  destruct (Prim2SF x); simpl; try done.
Qed.

Lemma compare_key x y :
  is_nan x = false → is_nan y = false →
  SFcompare (Prim2SF x) (Prim2SF y) = Some (lexcmp (fkey x) (fkey y)).
Proof. intros Hx Hy. apply SFcompare_key; by apply Prim2SF_not_nan. Qed.

Lemma ltb_key x y :
  is_nan x = false → is_nan y = false →
  (x <? y)%float = match lexcmp (fkey x) (fkey y) with Lt => true | _ => false end.
Proof. intros Hx Hy. by rewrite FloatAxioms.ltb_spec; unfold SFltb; rewrite compare_key. Qed.

Lemma leb_key x y :
  is_nan x = false → is_nan y = false →
  (x <=? y)%float = match lexcmp (fkey x) (fkey y) with Gt => false | _ => true end.
Proof.
  intros Hx Hy. rewrite FloatAxioms.leb_spec; unfold SFleb; rewrite compare_key by done.
  by destruct (lexcmp _ _).
Qed.

Lemma eqb_key x y :
  is_nan x = false → is_nan y = false →
  (x =? y)%float = match lexcmp (fkey x) (fkey y) with Eq => true | _ => false end.
Proof. intros Hx Hy. by rewrite FloatAxioms.eqb_spec; unfold SFeqb; rewrite compare_key. Qed.

Lemma eqb_not_nan x y : (x =? y)%float = true → is_nan x = false ∧ is_nan y = false.
Proof.
  unfold is_nan. rewrite !FloatAxioms.eqb_spec. unfold SFeqb.
  destruct (Prim2SF x) as [| [] | | [] ? ?], (Prim2SF y) as [| [] | | [] ? ?]; simpl; try done.
  all: intros _; rewrite ?Z.compare_refl, ?Pos.compare_cont_refl; done.
Qed.

(** The sign of [y - x], as the sort reads it, is the order of [y] and [x]. *)
Lemma sign_of_sub x y :
  is_nan x = false → is_nan y = false →
  sign_of (y - x) = lexcmp (fkey y) (fkey x).
Proof.
  intros Hx Hy.
  pose proof (SFsub_sign (Prim2SF x) (Prim2SF y) (Prim2SF_valid x) (Prim2SF_valid y)
                (Prim2SF_not_nan x Hx) (Prim2SF_not_nan y Hy)) as Hs.
  rewrite compare_key in Hs by done. rewrite (lexcmp_antisym (fkey x) (fkey y)).
  unfold sign_of. rewrite !FloatAxioms.ltb_spec, FloatAxioms.sub_spec. unfold SFltb.
  change (Prim2SF 0) with (S754_zero false).
  unfold SF64sub. set (D := SFsub prec emax (Prim2SF y) (Prim2SF x)) in *.
  clearbody D.
  destruct (lexcmp (fkey x) (fkey y)); simpl CompOpp; [|destruct Hs as [Hs HD]..];
    destruct D as [| [] | | [] ? ?]; simpl in *; done.
Qed.

(** ** The ranking step *)

Lemma sort_compare_key a b :
  is_nan (similarity_score a) = false → is_nan (similarity_score b) = false →
  sort_compare a b = lexcmp (fkey (similarity_score b)) (fkey (similarity_score a)).
Proof. intros Ha Hb. unfold sort_compare, comparefn. by apply sign_of_sub. Qed.

(** Without NaN scores the comparator orders the results. *)
Lemma sort_compare_orders rs : numeric_scores rs → orders sort_compare rs.
Proof.
  unfold numeric_scores. rewrite Forall_forall. intros Hnum. split.
  - intros x y Hx Hy. rewrite !sort_compare_key by auto.
    rewrite (lexcmp_antisym (fkey (similarity_score y))). by intros ->.
  - intros x y z Hx Hy Hz. rewrite !sort_compare_key by auto.
    intros Hxy Hyz. by apply (lexcmp_not_gt_trans _ (fkey (similarity_score y))).
Qed.

Lemma sort_compare_not_gt a b :
  is_nan (similarity_score a) = false → is_nan (similarity_score b) = false →
  sort_compare a b ≠ Gt → (similarity_score b <=? similarity_score a)%float = true.
Proof.
  intros Ha Hb. rewrite sort_compare_key, leb_key by done.
  by destruct (lexcmp _ _).
Qed.

Lemma sort_compare_tie s a b :
  (similarity_score a =? s)%float = true → (similarity_score b =? s)%float = true →
  sort_compare a b ≠ Gt.
Proof.
  intros Ha Hb.
  destruct (eqb_not_nan _ _ Ha) as [Na Ns]. destruct (eqb_not_nan _ _ Hb) as [Nb _].
  rewrite eqb_key in Ha, Hb by done. rewrite sort_compare_key by done.
  pose proof (lexcmp_spec (fkey (similarity_score a)) (fkey s)) as Hka.
  pose proof (lexcmp_spec (fkey (similarity_score b)) (fkey s)) as Hkb.
  destruct (lexcmp (fkey (similarity_score a)) (fkey s)); try done.
  destruct (lexcmp (fkey (similarity_score b)) (fkey s)); try done.
  by rewrite Hka, Hkb, lexcmp_refl.
Qed.

Lemma rank_length queryEmbedding store repositoryContext :
  length (rank queryEmbedding store repositoryContext)
  = Nat.min 5 (length (scored_results queryEmbedding store repositoryContext)).
Proof. unfold rank. by rewrite length_take, js_sort_length. Qed.

Lemma rank_non_increasing queryEmbedding store repositoryContext :
  numeric_scores (scored_results queryEmbedding store repositoryContext) →
  non_increasing (rank queryEmbedding store repositoryContext).
Proof.
  intros Hnum. unfold non_increasing, rank. apply StronglySorted_take.
  pose proof (js_sort_sorted sort_compare _ (sort_compare_orders _ Hnum)) as Hs.
  assert (Hnum' : numeric_scores
                    (js_sort sort_compare
                       (scored_results queryEmbedding store repositoryContext))).
  { unfold numeric_scores in *. by rewrite js_sort_perm. }
  revert Hs Hnum'. generalize (js_sort sort_compare
    (scored_results queryEmbedding store repositoryContext)).
  intros l Hs. induction Hs as [|x l Hs IH Hx]; intros Hnum'; constructor.
  - apply IH. by inversion Hnum'.
  - inversion Hnum' as [|? ? Nx Nl]; subst.
    rewrite Forall_forall in Hx, Nl |- *. intros y Hy.
    apply sort_compare_not_gt; auto.
Qed.

Lemma rank_stable queryEmbedding store repositoryContext s :
  ties_with s (rank queryEmbedding store repositoryContext)
  `prefix_of` ties_with s (scored_results queryEmbedding store repositoryContext).
Proof.
  unfold ties_with, rank.
  rewrite <- (js_sort_stable sort_compare _
                (scored_results queryEmbedding store repositoryContext)).
  - apply filter_take_prefix.
  - intros x y _ _. apply sort_compare_tie.
Qed.

Lemma filter_by_context_sublist repositoryContext rs :
  filter_by_context repositoryContext rs `sublist_of` rs.
Proof.
  unfold filter_by_context. destruct repositoryContext as [ctx|]; [|done].
  destruct (truthy ctx); [|done].
  induction rs as [|r rs IH]; simpl; [done|].
  destruct (_ || _); by constructor.
Qed.

(** Every result is the score of a record of the store. *)
Lemma rank_elem queryEmbedding store repositoryContext r :
  r ∈ rank queryEmbedding store repositoryContext →
  ∃ entry, entry ∈ entries store ∧ r = score_entry queryEmbedding entry.
Proof.
  unfold rank, scored_results. intros Hr.
  pose proof (sublist_subseteq _ _ (sublist_take (js_sort sort_compare
    (filter_by_context repositoryContext
       (List.map (score_entry queryEmbedding) (entries store)))) 5) _ Hr) as Hr1.
  rewrite js_sort_elem in Hr1.
  apply (sublist_subseteq _ _ (filter_by_context_sublist _ _)) in Hr1.
  apply list_elem_of_In, in_map_iff in Hr1 as (entry & <- & Hin).
  exists entry. split; [by apply list_elem_of_In | done].
Qed.

(** ** Cosine similarity *)

(** On vectors of one length the indexed loop is a loop over the paired
    components. *)
Lemma cosine_sums_shift {num} `{Arith num} (pa pb a b : list num) acc :
  length pa = length pb → length a = length b →
  fold_left (cosine_step (pa ++ a) (pb ++ b)) (seq (length pa) (length a)) acc
  = fold_left paired_step (combine a b) acc.
Proof.
  revert pa pb b acc. induction a as [|x a IH]; intros pa pb [|y b] acc Hp Hl;
    try discriminate; [done|].
  cbn [length seq fold_left combine].
  assert (Hx : at_index (pa ++ x :: a) (length pa) = x).
  { unfold at_index. by rewrite nth_middle. }
  assert (Hy : at_index (pb ++ y :: b) (length pa) = y).
  { unfold at_index. by rewrite Hp, nth_middle. }
  unfold cosine_step at 2. destruct acc as [[d na] nb]. rewrite Hx, Hy.
  specialize (IH (pa ++ [x]) (pb ++ [y]) b
                (add d (mul x y), add na (mul x x), add nb (mul y y))).
  rewrite <- !app_assoc, !length_app in IH. cbn [length app] in IH.
  rewrite Nat.add_1_r in IH. rewrite IH; [done | lia | by injection Hl].
Qed.

Lemma cosine_sums_paired {num} `{Arith num} (a b : list num) :
  length a = length b →
  cosine_sums a b = fold_left paired_step (combine a b) (zero, zero, zero).
Proof. intros Hl. by apply (cosine_sums_shift [] []). Qed.

Local Open Scope R_scope.

Lemma paired_sums_dot (a b : list R) d na nb :
  length a = length b →
  fold_left paired_step (combine a b) (d, na, nb)
  = (d + dot a b, na + dot a a, nb + dot b b).
Proof.
  revert b d na nb. induction a as [|x a IH]; intros [|y b] d na nb Hl;
    try discriminate.
  - cbn. f_equal; [f_equal|]; lra.
  - cbn [combine fold_left paired_step fst snd dot add mul exact].
    rewrite IH by (by injection Hl). f_equal; [f_equal|]; lra.
Qed.

Lemma dot_self_nonneg (a : list R) : 0 <= dot a a.
Proof. induction a as [|x a IH]; cbn; [lra | nra]. Qed.

(** Cauchy-Schwarz *)
Lemma dot_square_le (a b : list R) :
  length a = length b → dot a b * dot a b <= dot a a * dot b b.
Proof.
  revert b. induction a as [|x a IH]; intros [|y b] Hl; try discriminate.
  - cbn. lra.
  - cbn [dot]. specialize (IH b ltac:(by injection Hl)).
    pose proof (dot_self_nonneg a) as Ha. pose proof (dot_self_nonneg b) as Hb.
    set (D := dot a b) in *. set (A := dot a a) in *. set (B := dot b b) in *.
    assert (Hmix : 2 * (x * y) * D <= x * x * B + y * y * A).
    { assert (H0 : 0 <= x * x * B + y * y * A) by nra.
      assert (Hsq : (2 * (x * y) * D) * (2 * (x * y) * D)
                    <= (x * x * B + y * y * A) * (x * x * B + y * y * A)).
      { assert (H1 : x * x * (y * y) * (D * D) <= x * x * (y * y) * (A * B)).
        { apply Rmult_le_compat_l; [nra | done]. }
        pose proof (Rle_0_sqr (x * x * B - y * y * A)) as H2. unfold Rsqr in H2.
        lra. }
      destruct (Rle_or_lt (2 * (x * y) * D) (x * x * B + y * y * A)) as [|Hlt]; [done|].
      exfalso. nra. }
    nra.
Qed.

(** In exact arithmetic the similarity of two vectors of one length with
    non-zero norms is their dot product over the product of their norms, and
    lies between -1 and 1. *)
Lemma cosineSimilarity_exact (a b : list R) :
  length a = length b → 0 < dot a a → 0 < dot b b →
  cosineSimilarity a b = dot a b / (R_sqrt.sqrt (dot a a) * R_sqrt.sqrt (dot b b))
  ∧ -1 <= cosineSimilarity a b <= 1.
Proof.
  intros Hl Ha Hb. unfold cosineSimilarity.
  rewrite cosine_sums_paired by done. cbn [zero exact].
  rewrite paired_sums_dot by done. rewrite !Rplus_0_l. cbn [div mul sqrt exact].
  split; [done|].
  pose proof (dot_square_le a b Hl) as Hcs.
  set (D := dot a b) in *. set (A := dot a a) in *. set (B := dot b b) in *.
  rewrite <- sqrt_mult by lra.
  assert (HS : 0 < R_sqrt.sqrt (A * B)) by (apply sqrt_lt_R0; nra).
  assert (HSS : R_sqrt.sqrt (A * B) * R_sqrt.sqrt (A * B) = A * B)
    by (apply sqrt_sqrt; nra).
  set (S := R_sqrt.sqrt (A * B)) in *.
  assert (Hbound : - S <= D <= S) by (split; nra).
  split.
  - apply Rmult_le_reg_r with S; [done|]. unfold Rdiv.
    rewrite Rmult_assoc, Rinv_l by lra. lra.
  - apply Rmult_le_reg_r with S; [done|]. unfold Rdiv.
    rewrite Rmult_assoc, Rinv_l by lra. lra.
Qed.

Local Close Scope R_scope.

(** ** Runs of the effectful code *)

Lemma bind_run {A B} (m : M A) (k : A → M B) w :
  bind m k w = match m w with
               | (Returned a, w') => k a w'
               | (Thrown e, w') => (Thrown e, w')
               end.
Proof. reflexivity. Qed.

Lemma embed_calls_app evs1 evs2 :
  embed_calls (evs1 ++ evs2) = embed_calls evs1 ++ embed_calls evs2.
Proof. apply flat_map_app. Qed.

(** [generateEmbedding] returns or throws what [embedding_of] says, leaves
    the disk alone and keeps the model that later calls will run. *)
Lemma generateEmbedding_run text config w r w' :
  generateEmbedding text config w = (r, w') →
  r = embedding_of w config text
  ∧ files w' = files w ∧ dirs w' = dirs w
  ∧ generator_of w' config = generator_of w config
  ∧ ∃ evs, trace w' = trace w ++ evs
           ∧ embed_calls evs = [text]
           ∧ List.filter is_write evs = [] ∧ List.filter is_read evs = [].
Proof.
  unfold generateEmbedding, embedding_of, generator_of, load_generator, bind, emit,
    ret, throw.
  cbn [embeddingGeneratorCache with_trace trace].
  destruct (embeddingGeneratorCache w) as [g|] eqn:Ecache.
  - destruct (g text); intros [= <- <-]; cbn; rewrite ?Ecache;
      (repeat split; try done); by exists [Embed text].
  - destruct (pipeline (model_name config)) as [g|] eqn:Epipe; cbn.
    + destruct (g text); intros [= <- <-]; cbn; (repeat split; try done);
        exists [Embed text; LoadModel (model_name config)];
        by rewrite <- ?app_assoc.
    + intros [= <- <-]; cbn. rewrite ?Ecache, ?Epipe. (repeat split; try done).
      exists [Embed text; LoadModel (model_name config)]. by rewrite <- ?app_assoc.
Qed.

Lemma path_exists_false w p : path_exists w p = false → files w !! p = None.
Proof.
  unfold path_exists. intros H. apply orb_false_elim in H as [H _].
  apply bool_decide_eq_false in H. by apply eq_None_not_Some.
Qed.

(** A search never throws; its value is [search_value]; it writes nothing,
    and reads the store only when something exists at its path. *)
Lemma searchVectorStore_with_run ranker projectPath query repositoryContext config w r w' :
  searchVectorStore_with ranker projectPath query repositoryContext config w = (r, w') →
  r = Returned (search_value ranker w projectPath query repositoryContext config)
  ∧ files w' = files w
  ∧ ∃ evs, trace w' = trace w ++ evs
           ∧ embed_calls evs = [query]
           ∧ List.filter is_write evs = []
           ∧ (path_exists w (vector_store_path projectPath) = false →
              List.filter is_read evs = [])
           ∧ (∀ e, search_failure w projectPath query config = Some e →
              last evs = Some (Console LevelError (MsgErrorSearching e))).
Proof.
  unfold searchVectorStore_with, try_catch, search_value, search_failure.
  rewrite bind_run.
  destruct (generateEmbedding query config w) as [r1 w1] eqn:E1.
  apply generateEmbedding_run in E1 as (-> & Hf & Hd & Hg & evs & Ht & Hc & Hw & Hr).
  fold (vector_store_path projectPath).
  set (p := vector_store_path projectPath).
  destruct (embedding_of w config query) as [queryEmbedding|e].
  - unfold pathExists, readJson, console_error, emit, bind, ret.
    cbn [with_trace files dirs trace].
    fold (path_exists w1 p).
    assert (Hpe : path_exists w1 p = path_exists w p).
    { unfold path_exists. by rewrite Hf, Hd. }
    rewrite Hpe.
    destruct (path_exists w p) eqn:Ex; cbn; rewrite ?Hf, ?Ht.
    + destruct (files w !! p) as [[store|]|] eqn:Efile; intros [= <- <-]; cbn;
        (split; [done|]); (split; [done|]);
        eexists (evs ++ _); rewrite <- !app_assoc; (split; [done|]);
        rewrite embed_calls_app, !List.filter_app, Hc, Hw; cbn;
        (repeat split; try done); intros e [= <-]; by rewrite last_app.
    + rewrite (path_exists_false _ _ Ex). intros [= <- <-]; cbn.
      (split; [done|]); (split; [done|]).
      eexists (evs ++ _); rewrite <- !app_assoc; (split; [done|]).
      rewrite embed_calls_app, !List.filter_app, Hc, Hw, Hr; cbn. done.
  - unfold console_error, emit, bind, ret. cbn. intros [= <- <-]. cbn.
    (split; [done|]); (split; [done|]).
    eexists (evs ++ _); rewrite Ht, <- !app_assoc; (split; [done|]).
    rewrite embed_calls_app, !List.filter_app, Hc, Hw, Hr; cbn.
    (repeat split; try done). intros e' [= <-]. by rewrite last_app.
Qed.

Lemma embedding_of_generator w1 w config :
  generator_of w1 config = generator_of w config →
  embedding_of w1 config = embedding_of w config.
Proof. intros Hg. unfold embedding_of. by rewrite Hg. Qed.

Lemma embed_all_app embed repository dependency work1 work2 entries :
  embed_all embed repository dependency (work1 ++ work2) entries
  = match embed_all embed repository dependency work1 entries with
    | (Returned entries1, texts1) =>
        let '(r, texts2) := embed_all embed repository dependency work2 entries1 in
        (r, texts1 ++ texts2)
    | (Thrown e, texts1) => (Thrown e, texts1)
    end.
Proof.
  revert entries. induction work1 as [|[d c] work1 IH]; intros entries; cbn [embed_all app].
  - by destruct (embed_all _ _ _ work2 entries).
  - destruct (embed c) as [v|e]; [|done]. rewrite IH.
    destruct (embed_all _ _ _ work1 _) as [[es1|e1] t1]; [|done].
    by destruct (embed_all _ _ _ work2 es1).
Qed.

(** The texts handed to the embedder are a prefix of the work. *)
Lemma embed_all_prefix embed repository dependency work entries :
  (embed_all embed repository dependency work entries).2 `prefix_of` List.map snd work.
Proof.
  revert entries. induction work as [|[d c] work IH]; intros entries; cbn [embed_all].
  - done.
  - destruct (embed c) as [v|e].
    + specialize (IH (entries ++ [new_entry repository dependency d c v])).
      destruct (embed_all _ _ _ work _) as [r t]. cbn in *. by apply prefix_cons.
    + cbn. apply prefix_cons, prefix_nil.
Qed.

(** When the loop returns, every text of the work was handed over. *)
Lemma embed_all_returned embed repository dependency work entries entries' :
  (embed_all embed repository dependency work entries).1 = Returned entries' →
  (embed_all embed repository dependency work entries).2 = List.map snd work.
Proof.
  revert entries. induction work as [|[d c] work IH]; intros entries; cbn [embed_all].
  - done.
  - destruct (embed c) as [v|e]; [|done].
    specialize (IH (entries ++ [new_entry repository dependency d c v])).
    destruct (embed_all _ _ _ work _) as [r t]. cbn in *. intros Hr. by rewrite IH.
Qed.

Lemma embedding_of_thrown w config text e :
  embedding_of w config text = Thrown e → is_embedding_failure e = true.
Proof.
  unfold embedding_of. destruct (generator_of w config) as [g|]; [|by intros [= <-]].
  destruct (g text); [done | by intros [= <-]].
Qed.

(** A failure of the loop is the failure of the embedder on one of the
    chunks. *)
Lemma embed_all_thrown embed repository dependency work entries e :
  (embed_all embed repository dependency work entries).1 = Thrown e →
  ∃ dc, dc ∈ work ∧ embed dc.2 = Thrown e.
Proof.
  revert entries. induction work as [|[d c] work IH]; intros entries; cbn [embed_all].
  - done.
  - destruct (embed c) as [v|e'] eqn:Ec.
    + specialize (IH (entries ++ [new_entry repository dependency d c v])).
      destruct (embed_all _ _ _ work _) as [r t]. cbn in *. intros Hr.
      destruct (IH Hr) as (dc & Hdc & Hemb). exists dc. split; [by right | done].
    + cbn. intros [= <-]. exists (d, c). split; [left | done].
Qed.

(** The inner loop of [indexDocumentation], over the chunks of a document. *)
Lemma index_chunks_run repository dependency config document cs entries w r w' :
  for_each cs (index_chunk repository dependency config document) entries w = (r, w') →
  let work := List.map (pair document) (List.filter (λ c, truthy (trim c)) cs) in
  r = (embed_all (embedding_of w config) repository dependency work entries).1
  ∧ files w' = files w ∧ dirs w' = dirs w
  ∧ generator_of w' config = generator_of w config
  ∧ ∃ evs, trace w' = trace w ++ evs
           ∧ embed_calls evs
             = (embed_all (embedding_of w config) repository dependency work entries).2
           ∧ List.filter is_write evs = [] ∧ List.filter is_read evs = [].
Proof.
  revert entries w. induction cs as [|c cs IH]; intros entries w; cbn [for_each].
  - intros [= <- <-]. cbn. repeat split; try done. exists []. by rewrite app_nil_r.
  - rewrite bind_run. unfold index_chunk at 1. cbn [List.filter].
    destruct (truthy (trim c)) eqn:Eblank.
    + rewrite bind_run.
      destruct (generateEmbedding c config w) as [r1 w1] eqn:E1.
      apply generateEmbedding_run in E1
        as (-> & Hf1 & Hd1 & Hg1 & evs1 & Ht1 & Hc1 & Hw1 & Hr1).
      cbn [List.map embed_all].
      destruct (embedding_of w config c) as [v|e].
      * cbn [ret]. intros Hrest. apply IH in Hrest
          as (-> & Hf & Hd & Hg & evs & Ht & Hc & Hw & Hr).
        rewrite (embedding_of_generator _ _ _ Hg1) in *.
        destruct (embed_all _ _ _ _ _) as [r2 t2]. cbn in *.
        repeat split; try congruence.
        exists (evs1 ++ evs). rewrite Ht, Ht1, <- app_assoc.
        rewrite embed_calls_app, !List.filter_app, Hc1, Hc, Hw1, Hw, Hr1, Hr. done.
      * intros [= <- <-]. cbn. repeat split; try done. by exists evs1.
    + cbn [ret]. by apply IH.
Qed.

(** The outer loop, over the documents. *)
Lemma index_documents_run repository dependency config documents entries w r w' :
  for_each documents (index_document repository dependency config) entries w = (r, w') →
  r = (embed_all (embedding_of w config) repository dependency (work_of documents) entries).1
  ∧ files w' = files w ∧ dirs w' = dirs w
  ∧ generator_of w' config = generator_of w config
  ∧ ∃ evs, trace w' = trace w ++ evs
           ∧ embed_calls evs
             = (embed_all (embedding_of w config) repository dependency
                  (work_of documents) entries).2
           ∧ List.filter is_write evs = [] ∧ List.filter is_read evs = [].
Proof.
  revert entries w. induction documents as [|d documents IH]; intros entries w;
    cbn [for_each work_of flat_map].
  - intros [= <- <-]. cbn. repeat split; try done. exists []. by rewrite app_nil_r.
  - rewrite bind_run. unfold index_document at 1.
    destruct (for_each _ _ entries w) as [r1 w1] eqn:E1.
    apply index_chunks_run in E1 as (-> & Hf1 & Hd1 & Hg1 & evs1 & Ht1 & Hc1 & Hw1 & Hr1).
    cbv zeta in *. rewrite embed_all_app.
    destruct (embed_all _ _ _ (List.map _ _) entries) as [[es1|e1] t1]; cbn in *.
    + intros Hrest. apply IH in Hrest as (-> & Hf & Hd & Hg & evs & Ht & Hc & Hw & Hr).
      rewrite (embedding_of_generator _ _ _ Hg1) in *.
      fold (work_of documents).
      destruct (embed_all _ _ _ (work_of documents) es1) as [r2 t2]. cbn in *.
      repeat split; try congruence.
      exists (evs1 ++ evs). rewrite Ht, Ht1, <- app_assoc.
      rewrite embed_calls_app, !List.filter_app, Hc1, Hc, Hw1, Hw, Hr1, Hr. done.
    + intros [= <- <-]. repeat split; try done. by exists evs1.
Qed.

Lemma rethrow_run {A} (m : M A) (msg : error → console_message) w :
  try_catch m (λ error, console_error (msg error);; throw error) w
  = match m w with
    | (Returned a, w') => (Returned a, w')
    | (Thrown e, w') =>
        (Thrown e, with_trace w' (trace w' ++ [Console LevelError (msg e)]))
    end.
Proof. unfold try_catch. by destruct (m w) as [[a|e] w1]. Qed.

(** A run of [indexDocumentation]. The embedder is called on a prefix of the
    work. When the run returns, every chunk was embedded, then the store was
    written once, then the summary was logged. When it throws, the failure
    is either that of the one write, or the files are as they were and
    nothing was written. *)
Lemma indexDocumentation_run projectPath dependency repository documents config w r w' :
  indexDocumentation projectPath dependency repository documents config w = (r, w') →
  let p := vector_store_path projectPath in
  let loop := embed_all (embedding_of w config) repository dependency
                (work_of documents) (stored_entries w p) in
  ∃ evs,
    trace w' = trace w ++ evs
    ∧ embed_calls evs `prefix_of` loop.2
    ∧ match r with
      | Returned _ =>
          ∃ entries' pre,
            loop.1 = Returned entries'
            ∧ files w' = <[p := StoreFile (persisted {| entries := entries' |})]> (files w)
            ∧ evs = pre ++ [WriteJson p;
                            Console LevelLog (MsgIndexed (length documents)
                                                (length entries') (dep_name dependency))]
            ∧ List.filter is_write pre = []
            ∧ embed_calls pre = List.map snd (work_of documents)
      | Thrown (WriteError _) =>
          ∃ entries' pre msg,
            loop.1 = Returned entries'
            ∧ evs = pre ++ [WriteJson p; Console LevelError msg]
            ∧ List.filter is_write pre = []
            ∧ embed_calls pre = List.map snd (work_of documents)
      | Thrown _ =>
          files w' = files w ∧ List.filter is_write evs = []
      end.
Proof.
  intros Hrun p loop. revert Hrun.
  unfold indexDocumentation. rewrite rethrow_run.
  fold (vector_store_path projectPath). fold p.
  set (dir := path_join projectPath storage_dir_name).
  rewrite bind_run. unfold console_log at 1, emit at 1.
  set (w0 := with_trace w _).
  rewrite bind_run. unfold ensureDir at 1. rewrite bind_run. unfold emit at 1.
  cbn [with_trace trace].
  destruct (mkdir_ok dir) eqn:Emk; cbn [throw].
  2:{ cbn. intros [= <- <-].
      eexists. split; [by rewrite <- !app_assoc|]. cbn.
      split; [apply prefix_nil | done]. }
  set (w1 := with_dirs _ _).
  rewrite bind_run. unfold pathExists at 1. rewrite bind_run. unfold emit at 1.
  fold (path_exists (with_trace w1 (trace w1 ++ [PathExists p])) p).
  set (w2 := with_trace w1 _).
  assert (Hfiles2 : files w2 = files w) by done.
  assert (Hgen2 : generator_of w2 config = generator_of w config) by done.
  assert (Htrace2 : trace w2 = trace w ++ [Console LevelLog (MsgIndexing (dep_name dependency));
                                           EnsureDir dir; PathExists p]).
  { cbn. by rewrite <- !app_assoc. }
  rewrite bind_run.
  assert (Hload : ∃ rl wl evl,
    (if path_exists w2 p then readJson p else ret {| entries := [] |}) w2 = (rl, wl)
    ∧ files wl = files w ∧ generator_of wl config = generator_of w config
    ∧ trace wl = trace w2 ++ evl ∧ embed_calls evl = [] ∧ List.filter is_write evl = []
    ∧ match rl with
      | Returned vs => entries vs = stored_entries w p
      | Thrown e => e = ReadError p
      end).
  { destruct (path_exists w2 p) eqn:Ex.
    - unfold readJson, bind, emit. cbn [with_trace files trace].
      unfold stored_entries. rewrite Hfiles2.
      destruct (files w !! p) as [[store|]|]; eexists _, _, [ReadJson p]; done.
    - apply path_exists_false in Ex. unfold stored_entries. rewrite <- Hfiles2, Ex.
      eexists _, _, []. unfold ret. rewrite app_nil_r. done. }
  destruct Hload as (rl & wl & evl & -> & Hfl & Hgl & Htl & Hcl & Hwl & Hrl).
  destruct rl as [vs|e].
  2:{ subst e. cbn. intros [= <- <-].
      eexists. split; [by rewrite Htl, Htrace2, <- !app_assoc|].
      rewrite !embed_calls_app, !List.filter_app, Hcl, Hwl. cbn.
      split; [apply prefix_nil | by rewrite Hfl]. }
  rewrite bind_run.
  destruct (for_each documents _ (entries vs) wl) as [r3 w3] eqn:E3.
  apply index_documents_run in E3 as (-> & Hf3 & Hd3 & Hg3 & ev3 & Ht3 & Hc3 & Hw3 & Hr3).
  rewrite (embedding_of_generator _ _ _ Hgl), Hrl in *. fold loop in Hc3 |- *.
  set (pre := [Console LevelLog (MsgIndexing (dep_name dependency));
               EnsureDir dir; PathExists p] ++ evl ++ ev3).
  assert (Htrace3 : trace w3 = trace w ++ pre).
  { unfold pre. by rewrite Ht3, Htl, Htrace2, <- !app_assoc. }
  assert (Hpre_w : List.filter is_write pre = []).
  { unfold pre. by rewrite !List.filter_app, Hwl, Hw3. }
  assert (Hpre_c : embed_calls pre = loop.2).
  { unfold pre. by rewrite !embed_calls_app, Hcl, Hc3. }
  assert (Hfiles3 : files w3 = files w) by (by rewrite Hf3, Hfl).
  clearbody pre.
  destruct loop.1 as [entries'|e] eqn:Eloop.
  2:{ cbn. intros [= <- <-].
      exists (pre ++ [Console LevelError (MsgErrorIndexing (dep_name dependency) e)]).
      split; [by rewrite Htrace3, <- app_assoc|].
      rewrite embed_calls_app, List.filter_app, Hpre_c, Hpre_w. cbn.
      rewrite app_nil_r. split; [done|].
      apply embed_all_thrown in Eloop as (dc & _ & Hemb).
      apply embedding_of_thrown in Hemb. by destruct e. }
  pose proof (embed_all_returned _ _ _ _ _ _ Eloop) as Hall. fold loop in Hall.
  rewrite bind_run. unfold writeJson at 1. rewrite bind_run. unfold emit at 1.
  cbn [with_trace files trace].
  destruct (write_outcome p) eqn:Ewrite.
  - unfold console_log, emit. cbn. intros [= <- <-].
    exists (pre ++ [WriteJson p;
                    Console LevelLog (MsgIndexed (length documents) (length entries')
                                        (dep_name dependency))]).
    split; [by rewrite Htrace3, <- !app_assoc|].
    split; [by rewrite embed_calls_app, Hpre_c, app_nil_r|].
    exists entries', pre. by rewrite Hfiles3, Hpre_c.
  - cbn. intros [= <- <-].
    exists (pre ++ [WriteJson p;
                    Console LevelError (MsgErrorIndexing (dep_name dependency)
                                          (WriteError p))]).
    split; [by rewrite Htrace3, <- !app_assoc|].
    split; [by rewrite embed_calls_app, Hpre_c, app_nil_r|].
    eexists entries', pre, _. by rewrite Hpre_c.
  - cbn. intros [= <- <-].
    exists (pre ++ [WriteJson p;
                    Console LevelError (MsgErrorIndexing (dep_name dependency)
                                          (WriteError p))]).
    split; [by rewrite Htrace3, <- !app_assoc|].
    split; [by rewrite embed_calls_app, Hpre_c, app_nil_r|].
    eexists entries', pre, _. by rewrite Hpre_c.
Qed.

(** A run of [indexDocumentation] that throws. The error is logged on the
    console, last of all, and the directory is there when it could be made.
    The error is the failure to make the directory, the failure to read a
    store that cannot be loaded, the failure of the embedder in the loop, or
    the failure of the write. *)
Lemma indexDocumentation_thrown projectPath dependency repository documents config w e w' :
  indexDocumentation projectPath dependency repository documents config w = (Thrown e, w') →
  let p := vector_store_path projectPath in
  let dir := path_join projectPath storage_dir_name in
  let loop := embed_all (embedding_of w config) repository dependency
                (work_of documents) (stored_entries w p) in
  ∃ pre,
    trace w' = trace w ++ pre
               ++ [Console LevelError (MsgErrorIndexing (dep_name dependency) e)]
    ∧ dirs w' = (if mkdir_ok dir then dirs w ∪ {[dir]} else dirs w)
    ∧ ((e = MkdirError dir ∧ mkdir_ok dir = false)
       ∨ (e = ReadError p ∧ ¬ store_loadable w projectPath)
       ∨ (loop.1 = Thrown e ∧ embed_calls pre = loop.2)
       ∨ (e = WriteError p ∧ ∃ entries', loop.1 = Returned entries')).
Proof.
  intros Hrun p dir loop. revert Hrun.
  unfold indexDocumentation. rewrite rethrow_run.
  fold (vector_store_path projectPath). fold p. fold dir.
  rewrite bind_run. unfold console_log at 1, emit at 1.
  set (w0 := with_trace w _).
  rewrite bind_run. unfold ensureDir at 1. rewrite bind_run. unfold emit at 1.
  cbn [with_trace trace].
  destruct (mkdir_ok dir) eqn:Emk; cbn [throw].
  2:{ cbn. intros [= <- <-]. cbn.
      exists [Console LevelLog (MsgIndexing (dep_name dependency)); EnsureDir dir].
      split; [by rewrite <- !app_assoc|]. split; [done|]. by left. }
  set (w1 := with_dirs _ _).
  rewrite bind_run. unfold pathExists at 1. rewrite bind_run. unfold emit at 1.
  fold (path_exists (with_trace w1 (trace w1 ++ [PathExists p])) p).
  set (w2 := with_trace w1 _).
  assert (Hfiles2 : files w2 = files w) by done.
  assert (Hdirs2 : dirs w2 = dirs w ∪ {[dir]}) by done.
  assert (Hgen2 : generator_of w2 config = generator_of w config) by done.
  assert (Htrace2 : trace w2 = trace w ++ [Console LevelLog (MsgIndexing (dep_name dependency));
                                           EnsureDir dir; PathExists p]).
  { cbn. by rewrite <- !app_assoc. }
  rewrite bind_run.
  assert (Hload : ∃ rl wl evl,
    (if path_exists w2 p then readJson p else ret {| entries := [] |}) w2 = (rl, wl)
    ∧ files wl = files w ∧ dirs wl = dirs w ∪ {[dir]}
    ∧ generator_of wl config = generator_of w config
    ∧ trace wl = trace w2 ++ evl ∧ embed_calls evl = []
    ∧ match rl with
      | Returned vs => entries vs = stored_entries w p
      | Thrown e => e = ReadError p ∧ ¬ store_loadable w projectPath
      end).
  { destruct (path_exists w2 p) eqn:Ex.
    - unfold readJson, bind, emit. cbn [with_trace files trace].
      unfold stored_entries, store_loadable. fold p. rewrite Hfiles2.
      destruct (files w !! p) as [[store|]|] eqn:Efile; eexists _, _, [ReadJson p];
        (split; [done|]); (split; [done|]); (split; [done|]); (split; [done|]);
        (split; [done|]); (split; [done|]).
      { done. }
      { split; [done | by intros []]. }
      split; [done|].
      intros [Hnd Hne]. unfold path_exists in Ex. rewrite Hfiles2, Hdirs2, Efile in Ex.
      rewrite bool_decide_eq_false_2 in Ex by apply is_Some_None.
      cbn [orb] in Ex. apply bool_decide_eq_true in Ex.
      apply elem_of_union in Ex as [Hin | Hin%elem_of_singleton]; done.
    - apply path_exists_false in Ex. unfold stored_entries. rewrite <- Hfiles2, Ex.
      eexists _, _, []. unfold ret. rewrite app_nil_r. done. }
  destruct Hload as (rl & wl & evl & -> & Hfl & Hdl & Hgl & Htl & Hcl & Hrl).
  destruct rl as [vs|e0].
  2:{ destruct Hrl as [-> Hnot]. cbn. intros [= <- <-]. cbn.
      exists ([Console LevelLog (MsgIndexing (dep_name dependency));
               EnsureDir dir; PathExists p] ++ evl).
      split; [by rewrite Htl, Htrace2, <- !app_assoc|]. split; [done|].
      right. by left. }
  rewrite bind_run.
  destruct (for_each documents _ (entries vs) wl) as [r3 w3] eqn:E3.
  apply index_documents_run in E3 as (-> & Hf3 & Hd3 & Hg3 & ev3 & Ht3 & Hc3 & Hw3 & Hr3).
  rewrite (embedding_of_generator _ _ _ Hgl), Hrl in *. fold loop in Hc3 |- *.
  set (pre := [Console LevelLog (MsgIndexing (dep_name dependency));
               EnsureDir dir; PathExists p] ++ evl ++ ev3).
  assert (Htrace3 : trace w3 = trace w ++ pre).
  { unfold pre. by rewrite Ht3, Htl, Htrace2, <- !app_assoc. }
  assert (Hpre_c : embed_calls pre = loop.2).
  { unfold pre. by rewrite !embed_calls_app, Hcl, Hc3. }
  assert (Hdirs3 : dirs w3 = dirs w ∪ {[dir]}) by (by rewrite Hd3, Hdl).
  clearbody pre.
  destruct loop.1 as [entries'|e0] eqn:Eloop.
  2:{ cbn. intros [= <- <-]. cbn. exists pre.
      split; [by rewrite Htrace3, <- app_assoc|]. split; [done|].
      right. right. by left. }
  rewrite bind_run. unfold writeJson at 1. rewrite bind_run. unfold emit at 1.
  cbn [with_trace files trace].
  destruct (write_outcome p) eqn:Ewrite.
  - unfold console_log, emit. cbn. intros [=].
  - cbn. intros [= <- <-]. cbn. exists (pre ++ [WriteJson p]).
    split; [by rewrite Htrace3, <- !app_assoc|]. split; [done|].
    right. right. right. split; [done | by exists entries'].
  - cbn. intros [= <- <-]. cbn. exists (pre ++ [WriteJson p]).
    split; [by rewrite Htrace3, <- !app_assoc|]. split; [done|].
    right. right. right. split; [done | by exists entries'].
Qed.

(** A chunk that does not embed stops the loop: it fails, and no text after
    that chunk is handed to the embedder. *)
Lemma embed_all_fails_at embed repository dependency work entries k d c e :
  work !! k = Some (d, c) → embed c = Thrown e →
  (∃ e', (embed_all embed repository dependency work entries).1 = Thrown e')
  ∧ (embed_all embed repository dependency work entries).2
    `prefix_of` take (S k) (List.map snd work).
Proof.
  revert k entries. induction work as [|[d0 c0] work IH]; intros k entries Hk Hc;
    [done|]. cbn [embed_all].
  destruct (embed c0) as [v|e0] eqn:E0.
  - destruct k as [|k]; [cbn in Hk; congruence|]. cbn in Hk.
    destruct (IH k (entries ++ [new_entry repository dependency d0 c0 v]) Hk Hc)
      as [[e' He'] Hpre].
    destruct (embed_all _ _ _ work _) as [r t]. cbn in *. split; [by exists e'|].
    by apply prefix_cons.
  - cbn. split; [by exists e0|]. apply prefix_cons, prefix_nil.
Qed.

(** The chunk that is the first not to embed: the loop fails with its
    failure, after handing over the texts up to that chunk and no other. *)
Lemma embed_all_first_failure embed repository dependency work entries k d c e :
  work !! k = Some (d, c) → embed c = Thrown e →
  (∀ j d' c', (j < k)%nat → work !! j = Some (d', c') → ∃ v, embed c' = Returned v) →
  embed_all embed repository dependency work entries
  = (Thrown e, take (S k) (List.map snd work)).
Proof.
  revert k entries. induction work as [|[d0 c0] work IH]; intros k entries Hk Hc Hfirst;
    [done|]. cbn [embed_all].
  destruct k as [|k].
  - cbn in Hk. injection Hk as -> ->. by rewrite Hc.
  - destruct (Hfirst 0%nat d0 c0) as [v ->]; [lia | done |]. cbn in Hk.
    rewrite (IH k _ Hk Hc); [done|].
    intros j d' c' Hj Hw. apply (Hfirst (S j) d' c'); [lia | done].
Qed.

(** When the loop returns, it has added one record per chunk, in order. *)
Lemma embed_all_entries embed repository dependency work entries entries' :
  (embed_all embed repository dependency work entries).1 = Returned entries' →
  ∃ new, entries' = entries ++ new
         ∧ Forall2 (λ dc entry, ∃ v, embed dc.2 = Returned v
                                  ∧ entry = new_entry repository dependency dc.1 dc.2 v)
             work new.
Proof.
  revert entries. induction work as [|[d c] work IH]; intros entries; cbn [embed_all].
  - intros [= <-]. exists []. by rewrite app_nil_r.
  - destruct (embed c) as [v|e] eqn:Ec; [|done].
    specialize (IH (entries ++ [new_entry repository dependency d c v])).
    destruct (embed_all _ _ _ work _) as [r t]. cbn in *. intros Hr.
    destruct (IH Hr) as (new & -> & Hnew).
    exists (new_entry repository dependency d c v :: new).
    split; [by rewrite <- app_assoc|]. constructor; [by exists v | done].
Qed.

(** The capability answers with the value of the search and no error,
    whenever [getConfig] returns. *)
Lemma searchDependencyDocs_run params w config w1 :
  getConfig (project_path params) (world_before_config params w) = (Returned config, w1) →
  (searchDependencyDocs params w).1
  = Returned {| results := search_value rank w1 (project_path params) (query params)
                             (repository_context params) (Some config);
                response_error := None |}.
Proof.
  intros Hcfg. unfold searchDependencyDocs, try_catch. rewrite bind_run.
  unfold log_info at 1, emit at 1. rewrite bind_run.
  assert (Henv : (match env_vars params with
                  | Some vars => set_env_vars vars
                  | None => ret ()
                  end)
                   (with_trace w (trace w ++ [Console LevelInfo
                      (MsgSearching (query params) (project_path params))]))
                 = (Returned (), world_before_config params w)).
  { unfold world_before_config. by destruct (env_vars params). }
  rewrite Henv, bind_run, Hcfg.
  assert (Hdbg : ∃ w1', (if debugMode config
                         then log_debug (MsgSearchDetails (query params)
                                           (repository_context params))
                         else ret ()) w1 = (Returned (), w1')
                        ∧ search_value rank w1' (project_path params) (query params)
                            (repository_context params) (Some config)
                          = search_value rank w1 (project_path params) (query params)
                              (repository_context params) (Some config)).
  { destruct (debugMode config); eexists; split; reflexivity. }
  destruct Hdbg as (w1' & Hd & Hval). rewrite bind_run, Hd, bind_run.
  destruct (searchVectorStore _ _ _ _ w1') as [rs w3] eqn:Es.
  apply searchVectorStore_with_run in Es as (-> & _). by rewrite Hval.
Qed.

(** * The claims *)

Lemma search_failure_value ranker w projectPath query repositoryContext config e :
  search_failure w projectPath query config = Some e →
  search_value ranker w projectPath query repositoryContext config = [].
Proof.
  unfold search_failure, search_value.
  destruct (embedding_of w config query); [|done].
  destruct (path_exists w _) eqn:Ex.
  - by destruct (files w !! _) as [[]|].
  - by rewrite (path_exists_false _ _ Ex).
Qed.

(** C2, where the code departs from the claim. The claim wants an error
    description with the empty results whenever the embedding of the query
    or the read of the store fails, and [searchDependencyDocs] has a catch
    that builds one (search.ts, lines 62-69). It is never reached by such a
    failure: the catch of [searchVectorStore] (lines 377-380) takes every
    one of them, logs it on the console and returns an empty list, so
    [searchDependencyDocs] answers with empty results and no error - the
    answer of a search that found nothing. *)
Theorem search_failure_is_silent params w config w1 e :
  getConfig (project_path params) (world_before_config params w) = (Returned config, w1) →
  search_failure w1 (project_path params) (query params) (Some config) = Some e →
  let run := searchVectorStore (project_path params) (query params)
               (repository_context params) (Some config) w1 in
  run.1 = Returned []
  ∧ (∃ evs, trace run.2 = trace w1 ++ evs
            ∧ last evs = Some (Console LevelError (MsgErrorSearching e)))
  ∧ (searchDependencyDocs params w).1
    = Returned {| results := []; response_error := None |}.
Proof.
  intros Hcfg Hfail run.
  destruct run as [r w2] eqn:Erun. unfold run in Erun.
  apply searchVectorStore_with_run in Erun
    as (-> & _ & evs & Ht & _ & _ & _ & Hlast).
  cbn [fst snd]. rewrite (search_failure_value _ _ _ _ _ _ _ Hfail).
  split; [done|]. split; [exists evs; auto|].
  rewrite (searchDependencyDocs_run _ _ _ _ Hcfg).
  by rewrite (search_failure_value _ _ _ _ _ _ _ Hfail).
Qed.

(** C3 (amended). When the embedding of a chunk fails, [indexDocumentation]
    stops there, for every document: it throws; the error it throws is logged
    on the console, last of all; the embedder is called on no chunk after the
    failing one - neither of that document nor of a later one; nothing is
    written and every file is as it was. The storage directory is not as it
    was: it has been made by then, when it can be made. When the directory
    can be made, the store can be loaded and the chunk is the first that
    does not embed, the error thrown is the embedder's, and the embedder was
    called on the chunks up to that one and on no other. *)
Theorem embedding_failure_aborts_indexing
    projectPath dependency repository documents config w k d c e :
  work_of documents !! k = Some (d, c) →
  embedding_of w config c = Thrown e →
  let run := indexDocumentation projectPath dependency repository documents config w in
  let dir := path_join projectPath storage_dir_name in
  let texts := List.map snd (work_of documents) in
  ∃ e' evs,
    run.1 = Thrown e'
    ∧ trace run.2 = trace w ++ evs
    ∧ last evs = Some (Console LevelError (MsgErrorIndexing (dep_name dependency) e'))
    ∧ embed_calls evs `prefix_of` take (S k) texts
    ∧ List.filter is_write evs = []
    ∧ files run.2 = files w
    ∧ dirs run.2 = (if mkdir_ok dir then dirs w ∪ {[dir]} else dirs w)
    ∧ (mkdir_ok dir = true →
       store_loadable w projectPath →
       (∀ j d' c', (j < k)%nat → work_of documents !! j = Some (d', c') →
                   ∃ v, embedding_of w config c' = Returned v) →
       e' = e ∧ embed_calls evs = take (S k) texts).
Proof.
  intros Hk Hc run dir texts. destruct run as [r w'] eqn:Erun. unfold run in Erun.
  pose proof Erun as Hrun.
  apply indexDocumentation_run in Hrun as (evs & Ht & Hpre & Hr). cbn [fst snd].
  destruct (embed_all_fails_at (embedding_of w config) repository dependency
              (work_of documents) (stored_entries w (vector_store_path projectPath))
              k d c e Hk Hc) as [[e1 He1] Hpre'].
  assert (Hcalls : embed_calls evs `prefix_of` take (S k) texts)
    by (by etransitivity).
  destruct r as [[]|e0].
  { destruct Hr as (entries' & _ & Hloop & _). congruence. }
  assert (Hdone : files w' = files w ∧ List.filter is_write evs = []).
  { destruct e0; try done; destruct Hr as (entries' & _ & _ & Hloop & _); congruence. }
  destruct Hdone as [Hfiles Hwrite].
  apply indexDocumentation_thrown in Erun as (pre & Ht' & Hdirs & Hcase).
  rewrite Ht in Ht'. apply app_inv_head in Ht'. subst evs.
  exists e0, (pre ++ [Console LevelError (MsgErrorIndexing (dep_name dependency) e0)]).
  split; [done|]. split; [done|]. split; [apply last_snoc|].
  split; [done|]. split; [done|]. split; [done|]. split; [done|].
  intros Hmk Hload Hfirst. unfold dir in Hmk. cbv zeta in Hcase.
  destruct Hcase as [[_ Hno] | [[_ Hnot] | [[Hloop Hpre_c] | [_ [entries' Hloop]]]]];
    [congruence | done | | congruence].
  rewrite (embed_all_first_failure _ _ _ _ _ k d c e Hk Hc Hfirst) in Hloop, Hpre_c.
  cbn in Hloop, Hpre_c. injection Hloop as <-. split; [done|].
  by rewrite embed_calls_app, Hpre_c, app_nil_r.
Qed.

Lemma search_value_rank w projectPath query repositoryContext config :
  search_value rank w projectPath query repositoryContext config
  = take 5 (js_sort sort_compare
              (search_scored w projectPath query repositoryContext config)).
Proof.
  unfold search_value, search_scored, rank.
  destruct (embedding_of w config query); [|done].
  by destruct (files w !! _) as [[]|].
Qed.

(** C5 (amended). When no score is NaN, the list [searchVectorStore] returns
    is sorted non-increasing by [similarity_score], and the results of one
    score come in the order of their records in the store. *)
Theorem search_results_sorted projectPath query repositoryContext config w :
  numeric_scores (search_scored w projectPath query repositoryContext config) →
  ∃ rs, (searchVectorStore projectPath query repositoryContext config w).1 = Returned rs
        ∧ non_increasing rs
        ∧ ∀ s, ties_with s rs
               `prefix_of` ties_with s
                 (search_scored w projectPath query repositoryContext config).
Proof.
  intros Hnum.
  destruct (searchVectorStore _ _ _ _ w) as [r w'] eqn:Erun.
  apply searchVectorStore_with_run in Erun as (-> & _).
  eexists. split; [done|]. rewrite search_value_rank.
  revert Hnum. unfold search_scored.
  destruct (embedding_of w config query) as [queryEmbedding|];
    [|intros _; split; [constructor | done]].
  destruct (files w !! _) as [[store|]|]; try (intros _; split; [constructor | done]).
  intros Hnum. split.
  - by apply rank_non_increasing.
  - intros s. apply rank_stable.
Qed.

(** C7 (amended). Every result [searchVectorStore] returns is the score of a
    record of the loaded store: its [similarity_score] is the binary64 value
    of the dot product of the query embedding and the record's embedding
    (a [null] read as 0) over the product of the square roots of their
    squared norms, the sums running over the indices of the query embedding.
    In exact arithmetic, for vectors of one length with non-zero norms, that
    quotient lies between -1 and 1. *)
Theorem similarity_score_is_cosine :
  (∀ projectPath query repositoryContext config w r,
     (∃ rs, (searchVectorStore projectPath query repositoryContext config w).1
            = Returned rs ∧ r ∈ rs) →
     ∃ queryEmbedding store entry,
       embedding_of w config query = Returned queryEmbedding
       ∧ files w !! vector_store_path projectPath = Some (StoreFile store)
       ∧ entry ∈ entries store
       ∧ r = score_entry queryEmbedding entry)
  ∧ (∀ queryEmbedding entry,
       similarity_score (score_entry queryEmbedding entry)
       = let '(dotProduct, normA, normB) :=
           cosine_sums queryEmbedding (List.map to_number (embedding entry)) in
         (dotProduct / (PrimFloat.sqrt normA * PrimFloat.sqrt normB))%float)
  ∧ (∀ a b : list R,
       length a = length b → (0 < dot a a)%R → (0 < dot b b)%R →
       cosineSimilarity a b
       = (dot a b / (R_sqrt.sqrt (dot a a) * R_sqrt.sqrt (dot b b)))%R
       ∧ (-1 <= cosineSimilarity a b <= 1)%R).
Proof.
  split; [|split].
  - intros projectPath query repositoryContext config w r (rs & Hrun & Hr).
    destruct (searchVectorStore _ _ _ _ w) as [r0 w'] eqn:Erun.
    apply searchVectorStore_with_run in Erun as (-> & _). cbn in Hrun.
    injection Hrun as <-. unfold search_value in Hr.
    destruct (embedding_of w config query) as [queryEmbedding|];
      [|by apply elem_of_nil in Hr].
    destruct (files w !! _) as [[store|]|] eqn:Efile; try by apply elem_of_nil in Hr.
    apply rank_elem in Hr as (entry & Hentry & ->).
    by exists queryEmbedding, store, entry.
  - reflexivity.
  - apply cosineSimilarity_exact.
Qed.

(** C8. When nothing exists at the store's path, a search returns the empty
    list without throwing, whatever the ranking step would compute: the store
    is not read and nothing is written; and [searchDependencyDocs] answers
    with empty results and no error. *)
Theorem search_without_store ranker projectPath query repositoryContext config w :
  path_exists w (vector_store_path projectPath) = false →
  let run := searchVectorStore_with ranker projectPath query repositoryContext config w in
  run.1 = Returned []
  ∧ (searchVectorStore projectPath query repositoryContext config w).1 = Returned []
  ∧ files run.2 = files w
  ∧ (∃ evs, trace run.2 = trace w ++ evs
            ∧ List.filter is_read evs = [] ∧ List.filter is_write evs = [])
  ∧ (∀ params w0 cfg,
       project_path params = projectPath →
       getConfig projectPath (world_before_config params w0) = (Returned cfg, w) →
       (searchDependencyDocs params w0).1
       = Returned {| results := []; response_error := None |}).
Proof.
  intros Habsent run.
  assert (Hvalue : ∀ ranker' query' repositoryContext' config',
            search_value ranker' w projectPath query' repositoryContext' config' = []).
  { intros. unfold search_value. rewrite (path_exists_false _ _ Habsent).
    by destruct (embedding_of _ _ _). }
  destruct run as [r w'] eqn:Erun. unfold run in Erun.
  apply searchVectorStore_with_run in Erun
    as (-> & Hfiles & evs & Ht & _ & Hw & Hr & _).
  cbn [fst snd]. rewrite Hvalue. split; [done|]. split.
  { destruct (searchVectorStore _ _ _ _ w) as [r0 w0'] eqn:Erun0.
    apply searchVectorStore_with_run in Erun0 as (-> & _). by rewrite Hvalue. }
  split; [done|]. split; [exists evs; auto|].
  intros params w0 cfg <- Hcfg.
  by rewrite (searchDependencyDocs_run _ _ _ _ Hcfg), Hvalue.
Qed.

Lemma json_round_trip_exact v : json_exact v → json_round_trip v = v.
Proof. destruct v as [x|]; simpl; [|done]. by destruct (classify x). Qed.

Lemma json_round_trip_idempotent v :
  json_round_trip (json_round_trip v) = json_round_trip v.
Proof.
  destruct v as [x|]; [|done]. unfold json_round_trip at 2.
  destruct (classify x) eqn:E; try done; simpl; by rewrite ?E.
Qed.

Lemma persisted_entry_exact entry :
  Forall json_exact (embedding entry) → persisted_entry entry = entry.
Proof.
  destruct entry as [c emb m]. unfold persisted_entry. cbn. intros Hexact. f_equal.
  induction Hexact as [|v emb Hv _ IH]; cbn; [done|].
  by rewrite IH, json_round_trip_exact.
Qed.

Lemma persisted_entry_idempotent entry :
  persisted_entry (persisted_entry entry) = persisted_entry entry.
Proof.
  destruct entry as [c emb m]. unfold persisted_entry. cbn. f_equal.
  induction emb as [|v emb IH]; cbn; [done|].
  by rewrite IH, json_round_trip_idempotent.
Qed.

(** C9 (amended). After a run of [indexDocumentation] that returns, reading
    the store returns the records it held followed by one record per chunk
    of the run, in order, as JSON carries them: chunk text and metadata are
    those of the record, and so is every embedding value that is finite and
    not the negative zero (a NaN or an infinity comes back as [null], the
    negative zero as 0); what was persisted once is persisted unchanged. *)
Theorem index_then_load projectPath dependency repository documents config w :
  let run := indexDocumentation projectPath dependency repository documents config w in
  let p := vector_store_path projectPath in
  run.1 = Returned () →
  (∃ new,
     Forall2 (λ dc entry, ∃ v, embedding_of w config dc.2 = Returned v
                               ∧ entry = new_entry repository dependency dc.1 dc.2 v)
       (work_of documents) new
     ∧ (readJson p run.2).1
       = Returned {| entries := List.map persisted_entry (stored_entries w p)
                                ++ List.map persisted_entry new |})
  ∧ (∀ entry, chunk (persisted_entry entry) = chunk entry
              ∧ metadata (persisted_entry entry) = metadata entry
              ∧ length (embedding (persisted_entry entry)) = length (embedding entry)
              ∧ (Forall json_exact (embedding entry) → persisted_entry entry = entry)
              ∧ persisted_entry (persisted_entry entry) = persisted_entry entry).
Proof.
  intros run p Hret. split.
  - destruct run as [r w'] eqn:Erun. unfold run in Erun. cbn in Hret. subst r.
    apply indexDocumentation_run in Erun as (evs & _ & _ & entries' & _ & Hloop & Hfiles & _).
    apply embed_all_entries in Hloop as (new & -> & Hnew).
    exists new. split; [done|]. cbn [snd].
    unfold readJson, bind, emit. cbn [with_trace files]. fold p. rewrite Hfiles.
    rewrite lookup_insert_eq. cbn. unfold persisted. cbn. by rewrite List.map_app.
  - intros entry. repeat split.
    + unfold persisted_entry. cbn. by rewrite length_map.
    + apply persisted_entry_exact.
    + apply persisted_entry_idempotent.
Qed.

(** C10. A run of [indexDocumentation] writes the store at most once, and
    only after the embedder was called on every chunk of every document,
    with nothing but a console message after the write; when the run ends on
    a failure of the embedder, the files are as they were and nothing was
    written. *)
Theorem indexDocumentation_writes_once
    projectPath dependency repository documents config w :
  let run := indexDocumentation projectPath dependency repository documents config w in
  ∃ evs, trace run.2 = trace w ++ evs
    ∧ (List.filter is_write evs = []
       ∨ ∃ pre msg,
           evs = pre ++ [WriteJson (vector_store_path projectPath); msg]
           ∧ is_console msg = true
           ∧ List.filter is_write pre = []
           ∧ embed_calls pre = List.map snd (work_of documents))
    ∧ (∀ e, run.1 = Thrown e → is_embedding_failure e = true →
            files run.2 = files w ∧ List.filter is_write evs = []).
Proof.
  intros run. destruct run as [r w'] eqn:Erun. unfold run in Erun.
  apply indexDocumentation_run in Erun as (evs & Ht & _ & Hr). cbn [fst snd].
  exists evs. split; [done|]. split.
  - destruct r as [[]|e].
    + destruct Hr as (entries' & pre & _ & _ & -> & Hw & Hc). right. by eexists pre, _.
    + destruct e; try (left; apply Hr).
      destruct Hr as (entries' & pre & msg & _ & -> & Hw & Hc). right. by eexists pre, _.
  - intros e -> He. by destruct e.
Qed.

(** * Further properties of the search *)

Lemma model_name_with_chunksReturned config n :
  model_name (option_map (λ c, with_chunksReturned c n) config) = model_name config.
Proof. by destruct config. Qed.

Lemma search_value_with_chunksReturned ranker w projectPath query repositoryContext config n :
  search_value ranker w projectPath query repositoryContext
    (option_map (λ c, with_chunksReturned c n) config)
  = search_value ranker w projectPath query repositoryContext config.
Proof.
  unfold search_value, embedding_of, generator_of.
  by rewrite model_name_with_chunksReturned.
Qed.

(** The number of results is the number of matching records, capped at
    five; setting [chunksReturned] to any value leaves the results as they
    are. *)
Theorem search_result_count projectPath query repositoryContext config w n :
  ∃ rs, (searchVectorStore projectPath query repositoryContext config w).1 = Returned rs
        ∧ length rs
          = Nat.min 5 (length (search_scored w projectPath query repositoryContext config))
        ∧ (searchVectorStore projectPath query repositoryContext
             (option_map (λ c, with_chunksReturned c n) config) w).1 = Returned rs.
Proof.
  destruct (searchVectorStore _ _ _ config w) as [r w'] eqn:Erun.
  apply searchVectorStore_with_run in Erun as (-> & _).
  eexists. split; [done|]. split.
  - by rewrite search_value_rank, length_take, js_sort_length.
  - destruct (searchVectorStore _ _ _ (option_map _ _) w) as [r w''] eqn:Erun.
    apply searchVectorStore_with_run in Erun as (-> & _). cbn.
    by rewrite search_value_with_chunksReturned.
Qed.

(** A search always returns, whatever the world it runs in; it leaves every
    file as it was and never writes; and it calls the embedder exactly once,
    on the query, also when there is no store to search. *)
Theorem search_is_read_only projectPath query repositoryContext config w :
  let run := searchVectorStore projectPath query repositoryContext config w in
  (∃ rs, run.1 = Returned rs)
  ∧ files run.2 = files w
  ∧ ∃ evs, trace run.2 = trace w ++ evs
           ∧ embed_calls evs = [query]
           ∧ List.filter is_write evs = [].
Proof.
  intros run. destruct run as [r w'] eqn:Erun. unfold run in Erun.
  apply searchVectorStore_with_run in Erun as (-> & Hf & evs & Ht & Hc & Hw & _).
  cbn. split; [by eexists|]. split; [done|]. by exists evs.
Qed.

Lemma starts_with_spec s sub : starts_with s sub = true ↔ ∃ post, s = sub ++ post.
Proof.
  revert s. induction sub as [|c sub IH]; intros s.
  - split; [by exists s | by destruct s].
  - destruct s as [|d s]; cbn; [split; [done | by intros [post ?]]|].
    rewrite andb_true_iff, N.eqb_eq, IH. split.
    + intros [-> [post ->]]. by exists post.
    + intros [post [= -> ->]]. split; [done | by exists post].
Qed.

(** [includes] is [String.prototype.includes]: [sub] occurs in [s]. *)
Lemma includes_spec s sub : includes s sub = true ↔ ∃ pre post, s = pre ++ sub ++ post.
Proof.
  induction s as [|d s IH]; cbn [includes]; rewrite orb_true_iff, starts_with_spec.
  - split.
    + intros [[post ->]|]; [by exists [], post | done].
    + intros (pre & post & H). left.
      destruct pre; [by exists post | done].
  - rewrite IH. split.
    + intros [[post ->]|(pre & post & ->)]; [by exists [], post | by exists (d :: pre), post].
    + intros ([|c pre] & post & H); [left; by exists post|].
      right. injection H as _ ->. by exists pre, post.
Qed.

(** With a non-empty repository context, the context occurs in the
    repository URL or in the file path of every result. Without a context,
    or with the empty string for one, the results are those of the whole
    store. *)
Theorem search_respects_context projectPath query repositoryContext config w rs :
  (searchVectorStore projectPath query repositoryContext config w).1 = Returned rs →
  match repositoryContext with
  | Some (c :: ctx) =>
      ∀ r, r ∈ rs →
        (∃ pre post, source_repository r = pre ++ (c :: ctx) ++ post)
        ∨ (∃ pre post, source_file r = pre ++ (c :: ctx) ++ post)
  | _ => (searchVectorStore projectPath query None config w).1 = Returned rs
  end.
Proof.
  destruct (searchVectorStore _ _ repositoryContext _ w) as [r0 w'] eqn:Erun.
  apply searchVectorStore_with_run in Erun as (-> & _). cbn. intros [= <-].
  destruct repositoryContext as [[|c ctx]|].
  - destruct (searchVectorStore _ _ None _ w) as [r0 w''] eqn:Erun.
    by apply searchVectorStore_with_run in Erun as (-> & _).
  - intros r. rewrite search_value_rank. intros Hr.
    apply (sublist_subseteq _ _ (sublist_take _ 5)) in Hr.
    rewrite js_sort_elem in Hr. revert Hr. unfold search_scored.
    destruct (embedding_of w config query); [|by intros ?%elem_of_nil].
    destruct (files w !! _) as [[store|]|]; try by intros ?%elem_of_nil.
    unfold scored_results, filter_by_context. cbn [truthy].
    intros Hr%list_elem_of_In%filter_In. destruct Hr as [_ Hr].
    apply orb_true_iff in Hr. by rewrite !includes_spec in Hr.
  - destruct (searchVectorStore _ _ None _ w) as [r0 w''] eqn:Erun.
    by apply searchVectorStore_with_run in Erun as (-> & _).
Qed.

(** Without NaN scores the results are the best matches: the matching
    records are the results and the rest, and no record of the rest scores
    above a result. *)
Theorem search_returns_best projectPath query repositoryContext config w :
  numeric_scores (search_scored w projectPath query repositoryContext config) →
  ∃ rs rest,
    (searchVectorStore projectPath query repositoryContext config w).1 = Returned rs
    ∧ rs ++ rest ≡ₚ search_scored w projectPath query repositoryContext config
    ∧ ∀ r r', r ∈ rs → r' ∈ rest →
        (similarity_score r' <=? similarity_score r)%float = true.
Proof.
  intros Hnum.
  destruct (searchVectorStore _ _ _ _ w) as [r0 w'] eqn:Erun.
  apply searchVectorStore_with_run in Erun as (-> & _).
  set (scored := search_scored w projectPath query repositoryContext config) in *.
  exists (take 5 (js_sort sort_compare scored)), (drop 5 (js_sort sort_compare scored)).
  split; [by rewrite search_value_rank|].
  rewrite take_drop. split; [apply js_sort_perm|].
  pose proof (js_sort_sorted sort_compare _ (sort_compare_orders _ Hnum)) as Hs.
  assert (Hnum' : numeric_scores (js_sort sort_compare scored)).
  { unfold numeric_scores in *. by rewrite js_sort_perm. }
  revert Hs Hnum'. generalize (js_sort sort_compare scored). intros l.
  generalize 5%nat. intros k Hs. revert k.
  induction Hs as [|x l Hs IH Hx]; intros k Hnum' r r'.
  - rewrite take_nil. by intros ?%elem_of_nil.
  - inversion Hnum' as [|? ? Nx Nl]; subst.
    destruct k as [|k]; [by intros ?%elem_of_nil|]. cbn [take drop].
    intros [->|Hr]%elem_of_cons Hr'; [|by apply (IH k)].
    rewrite Forall_forall in Hx, Nl.
    assert (Hin : r' ∈ l) by (by apply (sublist_subseteq _ _ (sublist_drop l k))).
    apply sort_compare_not_gt; auto.
Qed.

(** [searchDependencyDocs] never throws. Its answer carries an error exactly
    when [getConfig] throws, and then the error is that of [getConfig] and
    the model was not run. *)
Theorem search_error_is_config_error params w :
  let run := searchDependencyDocs params w in
  match (getConfig (project_path params) (world_before_config params w)).1 with
  | Returned config =>
      ∃ rs, run.1 = Returned {| results := rs; response_error := None |}
  | Thrown e =>
      run.1 = Returned {| results := []; response_error := Some e |}
      ∧ embed_calls (trace run.2)
        = embed_calls (trace (getConfig (project_path params)
                                (world_before_config params w)).2)
  end.
Proof.
  intros run.
  destruct (getConfig _ _) as [[config|e] w1] eqn:Hcfg; cbn [fst].
  - eexists. unfold run. by rewrite (searchDependencyDocs_run _ _ _ _ Hcfg).
  - assert (Henv : (match env_vars params with
                    | Some vars => set_env_vars vars
                    | None => ret ()
                    end)
                     (with_trace w (trace w ++ [Console LevelInfo
                        (MsgSearching (query params) (project_path params))]))
                   = (Returned (), world_before_config params w)).
    { unfold world_before_config. by destruct (env_vars params). }
    assert (Hrun : run = (Returned {| results := []; response_error := Some e |},
                          with_trace w1
                            (trace w1 ++ [Console LevelError
                                            (MsgErrorPerformingSearch e)]))).
    { unfold run, searchDependencyDocs, try_catch. rewrite bind_run.
      unfold log_info at 1, emit at 1. by rewrite bind_run, Henv, bind_run, Hcfg. }
    rewrite Hrun. cbn. split; [done|]. by rewrite embed_calls_app, app_nil_r.
Qed.


(** A load that fails is not remembered: the next call tries again. *)
Theorem failed_load_is_retried text config w :
  embeddingGeneratorCache w = None →
  pipeline (model_name config) = None →
  let run := generateEmbedding text config w in
  run.1 = Thrown (PipelineError (model_name config))
  ∧ embeddingGeneratorCache run.2 = None
  ∧ ∀ text' config',
      ∃ evs, trace (generateEmbedding text' config' run.2).2
             = trace run.2 ++ [Embed text'; LoadModel (model_name config')] ++ evs.
Proof.
  intros Hcache Hpipe.
  unfold generateEmbedding, load_generator, bind, emit, ret, throw.
  cbn [embeddingGeneratorCache with_trace trace]. rewrite Hcache, Hpipe. cbn.
  split; [done|]. split; [done|]. intros text' config'. rewrite Hcache.
  destruct (pipeline (model_name config')) as [g|]; cbn;
    [destruct (g text')|]; cbn; exists []; by rewrite <- app_assoc.
Qed.

(** * Further properties of indexing *)

(** A run in which the directory can be made, the store can be loaded, every
    chunk embeds and the write succeeds. *)
Lemma indexDocumentation_succeeds projectPath dependency repository documents config w entries' :
  let p := vector_store_path projectPath in
  let dir := path_join projectPath storage_dir_name in
  mkdir_ok dir = true →
  store_loadable w projectPath →
  (embed_all (embedding_of w config) repository dependency (work_of documents)
     (stored_entries w p)).1 = Returned entries' →
  write_outcome p = WriteOk →
  ∃ w', indexDocumentation projectPath dependency repository documents config w
        = (Returned (), w')
        ∧ files w' = <[p := StoreFile (persisted {| entries := entries' |})]> (files w)
        ∧ dirs w' = dirs w ∪ {[dir]}
        ∧ generator_of w' config = generator_of w config
        ∧ last (trace w')
          = Some (Console LevelLog (MsgIndexed (length documents) (length entries')
                                      (dep_name dependency))).
Proof.
  intros p dir Hmk Hload Hloop Hwrite.
  unfold indexDocumentation. rewrite rethrow_run.
  fold (vector_store_path projectPath). fold p. fold dir.
  rewrite bind_run. unfold console_log at 1, emit at 1.
  rewrite bind_run. unfold ensureDir at 1. rewrite bind_run. unfold emit at 1.
  cbn [with_trace trace]. rewrite Hmk.
  set (w1 := with_dirs _ _).
  rewrite bind_run. unfold pathExists at 1. rewrite bind_run. unfold emit at 1.
  fold (path_exists (with_trace w1 (trace w1 ++ [PathExists p])) p).
  set (w2 := with_trace w1 _).
  assert (Hfiles2 : files w2 = files w) by done.
  assert (Hdirs2 : dirs w2 = dirs w ∪ {[dir]}) by done.
  assert (Hgen2 : generator_of w2 config = generator_of w config) by done.
  rewrite bind_run.
  assert (Hl : ∃ vs wl,
    (if path_exists w2 p then readJson p else ret {| entries := [] |}) w2
    = (Returned vs, wl)
    ∧ entries vs = stored_entries w p
    ∧ files wl = files w ∧ dirs wl = dirs w ∪ {[dir]}
    ∧ generator_of wl config = generator_of w config).
  { unfold store_loadable in Hload. fold p in Hload. unfold stored_entries.
    unfold path_exists. rewrite Hfiles2, Hdirs2.
    destruct (files w !! p) as [[store|]|] eqn:Efile; [| done |].
    - rewrite bool_decide_eq_true_2 by (by eexists). cbn [orb].
      unfold readJson, bind, emit. cbn [with_trace files trace].
      rewrite Hfiles2, Efile. by eexists _, _.
    - destruct Hload as [Hnd Hne].
      rewrite bool_decide_eq_false_2 by apply is_Some_None.
      rewrite bool_decide_eq_false_2
        by (by intros [?|?%elem_of_singleton]%elem_of_union).
      cbn [orb]. by eexists _, _. }
  destruct Hl as (vs & wl & -> & Hvs & Hfl & Hdl & Hgl).
  rewrite bind_run.
  destruct (for_each documents _ (entries vs) wl) as [r3 w3] eqn:E3.
  apply index_documents_run in E3 as (-> & Hf3 & Hd3 & Hg3 & ev3 & Ht3 & _).
  rewrite (embedding_of_generator _ _ _ Hgl), Hvs, Hloop.
  rewrite bind_run. unfold writeJson at 1. rewrite bind_run. unfold emit at 1.
  cbn [with_trace files trace]. rewrite Hwrite.
  unfold console_log, emit. cbn.
  eexists. split; [done|]. cbn. rewrite Hf3, Hfl, Hd3, Hdl.
  split; [done|]. split; [done|]. split; [by rewrite <- Hgl, <- Hg3|].
  by rewrite last_snoc.
Qed.

Lemma embed_all_succeeds embed repository dependency work entries :
  all_embed embed work →
  (embed_all embed repository dependency work entries).1
  = Returned (entries ++ indexed_entries embed repository dependency work).
Proof.
  intros Hall. revert entries.
  induction Hall as [|[d c] work [v Hv] _ IH]; intros entries; cbn [embed_all].
  - by rewrite app_nil_r.
  - cbn in Hv. rewrite Hv.
    specialize (IH (entries ++ [new_entry repository dependency d c v])).
    destruct (embed_all _ _ _ work _) as [r t]. cbn in *. rewrite IH, Hv.
    by rewrite <- app_assoc.
Qed.

Lemma chunks_not_blank document minSize maxSize :
  Forall (λ c, truthy (trim c) = true) (splitIntoChunks document minSize maxSize).
Proof.
  unfold splitIntoChunks, chunk_document.
  pose proof (splits_inv minSize maxSize (headerSplits document) _ _
                (chunker_inv_init minSize)) as [_ Hk _].
  eapply Forall_impl; [exact Hk|]. intros c Hc. cbn in Hc.
  destruct (trim c) eqn:Et; [|done]. by apply trim_nil in Et.
Qed.

Lemma persisted_entries_idempotent l :
  List.map persisted_entry (List.map persisted_entry l) = List.map persisted_entry l.
Proof.
  rewrite List.map_map. apply List.map_ext, persisted_entry_idempotent.
Qed.

Lemma filter_all {A} (P : A → bool) (l : list A) :
  Forall (λ x, P x = true) l → List.filter P l = l.
Proof. induction 1 as [|x l Hx _ IH]; cbn; [done|]. by rewrite Hx, IH. Qed.

Lemma work_of_all_chunks documents : work_of documents = all_chunks documents.
Proof.
  unfold work_of, all_chunks. induction documents as [|d documents IH]; cbn; [done|].
  by rewrite IH, (filter_all _ _ (chunks_not_blank d _ _)).
Qed.

(** The test [if (!chunk.trim()) continue] of [indexDocumentation] never
    fires: every chunk [splitIntoChunks] returns holds a character that is
    not white space, so every chunk of every document is embedded. *)
Theorem every_chunk_is_embedded documents :
  work_of documents = all_chunks documents
  ∧ ∀ document minSize maxSize c,
      c ∈ splitIntoChunks document minSize maxSize → trim c ≠ [].
Proof.
  split; [apply work_of_all_chunks|].
  intros document minSize maxSize c Hc.
  pose proof (chunks_not_blank document minSize maxSize) as Hall.
  rewrite Forall_forall in Hall. specialize (Hall c Hc). by destruct (trim c).
Qed.

(** When the directory can be made, the store can be loaded, every chunk
    embeds and the write succeeds, [indexDocumentation] returns; the store
    then holds what it held followed by one record per chunk, as JSON
    carries them; and the count of chunks in the summary it logs is that of
    the whole store, old records included. *)
Theorem indexing_succeeds projectPath dependency repository documents config w :
  let p := vector_store_path projectPath in
  mkdir_ok (path_join projectPath storage_dir_name) = true →
  store_loadable w projectPath →
  all_embed (embedding_of w config) (all_chunks documents) →
  write_outcome p = WriteOk →
  let run := indexDocumentation projectPath dependency repository documents config w in
  run.1 = Returned ()
  ∧ stored_entries run.2 p
    = List.map persisted_entry
        (stored_entries w p
         ++ indexed_entries (embedding_of w config) repository dependency
              (all_chunks documents))
  ∧ last (trace run.2)
    = Some (Console LevelLog
              (MsgIndexed (length documents)
                 (length (stored_entries w p) + length (all_chunks documents))
                 (dep_name dependency))).
Proof.
  intros p Hmk Hload Hall Hwrite run.
  pose proof (work_of_all_chunks documents) as Hwork.
  rewrite <- Hwork in *.
  destruct (indexDocumentation_succeeds projectPath dependency repository documents
              config w _ Hmk Hload
              (embed_all_succeeds _ repository dependency _ (stored_entries w p) Hall)
              Hwrite) as (w' & Hrun & Hf & _ & _ & Hlast).
  unfold run. rewrite Hrun. cbn [fst snd]. split; [done|]. split.
  - unfold stored_entries at 1. fold p. by rewrite Hf, lookup_insert_eq.
  - rewrite Hlast. unfold indexed_entries. by rewrite length_app, length_map.
Qed.

(** Indexing is not idempotent: a second run on the same documents returns
    as the first did and stores every record of the run a second time. *)
Theorem indexing_twice_duplicates projectPath dependency repository documents config w :
  let p := vector_store_path projectPath in
  mkdir_ok (path_join projectPath storage_dir_name) = true →
  store_loadable w projectPath →
  all_embed (embedding_of w config) (all_chunks documents) →
  write_outcome p = WriteOk →
  let run1 := indexDocumentation projectPath dependency repository documents config w in
  let run2 := indexDocumentation projectPath dependency repository documents config
                run1.2 in
  let new := indexed_entries (embedding_of w config) repository dependency
               (all_chunks documents) in
  run2.1 = Returned ()
  ∧ stored_entries run2.2 p
    = List.map persisted_entry (stored_entries w p ++ new ++ new).
Proof.
  intros p Hmk Hload Hall Hwrite run1 run2 new.
  pose proof (work_of_all_chunks documents) as Hwork.
  unfold new. rewrite <- Hwork in *.
  destruct (indexDocumentation_succeeds projectPath dependency repository documents
              config w _ Hmk Hload
              (embed_all_succeeds _ repository dependency _ (stored_entries w p) Hall)
              Hwrite) as (w1 & Hrun1 & Hf1 & _ & Hg1 & _).
  unfold run2, run1. rewrite Hrun1. cbn [snd].
  assert (Hstored1 : stored_entries w1 p
                     = List.map persisted_entry
                         (stored_entries w p
                          ++ indexed_entries (embedding_of w config) repository
                               dependency (work_of documents))).
  { unfold stored_entries at 1. fold p. by rewrite Hf1, lookup_insert_eq. }
  assert (Hload1 : store_loadable w1 projectPath).
  { unfold store_loadable. fold p. by rewrite Hf1, lookup_insert_eq. }
  assert (Hemb : embedding_of w1 config = embedding_of w config)
    by (by apply embedding_of_generator).
  assert (Hall1 : all_embed (embedding_of w1 config) (work_of documents))
    by (by rewrite Hemb).
  destruct (indexDocumentation_succeeds projectPath dependency repository documents
              config w1 _ Hmk Hload1
              (embed_all_succeeds _ repository dependency _ (stored_entries w1 p) Hall1)
              Hwrite) as (w2 & Hrun2 & Hf2 & _).
  rewrite Hrun2. cbn [fst snd]. split; [done|].
  unfold stored_entries at 1. fold p. rewrite Hf2, lookup_insert_eq. cbn.
  rewrite Hstored1, Hemb, !List.map_app, !persisted_entries_idempotent.
  by rewrite <- app_assoc.
Qed.

(** When the storage directory cannot be made, the run stops there: it logs
    the failure and rethrows it, and apart from the log the world is as it
    was - the embedder is not called and nothing is read or written. *)
Theorem mkdir_failure_stops_indexing projectPath dependency repository documents config w :
  let dir := path_join projectPath storage_dir_name in
  mkdir_ok dir = false →
  indexDocumentation projectPath dependency repository documents config w
  = (Thrown (MkdirError dir),
     with_trace w
       (trace w ++ [Console LevelLog (MsgIndexing (dep_name dependency));
                    EnsureDir dir;
                    Console LevelError
                      (MsgErrorIndexing (dep_name dependency) (MkdirError dir))])).
Proof.
  intros dir Hmk. unfold indexDocumentation. rewrite rethrow_run. fold dir.
  rewrite bind_run. unfold console_log at 1, emit at 1.
  rewrite bind_run. unfold ensureDir at 1. rewrite bind_run. unfold emit at 1.
  cbn [with_trace trace]. rewrite Hmk. cbn. by rewrite <- !app_assoc.
Qed.

(** A store file that cannot be parsed blocks indexing: the run throws the
    read error before the embedder is called, and the file is left as it
    is. *)
Theorem corrupt_store_blocks_indexing
    projectPath dependency repository documents config w :
  let p := vector_store_path projectPath in
  let dir := path_join projectPath storage_dir_name in
  mkdir_ok dir = true →
  files w !! p = Some Unreadable →
  let run := indexDocumentation projectPath dependency repository documents config w in
  run.1 = Thrown (ReadError p)
  ∧ files run.2 = files w
  ∧ trace run.2
    = trace w ++ [Console LevelLog (MsgIndexing (dep_name dependency));
                  EnsureDir dir; PathExists p; ReadJson p;
                  Console LevelError
                    (MsgErrorIndexing (dep_name dependency) (ReadError p))].
Proof.
  intros p dir Hmk Hfile run.
  assert (Hrun : ∃ w', run = (Thrown (ReadError p), w')
                       ∧ files w' = files w
                       ∧ trace w'
                         = trace w ++ [Console LevelLog (MsgIndexing (dep_name dependency));
                                       EnsureDir dir; PathExists p; ReadJson p;
                                       Console LevelError
                                         (MsgErrorIndexing (dep_name dependency)
                                            (ReadError p))]).
  { unfold run, indexDocumentation. rewrite rethrow_run.
    fold (vector_store_path projectPath). fold p. fold dir.
    rewrite bind_run. unfold console_log at 1, emit at 1.
    rewrite bind_run. unfold ensureDir at 1. rewrite bind_run. unfold emit at 1.
    cbn [with_trace trace]. rewrite Hmk.
    rewrite bind_run. unfold pathExists at 1. rewrite bind_run. unfold emit at 1.
    cbn [with_trace with_dirs files dirs trace]. rewrite Hfile.
    rewrite bool_decide_eq_true_2 by (by eexists). cbn [orb].
    rewrite bind_run. unfold readJson at 1. rewrite bind_run. unfold emit at 1.
    cbn [with_trace with_dirs files dirs trace]. rewrite Hfile.
    eexists. split; [done|]. cbn. split; [done|]. by rewrite <- !app_assoc. }
  destruct Hrun as (w' & -> & Hf & Ht). by cbn.
Qed.

(** Indexing, then searching: after a run that succeeds, a search of the
    same project ranks the records of the old store and of the run, as JSON
    carries them, against the embedding the model of the run gives the
    query, provided none of these records scores NaN against it; it returns
    nothing when the query does not embed. *)
Theorem index_then_search
    projectPath dependency repository documents config w query repositoryContext :
  let p := vector_store_path projectPath in
  mkdir_ok (path_join projectPath storage_dir_name) = true →
  store_loadable w projectPath →
  all_embed (embedding_of w config) (all_chunks documents) →
  write_outcome p = WriteOk →
  let run := indexDocumentation projectPath dependency repository documents config w in
  let store :=
    {| entries := List.map persisted_entry
                    (stored_entries w p
                     ++ indexed_entries (embedding_of w config) repository dependency
                          (all_chunks documents)) |} in
  (∀ queryEmbedding,
     embedding_of w config query = Returned queryEmbedding →
     numeric_scores (scored_results queryEmbedding store repositoryContext)) →
  (searchVectorStore projectPath query repositoryContext config run.2).1
  = Returned match embedding_of w config query with
             | Returned queryEmbedding => rank queryEmbedding store repositoryContext
             | Thrown _ => []
             end.
Proof.
  intros p Hmk Hload Hall Hwrite run store _.
  pose proof (work_of_all_chunks documents) as Hwork.
  unfold store. rewrite <- Hwork in *.
  destruct (indexDocumentation_succeeds projectPath dependency repository documents
              config w _ Hmk Hload
              (embed_all_succeeds _ repository dependency _ (stored_entries w p) Hall)
              Hwrite) as (w1 & Hrun1 & Hf1 & _ & Hg1 & _).
  unfold run. rewrite Hrun1. cbn [snd].
  destruct (searchVectorStore _ _ _ _ w1) as [r w2] eqn:Es.
  apply searchVectorStore_with_run in Es as (-> & _). cbn [fst]. f_equal.
  unfold search_value. rewrite (embedding_of_generator _ _ _ Hg1).
  destruct (embedding_of w config query); [|done].
  fold p. by rewrite Hf1, lookup_insert_eq.
Qed.

(** Of the configuration, indexing and search read the name of the model
    and nothing else: two configurations that name the same model - whatever
    their chunk sizes, their number of chunks to return or their storage
    directory - give the same run. *)
Theorem config_only_names_the_model (c c' : Config) :
  embeddingModel c = embeddingModel c' →
  (∀ projectPath dependency repository documents,
     indexDocumentation projectPath dependency repository documents (Some c)
     = indexDocumentation projectPath dependency repository documents (Some c'))
  ∧ (∀ projectPath query repositoryContext,
       searchVectorStore projectPath query repositoryContext (Some c)
       = searchVectorStore projectPath query repositoryContext (Some c')).
Proof.
  intros Hmodel. split; intros.
  - unfold indexDocumentation, index_document, index_chunk, generateEmbedding,
      load_generator, model_name. by rewrite Hmodel.
  - unfold searchVectorStore, searchVectorStore_with, generateEmbedding,
      load_generator, model_name. by rewrite Hmodel.
Qed.

(** * Further properties of the chunker *)

Lemma starts_clean_trimStart s : starts_clean (trimStart s).
Proof.
  induction s as [|c s IH]; cbn; [done|].
  by destruct (is_white_space c) eqn:E.
Qed.

Lemma trimStart_clean s : starts_clean s → trimStart s = s.
Proof. destruct s as [|c s]; cbn; [done|]. by intros ->. Qed.

Lemma trimStart_app_clean l c r :
  is_white_space c = false → trimStart (l ++ c :: r) = trimStart l ++ c :: r.
Proof.
  intros Hc. induction l as [|a l IH]; cbn; [by rewrite Hc|].
  by destruct (is_white_space a).
Qed.

Lemma trimmed_trim s : trimmed (trim s).
Proof.
  unfold trimmed, trim, trimEnd. rewrite rev_involutive. split.
  - pose proof (starts_clean_trimStart s) as Hs.
    destruct (trimStart s) as [|c t]; [done|]. cbn in Hs. cbn [rev].
    by rewrite trimStart_app_clean, rev_app_distr.
  - apply starts_clean_trimStart.
Qed.

Lemma trim_trimmed s : trimmed s → trim s = s.
Proof.
  intros [Hs He]. unfold trim, trimEnd.
  by rewrite (trimStart_clean _ Hs), (trimStart_clean _ He), rev_involutive.
Qed.

Lemma trimmed_join a m b : a ≠ [] → b ≠ [] → trimmed a → trimmed b → trimmed (a ++ m ++ b).
Proof.
  intros Ha Hb [Ha1 _] [_ Hb2]. split.
  - by destruct a.
  - rewrite !rev_app_distr. destruct (rev b) eqn:E; [|done].
    apply (f_equal (@rev N)) in E. by rewrite rev_involutive in E.
Qed.

Lemma length_trimStart s : (length (trimStart s) <= length s)%nat.
Proof.
  induction s as [|c s IH]; cbn; [done|]. destruct (is_white_space c); cbn; lia.
Qed.

Lemma len_trim s : len (trim s) <= len s.
Proof.
  unfold len, trim, trimEnd. rewrite length_rev.
  pose proof (length_trimStart (rev (trimStart s))) as H1.
  pose proof (length_trimStart s) as H2. rewrite length_rev in H1. lia.
Qed.

(** A property [Q] of every chunk, shown through a property [B] of the
    paragraph buffer of a section. *)
Section ChunkInvariant.
Variables minSize maxSize : Z.
Variable sections : list jsstring.
Variable Q : jsstring → Prop.
Variable B : jsstring → jsstring → Prop.
Hypothesis Q_section : ∀ split,
  split ∈ sections → nonws split ≠ [] → len split <= maxSize → Q (trim split).
Hypothesis Q_merge : ∀ lastChunk split,
  Q lastChunk → nonws split ≠ [] →
  len lastChunk + len split <= maxSize → Q (lastChunk ++ blank_line ++ trim split).
Hypothesis B_first : ∀ split paragraph,
  split ∈ sections → paragraph ∈ paragraphs_of split → nonws paragraph ≠ [] →
  B split paragraph.
Hypothesis B_extend : ∀ split currentChunk paragraph,
  B split currentChunk → currentChunk ≠ [] → nonws paragraph ≠ [] →
  len currentChunk + len paragraph <= maxSize →
  B split (currentChunk ++ blank_line ++ paragraph).
Hypothesis Q_flush : ∀ split currentChunk, B split currentChunk → Q (trim currentChunk).

Lemma flush_chunks st split currentChunk :
  Forall Q (chunks st) → currentChunk = [] ∨ B split currentChunk →
  Forall Q (chunks (flush minSize st currentChunk)).
Proof using Q_flush.
  intros Hst Hcur. unfold flush. destruct currentChunk as [|c cur]; [done|].
  destruct Hcur as [|Hcur]; [done|]. cbn [truthy].
  destruct (minSize <=? len (c :: cur)); [|done].
  cbn [push chunks]. apply Forall_app. split; [done|]. repeat constructor.
  by eapply Q_flush.
Qed.

Lemma paragraph_step_chunks split paragraph st currentChunk :
  split ∈ sections → paragraph ∈ paragraphs_of split →
  Forall Q (chunks st) → currentChunk = [] ∨ B split currentChunk →
  Forall Q (chunks (paragraph_step minSize maxSize (st, currentChunk) paragraph).1)
  ∧ ((paragraph_step minSize maxSize (st, currentChunk) paragraph).2 = []
     ∨ B split (paragraph_step minSize maxSize (st, currentChunk) paragraph).2).
Proof using Q_flush B_first B_extend.
  intros Hsplit Hin Hst Hcur. unfold paragraph_step.
  destruct (length (trim paragraph) =? 0)%nat eqn:Eblank; [done|].
  assert (Hp : nonws paragraph ≠ []).
  { intros Hp. apply trim_length_0 in Hp. congruence. }
  assert (Hfirst : B split paragraph) by (by apply B_first).
  destruct (len currentChunk + len paragraph <=? maxSize) eqn:Efit; cbn [fst snd].
  - split; [done|]. right. destruct currentChunk as [|c cur]; [done|]. cbn [truthy].
    destruct Hcur as [|Hcur]; [done|]. apply B_extend; [done..|lia].
  - split; [by eapply flush_chunks | by right].
Qed.

Lemma paragraphs_chunks split paragraphs st currentChunk :
  split ∈ sections → (∀ p, p ∈ paragraphs → p ∈ paragraphs_of split) →
  Forall Q (chunks st) → currentChunk = [] ∨ B split currentChunk →
  Forall Q (chunks (fold_left (paragraph_step minSize maxSize) paragraphs
                      (st, currentChunk)).1)
  ∧ ((fold_left (paragraph_step minSize maxSize) paragraphs (st, currentChunk)).2 = []
     ∨ B split (fold_left (paragraph_step minSize maxSize) paragraphs
                  (st, currentChunk)).2).
Proof using Q_flush B_first B_extend.
  intros Hsplit. revert st currentChunk.
  induction paragraphs as [|paragraph paragraphs IH]; intros st cur Hin Hst Hcur; [done|].
  cbn [fold_left].
  destruct (paragraph_step_chunks split paragraph st cur Hsplit
              (Hin _ (list_elem_of_here _ _)) Hst Hcur) as [Hst1 Hcur1].
  destruct (paragraph_step minSize maxSize (st, cur) paragraph) as [st1 cur1].
  apply IH; [|done..]. intros p Hp. apply Hin. by right.
Qed.

Lemma split_step_chunks st split :
  split ∈ sections → Forall Q (chunks st) →
  Forall Q (chunks (split_step minSize maxSize st split)).
Proof using Q_section Q_merge Q_flush B_first B_extend.
  intros Hsplit Hst. unfold split_step.
  destruct (length (trim split) =? 0)%nat eqn:Eblank; [done|].
  assert (Hs : nonws split ≠ []).
  { intros Hs. apply trim_length_0 in Hs. congruence. }
  assert (Hpush : len split <= maxSize → Forall Q (chunks (push st (trim split)))).
  { intros Hfit. cbn [push chunks]. apply Forall_app. split; [done|]. repeat constructor.
    by apply Q_section. }
  destruct (len split <=? maxSize) eqn:Efit.
  - destruct (minSize <=? len split); [apply Hpush; lia|].
    destruct (last (chunks st)) as [lastChunk|] eqn:Elast; [|apply Hpush; lia].
    destruct (truthy lastChunk && (len lastChunk + len split <=? maxSize)) eqn:Eguard;
      [|apply Hpush; lia].
    apply andb_true_iff in Eguard as [_ Eguard].
    apply last_Some in Elast as [cs Ecs]. rewrite Ecs in Hst.
    apply Forall_app in Hst as [Hcs Hlast]. inversion Hlast; subst.
    cbn [set_last chunks]. rewrite Ecs, removelast_last.
    apply Forall_app. split; [done|].
    repeat constructor. apply Q_merge; [done..|lia].
  - pose proof (paragraphs_chunks split (paragraphs_of split) st [] Hsplit
                  (λ _ H, H) Hst (or_introl eq_refl)) as [Hst' Hcur'].
    unfold paragraphs_of in *.
    destruct (fold_left _ _ _) as [st' cur']. by eapply flush_chunks.
Qed.

Lemma splits_chunks splits st :
  (∀ s, s ∈ splits → s ∈ sections) → Forall Q (chunks st) →
  Forall Q (chunks (fold_left (split_step minSize maxSize) splits st)).
Proof using Q_section Q_merge Q_flush B_first B_extend.
  revert st. induction splits as [|s splits IH]; intros st Hin Hst; [done|].
  cbn [fold_left]. apply IH; [intros s' Hs'; apply Hin; by right|].
  apply split_step_chunks; [apply Hin; left | done].
Qed.
End ChunkInvariant.

Lemma len_app s t : len (s ++ t) = len s + len t.
Proof. unfold len. rewrite length_app. lia. Qed.

(** No chunk is empty, and no chunk starts or ends with white space: a
    chunk is its own [trim]. *)
Theorem chunks_are_trimmed document minSize maxSize :
  Forall (λ c, c ≠ [] ∧ trim c = c) (splitIntoChunks document minSize maxSize).
Proof.
  unfold splitIntoChunks, chunk_document.
  eapply Forall_impl.
  - apply (splits_chunks minSize maxSize (headerSplits document)
             (λ c, c ≠ [] ∧ trimmed c) (λ _ currentChunk, nonws currentChunk ≠ [])).
    + intros split _ Hs _. rewrite trim_nil. split; [done | apply trimmed_trim].
    + intros lastChunk split [Hne Ht] Hs _.
      assert (Hts : trim split ≠ []) by (by rewrite trim_nil).
      split; [by destruct lastChunk|].
      apply trimmed_join; [done | done | done | apply trimmed_trim].
    + done.
    + intros _ currentChunk paragraph Hc _ _ _. rewrite nonws_app.
      by destruct (nonws currentChunk).
    + intros _ currentChunk Hc. rewrite trim_nil. split; [done | apply trimmed_trim].
    + done.
    + constructor.
  - intros c [Hne Ht]. split; [done | by apply trim_trimmed].
Qed.

(** A chunk is at most [maxSize + 2] long, unless it is one paragraph that
    is itself longer than [maxSize]: the chunker never cuts inside a
    paragraph, and a merge or a join may overshoot by the separator. *)
Theorem chunk_length_bound document minSize maxSize :
  Forall (λ c, len c <= maxSize + 2
               ∨ ∃ split paragraph,
                   split ∈ headerSplits document
                   ∧ paragraph ∈ paragraphs_of split
                   ∧ maxSize < len paragraph
                   ∧ c = trim paragraph)
    (splitIntoChunks document minSize maxSize).
Proof.
  unfold splitIntoChunks, chunk_document.
  apply (splits_chunks minSize maxSize (headerSplits document) _
           (λ split currentChunk,
              len currentChunk <= maxSize + 2
              ∨ (split ∈ headerSplits document
                 ∧ currentChunk ∈ paragraphs_of split
                 ∧ maxSize < len currentChunk))).
  - intros split _ _ Hfit. left. pose proof (len_trim split). lia.
  - intros lastChunk split _ _ Hfit. left. rewrite !len_app.
    pose proof (len_trim split). change (len blank_line) with 2. lia.
  - intros split paragraph Hs Hp _.
    destruct (Z_le_gt_dec (len paragraph) maxSize); [left; lia | right].
    repeat split; [done..|lia].
  - intros split currentChunk paragraph _ _ _ Hfit. left. rewrite !len_app.
    change (len blank_line) with 2. lia.
  - intros split currentChunk [Hlen|(Hs & Hp & Hlen)].
    + left. pose proof (len_trim currentChunk). lia.
    + right. by exists split, currentChunk.
  - done.
  - constructor.
Qed.

Lemma nonws_concat_nil (l : list jsstring) :
  nonws (concat l) = [] → Forall (λ s, nonws s = []) l.
Proof.
  induction l as [|s l IH]; cbn [concat]; [constructor|].
  rewrite nonws_app. intros [Hs Hl]%app_eq_nil. constructor; auto.
Qed.

(** A document of white space only has no chunks. *)
Theorem blank_document_has_no_chunks document minSize maxSize :
  nonws (content document) = [] → splitIntoChunks document minSize maxSize = [].
Proof.
  intros Hblank. unfold splitIntoChunks, chunk_document.
  pose proof (splits_inv minSize maxSize (headerSplits document) _ _
                (chunker_inv_init minSize)) as [Hc Hk _].
  cbn [app] in Hc.
  assert (Hseen : nonws (concat (headerSplits document)) = []).
  { rewrite <- (split_with_separators_concat header_pattern (content document))
      in Hblank.
    unfold headerSplits, js_split.
    induction (split_with_separators header_pattern (content document))
      as [|[piece sep] l IH]; [done|].
    cbn [List.map concat fst snd] in *. rewrite nonws_app in Hblank.
    apply app_eq_nil in Hblank as [Hps Hl]. rewrite nonws_app in Hps.
    apply app_eq_nil in Hps as [Hp _]. by rewrite nonws_app, Hp, IH. }
  rewrite Hseen in Hc. apply interleave_length in Hc. unfold kept in Hc.
  destruct (chunks _) as [|c cs]; [done|].
  inversion Hk as [|? ? Hne _]; subst. cbn [concat] in Hc. rewrite nonws_app in Hc.
  destruct (nonws c); [done|]. cbn in Hc. lia.
Qed.

Lemma header_pattern_hashless prev s :
  run_length is_hash s = 0%nat → header_pattern prev s = None.
Proof.
  intros Hrun. unfold header_pattern. rewrite Hrun. by destruct (at_line_start prev).
Qed.

Lemma split_scan_hashless prev piece s :
  Forall (λ c, is_hash c = false) s →
  split_scan header_pattern 0 prev piece s = [(rev piece ++ s, [])].
Proof.
  intros Hs. revert prev piece.
  induction Hs as [|c s Hc _ IH]; intros prev piece; cbn [split_scan].
  - by rewrite app_nil_r.
  - rewrite header_pattern_hashless by (cbn; by rewrite Hc).
    rewrite IH. cbn [rev]. by rewrite <- app_assoc.
Qed.

(** A document without a [#] has one section. If it is not blank and fits
    in [maxSize], it is one chunk: its trimmed content, whatever
    [minSize]. *)
Theorem hashless_document_is_one_chunk document minSize maxSize :
  Forall (λ c, is_hash c = false) (content document) →
  nonws (content document) ≠ [] →
  len (content document) <= maxSize →
  headerSplits document = [content document]
  ∧ splitIntoChunks document minSize maxSize = [trim (content document)].
Proof.
  intros Hhash Hnb Hfit.
  assert (Hsplits : headerSplits document = [content document]).
  { unfold headerSplits, js_split, split_with_separators.
    destruct (content document) as [|c s] eqn:E; [done|].
    by rewrite split_scan_hashless. }
  split; [done|].
  unfold splitIntoChunks, chunk_document. rewrite Hsplits. cbn [fold_left].
  unfold split_step.
  destruct (length (trim (content document)) =? 0)%nat eqn:Eblank.
  { by apply trim_length_0 in Eblank. }
  destruct (len (content document) <=? maxSize) eqn:E; [|lia].
  by destruct (minSize <=? len (content document)).
Qed.

(** * Further properties of the similarity *)

Lemma Prim2SF_inj x y : Prim2SF x = Prim2SF y → x = y.
Proof.
  intros H. rewrite <- (SF2Prim_Prim2SF x), <- (SF2Prim_Prim2SF y). by rewrite H.
Qed.

Lemma SFmul_comm X Y : SF64mul X Y = SF64mul Y X.
Proof.
  unfold SF64mul.
  destruct X as [sx|sx| |sx mx ex], Y as [sy|sy| |sy my ey]; cbn [SFmul];
    rewrite ?(xorb_comm sx sy); try done.
  by rewrite Pos.mul_comm, Z.add_comm.
Qed.

(** Multiplication of binary64 values is commutative. *)
Lemma float_mul_comm (x y : float) : (x * y)%float = (y * x)%float.
Proof. apply Prim2SF_inj. rewrite !mul_spec. apply SFmul_comm. Qed.

Lemma paired_step_swap (l : list (float * float)) d na nb :
  fold_left paired_step (List.map (λ xy, (xy.2, xy.1)) l) (d, nb, na)
  = let '(d', na', nb') := fold_left paired_step l (d, na, nb) in (d', nb', na').
Proof.
  revert d na nb. induction l as [|[x y] l IH]; intros d na nb; [done|].
  cbn [List.map fold_left paired_step fst snd]. cbn [add mul binary64].
  rewrite (float_mul_comm y x). apply IH.
Qed.

Lemma combine_swap {A B} (a : list A) (b : list B) :
  combine b a = List.map (λ xy, (xy.2, xy.1)) (combine a b).
Proof.
  revert b. induction a as [|x a IH]; intros [|y b]; cbn; try done. by rewrite IH.
Qed.

(** The similarity of two vectors of one length does not depend on their
    order, in binary64 as in exact arithmetic: the products and the sums are
    the same ones. *)
Theorem cosineSimilarity_symmetric (a b : list float) :
  length a = length b → cosineSimilarity a b = cosineSimilarity b a.
Proof.
  intros Hl. unfold cosineSimilarity.
  rewrite (cosine_sums_paired a b Hl), (cosine_sums_paired b a (eq_sym Hl)).
  rewrite (combine_swap a b), (paired_step_swap _ zero zero zero). cbn [zero binary64].
  destruct (fold_left paired_step (combine a b) _) as [[d na] nb].
  cbn [div mul sqrt binary64]. by rewrite float_mul_comm.
Qed.

Lemma is_nan_spec x : is_nan x = true ↔ Prim2SF x = S754_nan.
Proof.
  unfold is_nan. rewrite FloatAxioms.eqb_spec. unfold SFeqb.
  destruct (Prim2SF x) as [| [] | | [] ? ?]; cbn;
    rewrite ?Z.compare_refl, ?Pos.compare_cont_refl, ?Pos.compare_refl; cbn;
    split; done.
Qed.

Lemma zero_spec x : (x =? 0)%float = true → zero_or_nan (Prim2SF x).
Proof.
  rewrite FloatAxioms.eqb_spec. unfold SFeqb.
  change (Prim2SF 0) with (S754_zero false).
  by destruct (Prim2SF x) as [| [] | | [] ? ?].
Qed.

Lemma zero_or_nan_mul_l X Y : zero_or_nan X → zero_or_nan (SF64mul X Y).
Proof. by destruct X as [| | |], Y as [| | |]. Qed.

Lemma zero_or_nan_mul_r X Y : zero_or_nan Y → zero_or_nan (SF64mul X Y).
Proof. rewrite SFmul_comm. apply zero_or_nan_mul_l. Qed.

Lemma zero_or_nan_add X Y : zero_or_nan X → zero_or_nan Y → zero_or_nan (SF64add X Y).
Proof. by destruct X as [[]| | |], Y as [[]| | |]. Qed.

Lemma zero_or_nan_sqrt X : zero_or_nan X → zero_or_nan (SF64sqrt X).
Proof. by destruct X as [| | |]. Qed.

Lemma zero_or_nan_div X Y : zero_or_nan X → zero_or_nan Y → SF64div X Y = S754_nan.
Proof. by destruct X as [| | |], Y as [| | |]. Qed.

Lemma nan_add_r X : SF64add X S754_nan = S754_nan.
Proof. by destruct X. Qed.

Lemma nan_mul_r X : SF64mul X S754_nan = S754_nan.
Proof. by destruct X. Qed.

Lemma nan_div_r X : SF64div X S754_nan = S754_nan.
Proof. by destruct X. Qed.

(** Once [normB] is NaN it stays NaN. *)
Lemma cosine_sums_nan (a b : list float) l d na nb :
  Prim2SF nb = S754_nan →
  Prim2SF (fold_left (cosine_step a b) l (d, na, nb)).2 = S754_nan.
Proof.
  revert d na nb. induction l as [|i l IH]; intros d na nb Hnb; [done|].
  cbn [fold_left cosine_step]. apply IH. cbn [add mul binary64].
  by rewrite add_spec, Hnb.
Qed.

(** A record with fewer embedding values than the query scores NaN: the
    missing values read as [undefined]. *)
Theorem short_record_scores_nan queryEmbedding entry :
  (length (embedding entry) < length queryEmbedding)%nat →
  is_nan (similarity_score (score_entry queryEmbedding entry)) = true.
Proof.
  intros Hshort. cbn [similarity_score score_entry]. apply is_nan_spec.
  set (b := List.map to_number (embedding entry)).
  assert (Hb : (length b < length queryEmbedding)%nat) by (unfold b; by rewrite length_map).
  clearbody b. unfold cosineSimilarity, cosine_sums.
  replace (length queryEmbedding)
    with (length b + S (length queryEmbedding - S (length b)))%nat by lia.
  rewrite seq_app, fold_left_app. cbn [seq fold_left].
  destruct (fold_left _ (seq 0 (length b)) _) as [[d na] nb].
  cbn [Nat.add]. unfold cosine_step at 2.
  assert (Hout : at_index b (length b) = nan).
  { unfold at_index. by rewrite nth_overflow by lia. }
  rewrite Hout. cbn [add mul binary64].
  pose proof (cosine_sums_nan queryEmbedding b
                (seq (S (length b)) (length queryEmbedding - S (length b)))
                (d + at_index queryEmbedding (length b) * nan)%float
                (na + at_index queryEmbedding (length b)
                      * at_index queryEmbedding (length b))%float
                (nb + nan * nan)%float) as Hnan.
  destruct (fold_left _ _ _) as [[d' na'] nb']. cbn [snd] in Hnan.
  cbn [div mul sqrt binary64].
  rewrite div_spec, mul_spec, (sqrt_spec nb'), Hnan; [by rewrite nan_mul_r, nan_div_r|].
  by rewrite add_spec, mul_spec, nan_add_r.
Qed.

Lemma at_index_zero_or_nan (v : list float) i :
  Forall (λ x, (x =? 0)%float = true) v → zero_or_nan (Prim2SF (at_index v i)).
Proof.
  intros Hv. unfold at_index. destruct (nth_in_or_default i v undefined_operand) as [Hin | ->].
  - rewrite Forall_forall in Hv. apply zero_spec, Hv. by apply list_elem_of_In.
  - done.
Qed.

(** With a zero vector on either side every sum but a norm of the other
    side is a zero or NaN. *)
Lemma cosine_sums_zero (a b : list float) l d na nb :
  Forall (λ x, (x =? 0)%float = true) a ∨ Forall (λ x, (x =? 0)%float = true) b →
  zero_or_nan (Prim2SF d) →
  (Forall (λ x, (x =? 0)%float = true) a → zero_or_nan (Prim2SF na)) →
  (Forall (λ x, (x =? 0)%float = true) b → zero_or_nan (Prim2SF nb)) →
  let '(d', na', nb') := fold_left (cosine_step a b) l (d, na, nb) in
  zero_or_nan (Prim2SF d')
  ∧ (Forall (λ x, (x =? 0)%float = true) a → zero_or_nan (Prim2SF na'))
  ∧ (Forall (λ x, (x =? 0)%float = true) b → zero_or_nan (Prim2SF nb')).
Proof.
  intros Hzero. revert d na nb.
  induction l as [|i l IH]; intros d na nb Hd Hna Hnb; [done|].
  cbn [fold_left cosine_step]. apply IH; cbn [add mul binary64];
    rewrite add_spec, mul_spec.
  - apply zero_or_nan_add; [done|].
    destruct Hzero as [Ha|Hb];
      [apply zero_or_nan_mul_l | apply zero_or_nan_mul_r]; by apply at_index_zero_or_nan.
  - intros Ha. apply zero_or_nan_add; [auto|].
    apply zero_or_nan_mul_l. by apply at_index_zero_or_nan.
  - intros Hb. apply zero_or_nan_add; [auto|].
    apply zero_or_nan_mul_l. by apply at_index_zero_or_nan.
Qed.

(** The similarity is NaN as soon as one of the two vectors is zero; a
    record whose embedding values are all zero or [null] scores NaN against
    every query, and a query that embeds as zero scores NaN against every
    record. *)
Theorem zero_vector_scores_nan (a b : list float) :
  Forall (λ x, (x =? 0)%float = true) a ∨ Forall (λ x, (x =? 0)%float = true) b →
  is_nan (cosineSimilarity a b) = true.
Proof.
  intros Hzero. apply is_nan_spec. unfold cosineSimilarity, cosine_sums.
  pose proof (cosine_sums_zero a b (seq 0 (length a)) zero zero zero Hzero) as H.
  destruct (fold_left _ _ _) as [[d na] nb].
  destruct H as (Hd & Hna & Hnb); [done..|].
  cbn [div mul sqrt binary64]. rewrite div_spec, mul_spec, !sqrt_spec.
  apply zero_or_nan_div; [done|].
  destruct Hzero as [Ha|Hb].
  - apply zero_or_nan_mul_l, zero_or_nan_sqrt. auto.
  - apply zero_or_nan_mul_r, zero_or_nan_sqrt. auto.
Qed.

(** * The analysis capability *)










(** An empty project path, or one at which nothing exists, is rejected
    before anything is done: the world is as it was. *)
Theorem invalid_project_path_is_rejected params w :
  analyze_project_path params = []
  ∨ path_exists w (analyze_project_path params) = false →
  analyzeAndIndexDependencies params w
  = (Returned (failure (MsgInvalidProjectPath (analyze_project_path params))), w).
Proof.
  intros Hbad. unfold analyzeAndIndexDependencies, try_catch.
  by destruct Hbad as [-> | ->]; rewrite ?orb_true_r.
Qed.

(** * The configuration loader *)

Lemma when_set_proj {A} (proj : LoadedConfig → A) vars name assign config :
  (∀ c v, proj (assign c v) = proj c) →
  proj (when_set vars name assign config) = proj config.
Proof. intros H. unfold when_set. by destruct (vars !! js name) as [[|c s]|]. Qed.

Lemma when_set_unset vars name assign config :
  vars !! js name = None → when_set vars name assign config = config.
Proof. intros H. unfold when_set. by rewrite H. Qed.

Lemma when_set_set vars name assign config c s :
  vars !! js name = Some (c :: s) →
  when_set vars name assign config = assign config (c :: s).
Proof. intros H. unfold when_set. by rewrite H. Qed.

Lemma when_debug_proj {A} (proj : LoadedConfig → A) vars config :
  (∀ c, proj (set_debugMode c) = proj c) →
  proj (when_debug vars config) = proj config.
Proof. intros H. unfold when_debug. by destruct (bool_decide _). Qed.

Lemma load_first_proj {A} (proj : LoadedConfig → A) env_file_at envPaths config :
  (∀ vars c, proj (from_project_env vars c) = proj c) →
  proj (load_first env_file_at envPaths config).1 = proj config.
Proof.
  intros H. induction envPaths as [|envPath rest IH]; cbn [load_first]; [done|].
  destruct (env_file_at envPath); [done | | apply H].
  by destruct (load_first env_file_at rest config).
Qed.

(** When none of its seven variables is set and the project has no .env
    file, [getConfig] returns the defaults, whatever else the environment
    holds. *)
Theorem getConfig_defaults vars env_file_at projectPath :
  Forall (λ name, vars !! js name = None) config_variables →
  (∀ p, projectPath = Some p →
        env_file_at (path_join p (js ".env")) = NoEnvFile
        ∧ env_file_at (path_join p (js ".env.dependency-context")) = NoEnvFile) →
  getConfig_from vars env_file_at projectPath = (loaded_defaults, []).
Proof.
  intros Hunset Hfiles. unfold config_variables in Hunset.
  repeat (apply Forall_cons in Hunset as [? Hunset]).
  assert (Hbase : from_process_env vars loaded_defaults = loaded_defaults).
  { unfold from_process_env, when_debug.
    rewrite !when_set_unset by done.
    by rewrite bool_decide_eq_false_2 by congruence. }
  unfold getConfig_from. rewrite Hbase.
  destruct projectPath as [[|c p]|]; [done | | done].
  destruct (Hfiles _ eq_refl) as [Hfirst Hsecond].
  unfold tryLoadProjectEnv. cbn [load_first]. by rewrite Hfirst, Hsecond.
Qed.

Lemma from_project_env_debug vars config :
  loaded_debugMode config = true →
  loaded_debugMode (from_project_env vars config) = true.
Proof.
  intros Hon. unfold from_project_env.
  rewrite !(when_set_proj loaded_debugMode) by done.
  unfold when_debug. destruct (bool_decide _); [done|].
  by rewrite !(when_set_proj loaded_debugMode) by done.
Qed.

(** Debug mode can be turned on and never off: with [DEBUG=true] in the
    environment it is on whatever the project's files say, and a project
    file that parses with [DEBUG=true] turns it on whatever the environment
    says. *)
Theorem debug_mode_is_only_turned_on vars env_file_at projectPath :
  (vars !! js "DEBUG" = Some (js "true") →
   loaded_debugMode (getConfig_from vars env_file_at projectPath).1 = true)
  ∧ (∀ c p file_vars,
       projectPath = Some (c :: p) →
       env_file_at (path_join (c :: p) (js ".env")) = EnvFile file_vars →
       file_vars !! js "DEBUG" = Some (js "true") →
       loaded_debugMode (getConfig_from vars env_file_at projectPath).1 = true).
Proof.
  split.
  - intros Hdebug.
    assert (Hbase : loaded_debugMode (from_process_env vars loaded_defaults) = true).
    { unfold from_process_env. rewrite !(when_set_proj loaded_debugMode) by done.
      unfold when_debug. by rewrite bool_decide_eq_true_2. }
    unfold getConfig_from. destruct projectPath as [[|c p]|]; [done | | done].
    unfold tryLoadProjectEnv.
    generalize [path_join (c :: p) (js ".env");
                path_join (c :: p) (js ".env.dependency-context")].
    intros envPaths. induction envPaths as [|envPath rest IH]; cbn [load_first]; [done|].
    destruct (env_file_at envPath); [done | | by apply from_project_env_debug].
    by destruct (load_first env_file_at rest _).
  - intros c p file_vars -> Hfile Hdebug. unfold getConfig_from, tryLoadProjectEnv.
    cbn [load_first]. rewrite Hfile. cbn [fst]. unfold from_project_env.
    rewrite !(when_set_proj loaded_debugMode) by done.
    unfold when_debug. by rewrite bool_decide_eq_true_2.
Qed.

(** Of the project's two files only the first that parses is read: when
    [.env] parses, what lies at [.env.dependency-context] - or anywhere else
    - does not matter. *)
Theorem first_env_file_wins vars env_file_at env_file_at' projectPath file_vars :
  env_file_at (path_join projectPath (js ".env")) = EnvFile file_vars →
  env_file_at' (path_join projectPath (js ".env")) = EnvFile file_vars →
  getConfig_from vars env_file_at (Some projectPath)
  = getConfig_from vars env_file_at' (Some projectPath).
Proof.
  intros H H'. unfold getConfig_from, tryLoadProjectEnv.
  destruct projectPath as [|c p]; [done|]. cbn [load_first]. by rewrite H, H'.
Qed.

(** A project file overrides the environment: when [.env] parses and sets
    [MODEL_NAME] or [CHUNKS_RETURNED], the configuration has the values of
    the file, whatever the environment holds. The port is the exception: it
    is read from the environment only. *)
Theorem project_file_overrides_environment vars env_file_at c p file_vars :
  env_file_at (path_join (c :: p) (js ".env")) = EnvFile file_vars →
  let config := (getConfig_from vars env_file_at (Some (c :: p))).1 in
  (∀ m s, file_vars !! js "MODEL_NAME" = Some (m :: s) →
          loaded_embeddingModel config = m :: s)
  ∧ (∀ d s, file_vars !! js "CHUNKS_RETURNED" = Some (d :: s) →
            loaded_chunksReturned config = parseInt (d :: s))
  ∧ loaded_port config = loaded_port (getConfig_from vars env_file_at None).1.
Proof.
  intros Hfile config. unfold config, getConfig_from, tryLoadProjectEnv.
  cbn [load_first]. rewrite Hfile. cbn [fst]. unfold from_project_env at 1 2.
  split; [|split].
  - intros m s Hm.
    rewrite !(when_set_proj loaded_embeddingModel) by done.
    rewrite (when_debug_proj loaded_embeddingModel) by done.
    by rewrite (when_set_set _ _ _ _ _ _ Hm).
  - intros d s Hd. by rewrite (when_set_set _ _ _ _ _ _ Hd).
  - unfold from_project_env. rewrite !(when_set_proj loaded_port) by done.
    rewrite (when_debug_proj loaded_port) by done.
    by rewrite !(when_set_proj loaded_port) by done.
Qed.

Lemma digits_value_app acc digits rest :
  Forall (λ c, is_digit c = true) digits →
  match rest with c :: _ => is_digit c = false | [] => True end →
  digits_value acc (digits ++ rest)
  = fold_left (λ acc c, 10 * acc + (Z.of_N c - 48)) digits acc.
Proof.
  intros Hd Hrest. revert acc.
  induction Hd as [|c digits Hc _ IH]; intros acc; cbn [app fold_left].
  - destruct rest as [|c rest]; [done|]. cbn. by rewrite Hrest.
  - cbn [digits_value]. by rewrite Hc, IH.
Qed.

Lemma trimStart_spaces spaces s :
  Forall (λ c, is_white_space c = true) spaces →
  trimStart (spaces ++ s) = trimStart s.
Proof. induction 1 as [|c spaces Hc _ IH]; cbn; [done|]. by rewrite Hc. Qed.

Lemma digit_is_clean c : is_digit c = true → is_white_space c = false ∧ c ≠ 45%N ∧ c ≠ 43%N.
Proof.
  unfold is_digit. intros [H1 H2]%andb_true_iff.
  apply N.leb_le in H1, H2. split; [|lia].
  unfold is_white_space, is_line_terminator.
  repeat (apply orb_false_intro); try (apply N.eqb_neq; lia).
  apply andb_false_iff. left. apply N.leb_gt. lia.
Qed.

Lemma sign_of_other c s :
  c ≠ 45%N → c ≠ 43%N →
  match c :: s with
  | 45%N :: s' => (true, s')
  | 43%N :: s' => (false, s')
  | _ => (false, c :: s)
  end = (false, c :: s).
Proof.
  intros H45 H43. destruct c as [|p]; [done|].
  do 8 (destruct p as [p|p|]; try done).
Qed.

(** [parseInt] on a string that starts with a number: white space, then a
    run of digits followed by anything that is not a digit. *)
Lemma parseInt_digits spaces d digits rest :
  Forall (λ c, is_white_space c = true) spaces →
  Forall (λ c, is_digit c = true) (d :: digits) →
  match rest with c :: _ => is_digit c = false | [] => True end →
  parseInt (spaces ++ (d :: digits) ++ rest)
  = number_of_Z false (decimal_value (d :: digits))
  ∧ parseInt (spaces ++ [45%N] ++ (d :: digits) ++ rest)
    = number_of_Z true (- decimal_value (d :: digits))
  ∧ parseInt (spaces ++ [43%N] ++ (d :: digits) ++ rest)
    = number_of_Z false (decimal_value (d :: digits)).
Proof.
  intros Hs Hd Hrest.
  inversion Hd as [|? ? Hd1 Hd2]; subst.
  destruct (digit_is_clean d Hd1) as (Hws & H45 & H43).
  assert (Hvalue : digits_value 0 (d :: digits ++ rest) = decimal_value (d :: digits)).
  { apply (digits_value_app 0 (d :: digits) rest); [by constructor | done]. }
  split; [|split]; unfold parseInt; rewrite trimStart_spaces by done;
    cbn [app trimStart].
  - by rewrite Hws, (sign_of_other _ _ H45 H43), Hd1, Hvalue.
  - change (is_white_space 45) with false. cbv iota. by rewrite Hd1, Hvalue.
  - change (is_white_space 43) with false. cbv iota. by rewrite Hd1, Hvalue.
Qed.

(** [parseInt] on a string that does not start with a number. *)
Lemma parseInt_nan spaces :
  Forall (λ c, is_white_space c = true) spaces →
  parseInt spaces = nan
  ∧ (∀ c rest, is_white_space c = false → is_digit c = false →
               c ≠ 45%N → c ≠ 43%N → parseInt (spaces ++ c :: rest) = nan).
Proof.
  intros Hs. split.
  - unfold parseInt. rewrite <- (app_nil_r spaces), trimStart_spaces by done. done.
  - intros c rest Hws Hd H45 H43. unfold parseInt.
    rewrite trimStart_spaces by done. cbn [trimStart].
    by rewrite Hws, (sign_of_other _ _ H45 H43), Hd.
Qed.

Lemma chunksReturned_from_environment vars env_file_at c s :
  vars !! js "CHUNKS_RETURNED" = Some (c :: s) →
  loaded_chunksReturned (getConfig_from vars env_file_at None).1 = parseInt (c :: s).
Proof.
  intros Hset. unfold getConfig_from, from_process_env. cbn [fst].
  by rewrite (when_set_set _ _ _ _ _ _ Hset).
Qed.

(** [getConfig] does not validate [CHUNKS_RETURNED]; it takes what [parseInt]
    makes of it. A value that starts, after white space, with a run of at
    most twenty digits gives the Number for the integer the digits write -
    negated after a minus sign - whatever follows the digits. A value that
    is white space only, or whose first other character is neither a digit
    nor a sign, gives NaN, not the default. *)
Theorem numeric_setting_is_not_validated vars env_file_at spaces :
  Forall (λ c, is_white_space c = true) spaces →
  let chunksReturned := loaded_chunksReturned (getConfig_from vars env_file_at None).1 in
  (∀ d digits rest,
     Forall (λ c, is_digit c = true) (d :: digits) →
     (length (d :: digits) <= 20)%nat →
     match rest with c :: _ => is_digit c = false | [] => True end →
     (vars !! js "CHUNKS_RETURNED" = Some (spaces ++ (d :: digits) ++ rest) →
      chunksReturned = number_of_Z false (decimal_value (d :: digits)))
     ∧ (vars !! js "CHUNKS_RETURNED" = Some (spaces ++ [45%N] ++ (d :: digits) ++ rest) →
        chunksReturned = number_of_Z true (- decimal_value (d :: digits))))
  ∧ (∀ c rest,
       is_white_space c = false → is_digit c = false → c ≠ 45%N → c ≠ 43%N →
       vars !! js "CHUNKS_RETURNED" = Some (spaces ++ c :: rest) →
       chunksReturned = nan)
  ∧ (spaces ≠ [] → vars !! js "CHUNKS_RETURNED" = Some spaces → chunksReturned = nan).
Proof.
  intros Hs chunksReturned. unfold chunksReturned. split; [|split].
  - intros d digits rest Hd _ Hrest.
    destruct (parseInt_digits spaces d digits rest Hs Hd Hrest) as (Hplain & Hminus & _).
    split; intros Hset.
    + destruct (spaces ++ (d :: digits) ++ rest) as [|c s] eqn:Ev;
        [by destruct spaces|].
      by rewrite (chunksReturned_from_environment _ _ _ _ Hset).
    + destruct (spaces ++ [45%N] ++ (d :: digits) ++ rest) as [|c s] eqn:Ev;
        [by destruct spaces|].
      by rewrite (chunksReturned_from_environment _ _ _ _ Hset).
  - intros c rest Hws Hd H45 H43 Hset.
    destruct (spaces ++ c :: rest) as [|c0 s] eqn:Ev; [by destruct spaces|].
    rewrite (chunksReturned_from_environment _ _ _ _ Hset), <- Ev.
    by apply (proj2 (parseInt_nan spaces Hs)).
  - intros Hne Hset. destruct spaces as [|c s] eqn:Ev; [done|].
    rewrite (chunksReturned_from_environment _ _ _ _ Hset), <- Ev.
    apply (proj1 (parseInt_nan spaces ltac:(by subst))).
Qed.

End Program.

(** * Runs on concrete inputs

    The collaborators are the fixtures above: [join_slash] for [path.join],
    a directory that can always be made, a write that always succeeds, and
    pipelines that embed every text as one vector, fail to load, or reject
    one text. *)

(** C1. The scenario of the test 'should respect chunksReturned config
    parameter': a store of ten records, [chunksReturned] set to 8 and no
    repository context.  [searchVectorStore] returns five results, not
    eight: the cut is [results.slice(0, 5)] and does not read the
    configuration. *)
Theorem chunksReturned_is_ignored :
  let config := with_chunksReturned defaultConfig 8 in
  let run := searchVectorStore join_slash (constant_pipeline [0.5; 0.25; 0.125]%float)
               test_project (js "test query") None (Some config)
               (world_with (StoreFile ten_records)) in
  chunksReturned config = 8
  ∧ length (entries ten_records) = 10%nat
  ∧ ∃ rs, run.1 = Returned rs ∧ length rs = 5%nat.
Proof.
  cbv zeta. split; [reflexivity|]. split; [reflexivity|].
  eexists. split; vm_compute; reflexivity.
Qed.

(** C2 on two failing inputs: a search when the model fails to load, and a
    search when the store file cannot be parsed.  [searchDependencyDocs]
    answers both with empty results and no error, where the claim wants the
    error next to the empty results - as does the test 'should handle search
    errors' of the capability, which gets it by making [searchVectorStore]
    reject, something the function itself never does. *)
Lemma search_failure_without_error_flag :
  (searchDependencyDocs join_slash broken_pipeline (config_of defaultConfig) test_params
     (world_with (StoreFile ten_records))).1
  = Returned {| results := []; response_error := None |}
  ∧ (searchDependencyDocs join_slash (constant_pipeline [0.5; 0.25; 0.125]%float)
       (config_of defaultConfig) test_params (world_with Unreadable)).1
    = Returned {| results := []; response_error := None |}.
Proof. split; vm_compute; reflexivity. Qed.

(** [search_failure_is_silent] on a search whose model fails to load. *)
Lemma search_failure_is_silent_witness :
  let w1 := world_before_config test_params (world_with (StoreFile ten_records)) in
  let e := PipelineError default_model in
  config_of defaultConfig (project_path test_params) w1 = (Returned defaultConfig, w1)
  ∧ search_failure join_slash broken_pipeline w1 (project_path test_params)
      (query test_params) (Some defaultConfig) = Some e
  ∧ let run := searchVectorStore join_slash broken_pipeline (project_path test_params)
                 (query test_params) (repository_context test_params)
                 (Some defaultConfig) w1 in
    run.1 = Returned []
    ∧ (∃ evs, trace run.2 = trace w1 ++ evs
              ∧ last evs = Some (Console LevelError (MsgErrorSearching e)))
    ∧ (searchDependencyDocs join_slash broken_pipeline (config_of defaultConfig)
         test_params (world_with (StoreFile ten_records))).1
      = Returned {| results := []; response_error := None |}.
Proof.
  cbv zeta. split; [reflexivity|]. split; [vm_compute; reflexivity|].
  apply (search_failure_is_silent join_slash broken_pipeline (config_of defaultConfig)
           test_params (world_with (StoreFile ten_records)) defaultConfig
           (world_before_config test_params (world_with (StoreFile ten_records)))
           (PipelineError default_model)).
  - reflexivity.
  - vm_compute; reflexivity.
Defined.

(** C3, against the claim as stated: two documents of one chunk each, and a
    model that rejects the chunk of the first.  The run throws, the embedder
    is never called on the chunk of the second document, and no file is
    written. *)
Lemma embedding_failure_stops_all_documents :
  let run := indexDocumentation join_slash (picky_pipeline (js "bad text") [1]%float)
               mkdir_always write_always test_project test_dependency test_repository
               two_documents None blank_world in
  work_of two_documents
  = [(test_document "/bad.md" "bad text", js "bad text");
     (test_document "/good.md" "good text", js "good text")]
  ∧ run.1 = Thrown (InferenceError (js "bad text"))
  ∧ embed_calls (trace run.2) = [js "bad text"]
  ∧ files run.2 = ∅.
Proof. cbv zeta. split; [|split; [|split]]; vm_compute; reflexivity. Qed.

Lemma blank_project_is_loadable : store_loadable join_slash blank_world test_project.
Proof.
  unfold store_loadable. cbn [files blank_world]. rewrite lookup_empty. split.
  - cbn [dirs]. apply not_elem_of_empty.
  - intros H. apply (f_equal (@length N)) in H. vm_compute in H. discriminate.
Qed.

(** [embedding_failure_aborts_indexing] on three documents of one chunk each,
    the model rejecting the chunk of the second: the run throws the model's
    error and logs it, the embedder was called on the first two chunks, the
    storage directory was made and no file was written. *)
Lemma embedding_failure_aborts_indexing_witness :
  let good := test_document "/good.md" "good text" in
  let bad := test_document "/bad.md" "bad text" in
  let other := test_document "/other.md" "other text" in
  let documents := [good; bad; other] in
  let e := InferenceError (js "bad text") in
  let pipeline := picky_pipeline (js "bad text") [1]%float in
  let dir := join_slash test_project storage_dir_name in
  work_of documents !! 1%nat = Some (bad, js "bad text")
  ∧ embedding_of pipeline blank_world None (js "bad text") = Thrown e
  ∧ let run := indexDocumentation join_slash pipeline mkdir_always write_always
                 test_project test_dependency test_repository documents None
                 blank_world in
    ∃ evs,
      run.1 = Thrown e
      ∧ trace run.2 = trace blank_world ++ evs
      ∧ last evs = Some (Console LevelError (MsgErrorIndexing (dep_name test_dependency) e))
      ∧ embed_calls evs = [js "good text"; js "bad text"]
      ∧ List.filter is_write evs = []
      ∧ files run.2 = files blank_world
      ∧ dirs run.2 = dirs blank_world ∪ {[dir]}.
Proof.
  cbv zeta.
  assert (Hk : work_of [test_document "/good.md" "good text";
                        test_document "/bad.md" "bad text";
                        test_document "/other.md" "other text"] !! 1%nat
               = Some (test_document "/bad.md" "bad text", js "bad text"))
    by (vm_compute; reflexivity).
  assert (Hc : embedding_of (picky_pipeline (js "bad text") [1]%float) blank_world None
                 (js "bad text") = Thrown (InferenceError (js "bad text")))
    by (vm_compute; reflexivity).
  split; [exact Hk|]. split; [exact Hc|].
  destruct (embedding_failure_aborts_indexing join_slash
              (picky_pipeline (js "bad text") [1]%float) mkdir_always write_always
              test_project test_dependency test_repository _ None blank_world
              1%nat _ _ _ Hk Hc)
    as (e' & evs & Hthrown & Htrace & Hlast & _ & Hwrite & Hfiles & Hdirs & Hfirst).
  destruct Hfirst as [-> Hcalls]; [reflexivity | apply blank_project_is_loadable | |].
  { intros j d' c' Hj Hw. destruct j as [|j]; [|lia].
    vm_compute in Hw. injection Hw as <- <-. eexists. vm_compute. reflexivity. }
  exists evs. split; [exact Hthrown|]. split; [exact Htrace|]. split; [exact Hlast|].
  split; [exact Hcalls|]. split; [exact Hwrite|]. split; [exact Hfiles|]. exact Hdirs.
Defined.

(** C5, against the claim as stated: a record with a zero embedding scores
    NaN, the comparator answers NaN on it, which the sort reads as a tie,
    and the result with score 0 stays before the one with score 1. *)
Lemma nan_score_breaks_order :
  let run := searchVectorStore join_slash (constant_pipeline [1; 0]%float)
               test_project (js "test query") None None
               (world_with (StoreFile mixed_records)) in
  ∃ a b c, run.1 = Returned [a; b; c]
           ∧ text_chunk a = js "across" ∧ similarity_score a = 0%float
           ∧ text_chunk b = js "nothing" ∧ is_nan (similarity_score b) = true
           ∧ text_chunk c = js "along" ∧ similarity_score c = 1%float
           ∧ (similarity_score c <=? similarity_score a)%float = false.
Proof.
  cbv zeta. eexists _, _, _. split; [vm_compute; reflexivity|].
  repeat split; vm_compute; reflexivity.
Qed.

(** [search_results_sorted] on a store of four records without a NaN score. *)
Lemma search_results_sorted_witness :
  let pipeline := constant_pipeline [1; 0]%float in
  let w := world_with (StoreFile graded_records) in
  let scored := search_scored join_slash pipeline w test_project (js "test query")
                  None None in
  numeric_scores scored
  ∧ ∃ rs, (searchVectorStore join_slash pipeline test_project (js "test query")
             None None w).1 = Returned rs
          ∧ non_increasing rs
          ∧ ∀ s, ties_with s rs `prefix_of` ties_with s scored.
Proof.
  cbv zeta.
  assert (Hnum : numeric_scores
                   (search_scored join_slash (constant_pipeline [1; 0]%float)
                      (world_with (StoreFile graded_records)) test_project
                      (js "test query") None None)).
  { vm_compute. repeat constructor. }
  split; [exact Hnum|].
  exact (search_results_sorted join_slash (constant_pipeline [1; 0]%float) test_project
           (js "test query") None None (world_with (StoreFile graded_records)) Hnum).
Defined.

(** C7, against the claim as stated: the score of a record whose embedding
    is the query's, [1, 1, 1], is 1.0000000000000002, above 1; and the score
    of a record with a zero embedding is NaN, which lies in no interval. *)
Lemma score_outside_unit_interval :
  let same := {| entries := [test_record "same" "/a.md" [1; 1; 1]%float] |} in
  let run := searchVectorStore join_slash (constant_pipeline [1; 1; 1]%float)
               test_project (js "test query") None None
               (world_with (StoreFile same)) in
  (∃ r, run.1 = Returned [r]
        ∧ similarity_score r = 0x1.0000000000001p+0%float
        ∧ (similarity_score r <=? 1)%float = false)
  ∧ (let r := score_entry [1; 0]%float (test_record "nothing" "/b.md" [0; 0]%float) in
     is_nan (similarity_score r) = true
     ∧ (-1 <=? similarity_score r)%float = false
     ∧ (similarity_score r <=? 1)%float = false).
Proof.
  cbv zeta. split.
  - eexists. split; [vm_compute; reflexivity|]. split; vm_compute; reflexivity.
  - repeat split; vm_compute; reflexivity.
Qed.

(** [similarity_score_is_cosine] in exact arithmetic, on [1, 0] and [1, 1]. *)
Lemma similarity_score_is_cosine_witness :
  let a := [1; 0]%R in
  let b := [1; 1]%R in
  length a = length b ∧ (0 < dot a a)%R ∧ (0 < dot b b)%R
  ∧ (-1 <= cosineSimilarity a b <= 1)%R.
Proof.
  cbv zeta.
  assert (Ha : (0 < dot [1; 0] [1; 0])%R) by (cbn; lra).
  assert (Hb : (0 < dot [1; 1] [1; 1])%R) by (cbn; lra).
  split; [reflexivity|]. split; [exact Ha|]. split; [exact Hb|].
  exact (proj2 (proj2 (proj2 (similarity_score_is_cosine join_slash broken_pipeline))
                  [1; 0]%R [1; 1]%R eq_refl Ha Hb)).
Defined.

(** [search_without_store] in a world without files, with a ranking step
    that would return a result. *)
Lemma search_without_store_witness :
  let ranker := λ (_ : list float) (_ : VectorStore) (_ : option jsstring),
                  [score_entry [] (test_record "made up" "/x.md" [])] in
  let run := searchVectorStore_with join_slash (constant_pipeline [1; 0]%float) ranker
               test_project (js "test query") None None blank_world in
  path_exists blank_world (vector_store_path join_slash test_project) = false
  ∧ run.1 = Returned []
  ∧ files run.2 = files blank_world.
Proof.
  cbv zeta. split; [vm_compute; reflexivity|].
  pose proof (search_without_store join_slash (constant_pipeline [1; 0]%float)
                (config_of defaultConfig)
                (λ _ _ _, [score_entry [] (test_record "made up" "/x.md" [])])
                test_project (js "test query") None None blank_world eq_refl) as H.
  cbv zeta in H. destruct H as (H1 & _ & H2 & _). by split.
Defined.

(** C9, against the claim as stated: a record whose embedding holds a NaN
    and a negative zero is indexed; the store read back holds [null] and 0 in
    their places, and the search reads that [null] as 0. *)
Lemma nan_embedding_is_not_restored :
  let pipeline := constant_pipeline [nan; (-0); 0.5]%float in
  let d := test_document "/good.md" "good text" in
  let run := indexDocumentation join_slash pipeline mkdir_always write_always
               test_project test_dependency test_repository [d] None blank_world in
  let appended := new_entry test_repository test_dependency d (js "good text")
                    [nan; (-0); 0.5]%float in
  run.1 = Returned ()
  ∧ embedding appended = [JNum nan; JNum (-0)%float; JNum 0.5%float]
  ∧ ∃ loaded, (readJson test_store_path run.2).1 = Returned {| entries := [loaded] |}
              ∧ chunk loaded = chunk appended
              ∧ metadata loaded = metadata appended
              ∧ embedding loaded = [JNull; JNum 0%float; JNum 0.5%float]
              ∧ List.map to_number (embedding loaded) = [0; 0; 0.5]%float.
Proof.
  cbv zeta. split; [vm_compute; reflexivity|]. split; [reflexivity|].
  eexists. split; [vm_compute; reflexivity|].
  repeat split; vm_compute; reflexivity.
Qed.

(** [index_then_load] on a run that returns: two documents, indexed into a
    project without a store. *)
Lemma index_then_load_witness :
  let pipeline := constant_pipeline [0.5; 0.25]%float in
  let run := indexDocumentation join_slash pipeline mkdir_always write_always
               test_project test_dependency test_repository two_documents None
               blank_world in
  let p := vector_store_path join_slash test_project in
  run.1 = Returned ()
  ∧ ∃ new,
      Forall2 (λ dc entry, ∃ v, embedding_of pipeline blank_world None dc.2 = Returned v
                                ∧ entry = new_entry test_repository test_dependency
                                            dc.1 dc.2 v)
        (work_of two_documents) new
      ∧ (readJson p run.2).1
        = Returned {| entries := List.map persisted_entry (stored_entries blank_world p)
                                 ++ List.map persisted_entry new |}.
Proof.
  cbv zeta.
  assert (Hret : (indexDocumentation join_slash (constant_pipeline [0.5; 0.25]%float)
                    mkdir_always write_always test_project test_dependency
                    test_repository two_documents None blank_world).1 = Returned ())
    by (vm_compute; reflexivity).
  split; [exact Hret|].
  exact (proj1 (index_then_load join_slash (constant_pipeline [0.5; 0.25]%float)
                  mkdir_always write_always test_project test_dependency
                  test_repository two_documents None blank_world Hret)).
Defined.

(** * The further properties on concrete inputs *)

(** [search_respects_context] on a store of four records and the context
    ["/a.md"]. *)
Lemma search_respects_context_witness :
  let rs := [score_entry [1; 0]%float (test_record "first" "/a.md" [1; 0]%float)] in
  (searchVectorStore join_slash (constant_pipeline [1; 0]%float) test_project
     (js "test query") (Some (js "/a.md")) None
     (world_with (StoreFile graded_records))).1 = Returned rs
  ∧ ∀ r, r ∈ rs →
      (∃ pre post, source_repository r = pre ++ js "/a.md" ++ post)
      ∨ (∃ pre post, source_file r = pre ++ js "/a.md" ++ post).
Proof.
  cbv zeta.
  assert (Hrun : (searchVectorStore join_slash (constant_pipeline [1; 0]%float)
                    test_project (js "test query") (Some (js "/a.md")) None
                    (world_with (StoreFile graded_records))).1
                 = Returned [score_entry [1; 0]%float
                               (test_record "first" "/a.md" [1; 0]%float)])
    by (vm_compute; reflexivity).
  split; [exact Hrun|].
  exact (search_respects_context join_slash (constant_pipeline [1; 0]%float)
           test_project (js "test query") (Some (js "/a.md")) None
           (world_with (StoreFile graded_records)) _ Hrun).
Defined.

(** [search_returns_best] on a store of ten records. *)
Lemma search_returns_best_witness :
  let pipeline := constant_pipeline [0.5; 0.25; 0.125]%float in
  let w := world_with (StoreFile ten_records) in
  let scored := search_scored join_slash pipeline w test_project (js "test query")
                  None None in
  numeric_scores scored
  ∧ ∃ rs rest,
      (searchVectorStore join_slash pipeline test_project (js "test query")
         None None w).1 = Returned rs
      ∧ rs ++ rest ≡ₚ scored
      ∧ ∀ r r', r ∈ rs → r' ∈ rest →
          (similarity_score r' <=? similarity_score r)%float = true.
Proof.
  cbv zeta.
  assert (Hnum : numeric_scores
                   (search_scored join_slash (constant_pipeline [0.5; 0.25; 0.125]%float)
                      (world_with (StoreFile ten_records)) test_project
                      (js "test query") None None)).
  { vm_compute. repeat constructor. }
  split; [exact Hnum|].
  exact (search_returns_best join_slash (constant_pipeline [0.5; 0.25; 0.125]%float)
           test_project (js "test query") None None (world_with (StoreFile ten_records))
           Hnum).
Defined.


(** [failed_load_is_retried] with a pipeline that never loads. *)
Lemma failed_load_is_retried_witness :
  let run := generateEmbedding broken_pipeline (js "text") None blank_world in
  embeddingGeneratorCache blank_world = None
  ∧ broken_pipeline (model_name None) = None
  ∧ run.1 = Thrown (PipelineError (model_name None))
  ∧ embeddingGeneratorCache run.2 = None.
Proof.
  cbv zeta. split; [reflexivity|]. split; [reflexivity|].
  pose proof (failed_load_is_retried broken_pipeline (js "text") None blank_world
                eq_refl eq_refl) as H.
  cbv zeta in H. destruct H as (H1 & H2 & _). by split.
Defined.

Lemma blank_world_embeds v work :
  all_embed (embedding_of (constant_pipeline v) blank_world None) work.
Proof. apply Forall_forall. intros dc _. by exists v. Qed.

(** [indexing_succeeds] on two documents and a project without a store. *)
Lemma indexing_succeeds_witness :
  let pipeline := constant_pipeline [0.5; 0.25]%float in
  let p := vector_store_path join_slash test_project in
  let run := indexDocumentation join_slash pipeline mkdir_always write_always
               test_project test_dependency test_repository two_documents None
               blank_world in
  mkdir_always (join_slash test_project storage_dir_name) = true
  ∧ store_loadable join_slash blank_world test_project
  ∧ all_embed (embedding_of pipeline blank_world None) (all_chunks two_documents)
  ∧ write_always p = WriteOk
  ∧ run.1 = Returned ()
  ∧ stored_entries run.2 p
    = List.map persisted_entry
        (stored_entries blank_world p
         ++ indexed_entries (embedding_of pipeline blank_world None) test_repository
              test_dependency (all_chunks two_documents)).
Proof.
  cbv zeta. split; [reflexivity|]. split; [apply blank_project_is_loadable|].
  split; [apply blank_world_embeds|]. split; [reflexivity|].
  pose proof (indexing_succeeds join_slash (constant_pipeline [0.5; 0.25]%float)
                mkdir_always write_always test_project test_dependency test_repository
                two_documents None blank_world eq_refl blank_project_is_loadable
                (blank_world_embeds _ _) eq_refl) as H.
  cbv zeta in H. destruct H as (H1 & H2 & _). by split.
Defined.

(** [indexing_twice_duplicates] on the same run, repeated. *)
Lemma indexing_twice_duplicates_witness :
  let pipeline := constant_pipeline [0.5; 0.25]%float in
  let p := vector_store_path join_slash test_project in
  let run1 := indexDocumentation join_slash pipeline mkdir_always write_always
                test_project test_dependency test_repository two_documents None
                blank_world in
  let run2 := indexDocumentation join_slash pipeline mkdir_always write_always
                test_project test_dependency test_repository two_documents None
                run1.2 in
  let new := indexed_entries (embedding_of pipeline blank_world None) test_repository
               test_dependency (all_chunks two_documents) in
  mkdir_always (join_slash test_project storage_dir_name) = true
  ∧ store_loadable join_slash blank_world test_project
  ∧ all_embed (embedding_of pipeline blank_world None) (all_chunks two_documents)
  ∧ write_always p = WriteOk
  ∧ run2.1 = Returned ()
  ∧ stored_entries run2.2 p
    = List.map persisted_entry (stored_entries blank_world p ++ new ++ new)
  ∧ length (stored_entries run2.2 p) = 4%nat.
Proof.
  cbv zeta. split; [reflexivity|]. split; [apply blank_project_is_loadable|].
  split; [apply blank_world_embeds|]. split; [reflexivity|].
  pose proof (indexing_twice_duplicates join_slash (constant_pipeline [0.5; 0.25]%float)
                mkdir_always write_always test_project test_dependency test_repository
                two_documents None blank_world eq_refl blank_project_is_loadable
                (blank_world_embeds _ _) eq_refl) as H.
  cbv zeta in H. destruct H as (H1 & H2).
  split; [exact H1|]. split; [exact H2|]. rewrite H2. vm_compute. reflexivity.
Defined.

(** [mkdir_failure_stops_indexing] with a directory that cannot be made. *)
Lemma mkdir_failure_stops_indexing_witness :
  let dir := join_slash test_project storage_dir_name in
  never_mkdir dir = false
  ∧ (indexDocumentation join_slash (constant_pipeline [0.5; 0.25]%float) never_mkdir
       write_always test_project test_dependency test_repository two_documents None
       blank_world).1 = Thrown (MkdirError dir).
Proof.
  cbv zeta. split; [reflexivity|].
  by rewrite (mkdir_failure_stops_indexing join_slash
                (constant_pipeline [0.5; 0.25]%float) never_mkdir write_always
                test_project test_dependency test_repository two_documents None
                blank_world eq_refl).
Defined.

(** [corrupt_store_blocks_indexing] on a store file that cannot be parsed. *)
Lemma corrupt_store_blocks_indexing_witness :
  let p := vector_store_path join_slash test_project in
  let w := world_with Unreadable in
  let run := indexDocumentation join_slash (constant_pipeline [0.5; 0.25]%float)
               mkdir_always write_always test_project test_dependency test_repository
               two_documents None w in
  mkdir_always (join_slash test_project storage_dir_name) = true
  ∧ files w !! p = Some Unreadable
  ∧ run.1 = Thrown (ReadError p)
  ∧ files run.2 = files w.
Proof.
  cbv zeta.
  assert (Hfile : files (world_with Unreadable) !! vector_store_path join_slash test_project
                  = Some Unreadable) by (vm_compute; reflexivity).
  split; [reflexivity|]. split; [exact Hfile|].
  pose proof (corrupt_store_blocks_indexing join_slash
                (constant_pipeline [0.5; 0.25]%float) mkdir_always write_always
                test_project test_dependency test_repository two_documents None
                (world_with Unreadable) eq_refl Hfile) as H.
  cbv zeta in H. destruct H as (H1 & H2 & _). by split.
Defined.

(** [index_then_search]: two documents indexed, then searched; no record
    scores NaN against the query. *)
Lemma index_then_search_witness :
  let pipeline := constant_pipeline [0.5; 0.25]%float in
  let p := vector_store_path join_slash test_project in
  let run := indexDocumentation join_slash pipeline mkdir_always write_always
               test_project test_dependency test_repository two_documents None
               blank_world in
  let store :=
    {| entries := List.map persisted_entry
                    (stored_entries blank_world p
                     ++ indexed_entries (embedding_of pipeline blank_world None)
                          test_repository test_dependency
                          (all_chunks two_documents)) |} in
  mkdir_always (join_slash test_project storage_dir_name) = true
  ∧ store_loadable join_slash blank_world test_project
  ∧ all_embed (embedding_of pipeline blank_world None) (all_chunks two_documents)
  ∧ write_always p = WriteOk
  ∧ (∀ queryEmbedding,
       embedding_of pipeline blank_world None (js "test query") = Returned queryEmbedding →
       numeric_scores (scored_results queryEmbedding store None))
  ∧ ∃ rs, (searchVectorStore join_slash pipeline test_project (js "test query") None
             None run.2).1 = Returned rs
          ∧ List.map text_chunk rs = [js "bad text"; js "good text"].
Proof.
  cbv zeta.
  assert (Hnum : ∀ queryEmbedding,
            embedding_of (constant_pipeline [0.5; 0.25]%float) blank_world None
              (js "test query") = Returned queryEmbedding →
            numeric_scores
              (scored_results queryEmbedding
                 {| entries := List.map persisted_entry
                      (stored_entries blank_world
                         (vector_store_path join_slash test_project)
                       ++ indexed_entries
                            (embedding_of (constant_pipeline [0.5; 0.25]%float)
                               blank_world None)
                            test_repository test_dependency
                            (all_chunks two_documents)) |} None)).
  { intros queryEmbedding Hq. vm_compute in Hq. injection Hq as <-.
    vm_compute. repeat constructor. }
  split; [reflexivity|]. split; [apply blank_project_is_loadable|].
  split; [apply blank_world_embeds|]. split; [reflexivity|]. split; [exact Hnum|].
  pose proof (index_then_search join_slash (constant_pipeline [0.5; 0.25]%float)
                mkdir_always write_always test_project test_dependency test_repository
                two_documents None blank_world (js "test query") None
                eq_refl blank_project_is_loadable (blank_world_embeds _ _) eq_refl
                Hnum) as H.
  cbv zeta in H. eexists. split; [exact H|]. vm_compute. reflexivity.
Defined.

(** [config_only_names_the_model]: the defaults, and the defaults with
    [chunksReturned] set to 8. *)
Lemma config_only_names_the_model_witness :
  let c := defaultConfig in
  let c' := with_chunksReturned defaultConfig 8 in
  embeddingModel c = embeddingModel c'
  ∧ c ≠ c'
  ∧ ∀ projectPath query repositoryContext,
      searchVectorStore join_slash (constant_pipeline [1; 0]%float) projectPath query
        repositoryContext (Some c)
      = searchVectorStore join_slash (constant_pipeline [1; 0]%float) projectPath query
          repositoryContext (Some c').
Proof.
  cbv zeta. split; [reflexivity|]. split; [discriminate|].
  exact (proj2 (config_only_names_the_model join_slash (constant_pipeline [1; 0]%float)
                  mkdir_always write_always defaultConfig
                  (with_chunksReturned defaultConfig 8) eq_refl)).
Defined.

(** [blank_document_has_no_chunks] on a document of spaces and line ends. *)
Lemma blank_document_has_no_chunks_witness :
  let d := doc_of (js "  " ++ LF ++ js " ") in
  nonws (content d) = [] ∧ splitIntoChunks d defaultMinSize defaultMaxSize = [].
Proof.
  cbv zeta. split; [reflexivity|].
  exact (blank_document_has_no_chunks (doc_of (js "  " ++ LF ++ js " "))
           defaultMinSize defaultMaxSize eq_refl).
Defined.

(** [hashless_document_is_one_chunk] on a short text. *)
Lemma hashless_document_is_one_chunk_witness :
  let d := doc_of (js " plain text" ++ LF) in
  Forall (λ c, is_hash c = false) (content d)
  ∧ nonws (content d) ≠ []
  ∧ len (content d) <= defaultMaxSize
  ∧ splitIntoChunks d defaultMinSize defaultMaxSize = [js "plain text"].
Proof.
  cbv zeta.
  assert (Hhash : Forall (λ c, is_hash c = false)
                    (content (doc_of (js " plain text" ++ LF))))
    by (vm_compute; repeat constructor).
  assert (Hnb : nonws (content (doc_of (js " plain text" ++ LF))) ≠ []) by done.
  assert (Hfit : len (content (doc_of (js " plain text" ++ LF))) <= defaultMaxSize)
    by (vm_compute; discriminate).
  split; [exact Hhash|]. split; [exact Hnb|]. split; [exact Hfit|].
  exact (proj2 (hashless_document_is_one_chunk (doc_of (js " plain text" ++ LF))
                  defaultMinSize defaultMaxSize Hhash Hnb Hfit)).
Defined.

(** [cosineSimilarity_symmetric] on two vectors of three values. *)
Lemma cosineSimilarity_symmetric_witness :
  let a := [0.5; 0.75; 0.25]%float in
  let b := [0.125; 2; 3]%float in
  length a = length b ∧ cosineSimilarity a b = cosineSimilarity b a.
Proof.
  cbv zeta. split; [reflexivity|].
  exact (cosineSimilarity_symmetric [0.5; 0.75; 0.25]%float [0.125; 2; 3]%float eq_refl).
Defined.

(** [short_record_scores_nan]: a record of one value, a query of two. *)
Lemma short_record_scores_nan_witness :
  let entry := test_record "short" "/a.md" [1]%float in
  (length (embedding entry) < length [1; 0]%float)%nat
  ∧ is_nan (similarity_score (score_entry [1; 0]%float entry)) = true.
Proof.
  cbv zeta.
  assert (Hshort : (length (embedding (test_record "short" "/a.md" [1]%float))
                    < length [1; 0]%float)%nat) by (cbn; lia).
  split; [exact Hshort|].
  exact (short_record_scores_nan [1; 0]%float _ Hshort).
Defined.

(** [zero_vector_scores_nan]: a zero record, and a zero query. *)
Lemma zero_vector_scores_nan_witness :
  let zero_vector := [0; (-0); 0]%float in
  Forall (λ x, (x =? 0)%float = true) zero_vector
  ∧ is_nan (cosineSimilarity [0.5; 0.25; 0.125]%float zero_vector) = true
  ∧ is_nan (cosineSimilarity zero_vector [0.5; 0.25; 0.125]%float) = true.
Proof.
  cbv zeta.
  assert (Hzero : Forall (λ x, (x =? 0)%float = true) [0; (-0); 0]%float)
    by (repeat constructor).
  split; [exact Hzero|]. split.
  - exact (zero_vector_scores_nan _ _ (or_intror Hzero)).
  - exact (zero_vector_scores_nan _ _ (or_introl Hzero)).
Defined.

(** [invalid_project_path_is_rejected] on the empty path. *)
Lemma invalid_project_path_is_rejected_witness :
  let params := {| analyze_project_path := []; analyze_env_vars := None |} in
  analyze_project_path params = []
  ∧ (analyzeAndIndexDependencies join_slash (constant_pipeline [1; 0]%float)
       mkdir_always write_always (config_of defaultConfig) quiet_log silent_progress
       one_dependency found_repository fetched_documents params blank_world).1
    = Returned (failure (MsgInvalidProjectPath [])).
Proof.
  cbv zeta. split; [reflexivity|].
  by rewrite (invalid_project_path_is_rejected join_slash
                (constant_pipeline [1; 0]%float) mkdir_always write_always
                (config_of defaultConfig) quiet_log silent_progress one_dependency
                found_repository fetched_documents
                {| analyze_project_path := []; analyze_env_vars := None |} blank_world
                (or_introl eq_refl)).
Defined.

(** [getConfig_defaults] with an environment that sets another variable. *)
Lemma getConfig_defaults_witness :
  let vars : gmap (list N) (list N) := {[ js "HOME" := js "/root" ]} in
  Forall (λ name, vars !! js name = None) config_variables
  ∧ getConfig_from join_slash vars no_env_file (Some test_project)
    = (loaded_defaults, []).
Proof.
  cbv zeta.
  assert (Hunset : Forall (λ name, ({[ js "HOME" := js "/root" ]}
                                      : gmap (list N) (list N)) !! js name = None)
                     config_variables).
  { repeat constructor; by apply lookup_singleton_ne. }
  split; [exact Hunset|].
  exact (getConfig_defaults join_slash _ no_env_file (Some test_project) Hunset
           (λ _ _, conj eq_refl eq_refl)).
Defined.

(** [first_env_file_wins]: a project whose second file cannot be read. *)
Lemma first_env_file_wins_witness :
  let file_vars : gmap (list N) (list N) := {[ js "MODEL_NAME" := js "other-model" ]} in
  model_env_file (join_slash test_project (js ".env")) = EnvFile file_vars
  ∧ only_first_env_file (join_slash test_project (js ".env")) = EnvFile file_vars
  ∧ only_first_env_file (join_slash test_project (js ".env.dependency-context"))
    = BadEnvFile
  ∧ getConfig_from join_slash ∅ model_env_file (Some test_project)
    = getConfig_from join_slash ∅ only_first_env_file (Some test_project).
Proof.
  cbv zeta.
  assert (Hfirst : only_first_env_file (join_slash test_project (js ".env"))
                   = EnvFile {[ js "MODEL_NAME" := js "other-model" ]}).
  { unfold only_first_env_file. by rewrite bool_decide_eq_true_2. }
  split; [reflexivity|]. split; [exact Hfirst|]. split.
  - unfold only_first_env_file. by rewrite bool_decide_eq_false_2.
  - exact (first_env_file_wins join_slash ∅ model_env_file only_first_env_file
             test_project _ eq_refl Hfirst).
Defined.

(** [project_file_overrides_environment]: the environment and the file both
    name a model. *)
Lemma project_file_overrides_environment_witness :
  let vars : gmap (list N) (list N) :=
    {[ js "MODEL_NAME" := js "env-model" ]} in
  model_env_file (join_slash test_project (js ".env"))
  = EnvFile {[ js "MODEL_NAME" := js "other-model" ]}
  ∧ loaded_embeddingModel
      (getConfig_from join_slash vars model_env_file (Some test_project)).1
    = js "other-model"
  ∧ loaded_embeddingModel (getConfig_from join_slash vars model_env_file None).1
    = js "env-model".
Proof.
  cbv zeta. split; [reflexivity|]. split.
  - pose proof (project_file_overrides_environment join_slash
                  {[ js "MODEL_NAME" := js "env-model" ]} model_env_file
                  47%N (js "test/project") _ eq_refl) as H.
    cbv zeta in H. destruct H as (H & _).
    apply (H 111%N (js "ther-model")). apply lookup_singleton_eq.
  - unfold getConfig_from, from_process_env, when_debug, when_set.
    rewrite lookup_singleton_eq. rewrite !lookup_singleton_ne by done.
    by rewrite bool_decide_eq_false_2.
Defined.

(** [parseInt] on some strings: one that ends in a unit, the first integer
    past 2^53 that is no binary64 (it is rounded to the even neighbour), a
    negative zero, and a run of digits too long for a finite Number. *)
Example parseInt_examples :
  parseInt (js " 800px") = 800%float
  ∧ parseInt (js "9007199254740993") = 9007199254740992%float
  ∧ parseInt (js "-0") = (-0)%float
  ∧ parseInt (repeat 57%N 400) = infinity
  ∧ parseInt (js "px800") = nan.
Proof. repeat split; vm_compute; reflexivity. Qed.

(** [numeric_setting_is_not_validated] with [CHUNKS_RETURNED] set to
    [" 8 results"], and set to [" many"]. *)
Lemma numeric_setting_is_not_validated_witness :
  let eight : gmap (list N) (list N) := {[ js "CHUNKS_RETURNED" := js " 8 results" ]} in
  let many : gmap (list N) (list N) := {[ js "CHUNKS_RETURNED" := js " many" ]} in
  Forall (λ c, is_white_space c = true) (js " ")
  ∧ loaded_chunksReturned (getConfig_from join_slash eight no_env_file None).1 = 8%float
  ∧ loaded_chunksReturned (getConfig_from join_slash many no_env_file None).1 = nan.
Proof.
  cbv zeta.
  assert (Hs : Forall (λ c, is_white_space c = true) (js " "))
    by (repeat constructor).
  split; [exact Hs|]. split.
  - destruct (numeric_setting_is_not_validated join_slash
                {[ js "CHUNKS_RETURNED" := js " 8 results" ]} no_env_file (js " ") Hs)
      as (Hint & _).
    destruct (Hint 56%N [] (js " results")) as (H & _);
      [repeat constructor | cbn; lia | done |].
    rewrite H by apply lookup_singleton_eq. vm_compute. reflexivity.
  - destruct (numeric_setting_is_not_validated join_slash
                {[ js "CHUNKS_RETURNED" := js " many" ]} no_env_file (js " ") Hs)
      as (_ & Hnan & _).
    apply (Hnan 109%N (js "any")); first [done | apply lookup_singleton_eq].
Defined.
